(** * go-3d: the software 3D pipeline and its frame generator

    A shallow embedding of the Go package [go3d] (vector and matrix
    algebra, triangles, camera paths, the painter's-algorithm renderer and
    the animation driver), followed by the properties its specification
    states about it.

    Go's [float64] is kept abstract behind the class [Float64]: every
    function below is written once, against the operations the source
    uses.  Two instances are provided,
    - [binary64]: IEEE 754 double precision, the arithmetic the compiled
      program runs (Rocq's primitive floats), used to evaluate the code on
      concrete inputs;
    - [exact]: the real numbers, the arithmetic in which the specification
      phrases its numeric statements.
    A theorem stated for an arbitrary instance therefore holds for both.

    Other conventions: Go's [int] is [Z] (frame counts and sizes stay far
    from the 64-bit bounds); the cairo context is the list of the calls
    issued on it; a method that mutates its receiver returns the new
    receiver; the operating system is a map from paths to file contents
    together with the list of the calls made to it; what the program
    prints is left out. *)

From Stdlib Require Import ZArith List Bool Reals Lra Lia Floats.
From Stdlib Require Import String Ascii Permutation Sorted DecimalString DecimalN.
From Stdlib Require Import RNsatz.
From stdpp Require Import gmap strings list.

(** ** Scalars *)

Class Float64 (F : Type) : Type := {
  float64_of_int : Z -> F;      (* the conversion float64(n) *)
  int_of_float64 : F -> Z;      (* the conversion int(x): truncation *)
  fadd : F -> F -> F;
  fsub : F -> F -> F;
  fmul : F -> F -> F;
  fdiv : F -> F -> F;
  fneg : F -> F;
  flt : F -> F -> bool;         (* x < y *)
  fle : F -> F -> bool;         (* x <= y *)
  math_Abs : F -> F;
  math_Sqrt : F -> F;
  math_Tan : F -> F;
  math_Max : F -> F -> F;
  math_Min : F -> F -> F
}.

Declare Scope go_scope.
Delimit Scope go_scope with go.
Notation "x + y" := (fadd x y) : go_scope.
Notation "x - y" := (fsub x y) : go_scope.
Notation "x * y" := (fmul x y) : go_scope.
Notation "x / y" := (fdiv x y) : go_scope.
Notation "- x" := (fneg x) : go_scope.
Notation "x <? y" := (flt x y) : go_scope.
Notation "x >? y" := (flt y x) : go_scope.
Notation "x <=? y" := (fle x y) : go_scope.
Notation "x >=? y" := (fle y x) : go_scope.
Notation "'#' n" := (float64_of_int n%Z) (at level 1, format "'#' n") : go_scope.

(** *** IEEE 754 binary64 *)

Module Binary64.

(* float64(n), for n within the 64-bit range of int. *)
Definition of_int (z : Z) : float :=
  if (z <? 0)%Z then PrimFloat.opp (PrimFloat.of_uint63 (Uint63.of_Z (- z)))
  else PrimFloat.of_uint63 (Uint63.of_Z z).

(* int(x) truncates toward zero.  For NaN, infinities and values that do
   not fit 64 bits Go leaves the result to the platform; amd64 yields
   the most negative integer. *)
Definition to_int (x : float) : Z :=
  match Prim2SF x with
  | S754_zero _ => 0%Z
  | S754_finite s m e =>
      let a := if (0 <=? e)%Z then (Z.pos m * 2 ^ e)%Z
               else (Z.pos m / 2 ^ (- e))%Z in
      let v := if s then (- a)%Z else a in
      if ((- 2 ^ 63 <=? v) && (v <? 2 ^ 63))%Z then v else (- 2 ^ 63)%Z
  | _ => (- 2 ^ 63)%Z
  end.

(* math.Max and math.Min with their special cases for infinities, NaN
   and signed zeros. *)
Definition is_pos_inf (x : float) : bool := PrimFloat.eqb x infinity.
Definition is_neg_inf (x : float) : bool := PrimFloat.eqb x neg_infinity.

Definition Max (x y : float) : float :=
  if is_pos_inf x || is_pos_inf y then infinity
  else if PrimFloat.is_nan x || PrimFloat.is_nan y then nan
  else if PrimFloat.eqb x PrimFloat.zero && PrimFloat.eqb x y
       then (if PrimFloat.get_sign x then y else x)
  else if PrimFloat.ltb y x then x else y.

Definition Min (x y : float) : float :=
  if is_neg_inf x || is_neg_inf y then neg_infinity
  else if PrimFloat.is_nan x || PrimFloat.is_nan y then nan
  else if PrimFloat.eqb x PrimFloat.zero && PrimFloat.eqb x y
       then (if PrimFloat.get_sign x then x else y)
  else if PrimFloat.ltb x y then x else y.

(* math.Tan belongs to Go's runtime library, not to this package: the
   instance takes it as an argument. *)
Definition ops (tan : float -> float) : Float64 float := {|
  float64_of_int := of_int;
  int_of_float64 := to_int;
  fadd := PrimFloat.add;
  fsub := PrimFloat.sub;
  fmul := PrimFloat.mul;
  fdiv := PrimFloat.div;
  fneg := PrimFloat.opp;
  flt := PrimFloat.ltb;
  fle := PrimFloat.leb;
  math_Abs := PrimFloat.abs;
  math_Sqrt := PrimFloat.sqrt;
  math_Tan := tan;
  math_Max := Max;
  math_Min := Min
|}.

(* A truncated continued fraction of the tangent, good to a few digits
   on [-1, 1]; it only serves to run examples. *)
Definition tan_cf (x : float) : float :=
  let x2 := PrimFloat.mul x x in
  PrimFloat.div x
    (PrimFloat.sub 1 (PrimFloat.div x2
      (PrimFloat.sub 3 (PrimFloat.div x2
        (PrimFloat.sub 5 (PrimFloat.div x2
          (PrimFloat.sub 7 (PrimFloat.div x2 9)))))))).

End Binary64.

#[export] Instance binary64 : Float64 float := Binary64.ops Binary64.tan_cf.

(** *** Exact arithmetic *)

Module Exact.

Definition Rltb (x y : R) : bool := if Rlt_dec x y then true else false.
Definition Rleb (x y : R) : bool := if Rle_dec x y then true else false.

Definition Rtrunc (x : R) : Z :=
  if Rle_dec 0 x then Int_part x else (- Int_part (- x))%Z.

End Exact.

#[export] Instance exact : Float64 R := {|
  float64_of_int := IZR;
  int_of_float64 := Exact.Rtrunc;
  fadd := Rplus;
  fsub := Rminus;
  fmul := Rmult;
  fdiv := Rdiv;
  fneg := Ropp;
  flt := Exact.Rltb;
  fle := Exact.Rleb;
  math_Abs := Rabs;
  math_Sqrt := R_sqrt.sqrt;
  math_Tan := Rtrigo1.tan;
  math_Max := Rmax;
  math_Min := Rmin
|}.

(** ** Linear algebra, triangles *)

Section LinearAlgebra.
Context {F : Type} {FO : Float64 F}.
Local Open Scope go_scope.

(* The threshold 1e-10 the source uses throughout. *)
Definition epsilon : F := #1 / #10000000000.

(* type Vector3 struct { X, Y, Z float64 } *)
Record Vector3 : Type := NewVector3 { vX : F; vY : F; vZ : F }.

Definition Add (v other : Vector3) : Vector3 :=
  NewVector3 (vX v + vX other) (vY v + vY other) (vZ v + vZ other).

Definition Sub (v other : Vector3) : Vector3 :=
  NewVector3 (vX v - vX other) (vY v - vY other) (vZ v - vZ other).

Definition Scale (v : Vector3) (s : F) : Vector3 :=
  NewVector3 (vX v * s) (vY v * s) (vZ v * s).

Definition Dot (v other : Vector3) : F :=
  vX v * vX other + vY v * vY other + vZ v * vZ other.

Definition Cross (v other : Vector3) : Vector3 :=
  NewVector3 (vY v * vZ other - vZ v * vY other)
             (vZ v * vX other - vX v * vZ other)
             (vX v * vY other - vY v * vX other).

Definition Length (v : Vector3) : F :=
  math_Sqrt (vX v * vX v + vY v * vY v + vZ v * vZ v).

Definition Normalize (v : Vector3) : Vector3 :=
  let length := Length v in
  if length <? epsilon then NewVector3 #0 #0 #0
  else Scale v (#1 / length).

(* type Triangle struct { V0, V1, V2 Vector3 } *)
Record Triangle : Type := mkTriangle { V0 : Vector3; V1 : Vector3; V2 : Vector3 }.

Definition Normal (t : Triangle) : Vector3 :=
  let edge1 := Sub (V1 t) (V0 t) in
  let edge2 := Sub (V2 t) (V0 t) in
  let normal := Cross edge1 edge2 in
  if Length normal <? epsilon then NewVector3 #0 #1 #0
  else Normalize normal.

Definition Center (t : Triangle) : Vector3 :=
  Scale (Add (Add (V0 t) (V1 t)) (V2 t)) (#1 / #3).

(* type Mesh struct { Vertices []Vector3; Triangles []Triangle } *)
Record Mesh : Type := mkMesh { Vertices : list Vector3; Triangles : list Triangle }.

(* type Matrix4 [16]float64, row-major; field [eK] is the entry m[K]. *)
Record Matrix4 : Type := mkMatrix4 {
  e0 : F; e1 : F; e2 : F; e3 : F;
  e4 : F; e5 : F; e6 : F; e7 : F;
  e8 : F; e9 : F; e10 : F; e11 : F;
  e12 : F; e13 : F; e14 : F; e15 : F
}.

Definition Identity : Matrix4 :=
  mkMatrix4 #1 #0 #0 #0
            #0 #1 #0 #0
            #0 #0 #1 #0
            #0 #0 #0 #1.

(* The four homogeneous coordinates TransformVector computes first. *)
Definition hom_x (m : Matrix4) (v : Vector3) : F :=
  e0 m * vX v + e1 m * vY v + e2 m * vZ v + e3 m.
Definition hom_y (m : Matrix4) (v : Vector3) : F :=
  e4 m * vX v + e5 m * vY v + e6 m * vZ v + e7 m.
Definition hom_z (m : Matrix4) (v : Vector3) : F :=
  e8 m * vX v + e9 m * vY v + e10 m * vZ v + e11 m.
Definition hom_w (m : Matrix4) (v : Vector3) : F :=
  e12 m * vX v + e13 m * vY v + e14 m * vZ v + e15 m.

Definition TransformVector (m : Matrix4) (v : Vector3) : Vector3 :=
  let x := hom_x m v in
  let y := hom_y m v in
  let z := hom_z m v in
  let w := hom_w m v in
  if (math_Abs w >? epsilon) && (math_Abs (w - #1) >? epsilon)
  then NewVector3 (x / w) (y / w) (z / w)
  else NewVector3 x y z.

Definition Perspective (fov aspect near far : F) : Matrix4 :=
  if (math_Abs fov <? epsilon) || (math_Abs aspect <? epsilon)
     || (math_Abs (far - near) <? epsilon)
  then Identity
  else
    let f := #1 / math_Tan (fov / #2) in
    mkMatrix4 (f / aspect) #0 #0 #0
              #0 f #0 #0
              #0 #0 ((far + near) / (near - far)) ((#2 * far * near) / (near - far))
              #0 #0 (#(-1)) #0.

Definition LookAt (eye target up : Vector3) : Matrix4 :=
  let forward := Normalize (Sub target eye) in
  let forward :=
    if Length forward <? epsilon then NewVector3 #0 #0 #1 else forward in
  let right := Normalize (Cross forward up) in
  let right :=
    if Length right <? epsilon then
      if math_Abs (vY forward) <? (#9 / #10)
      then Normalize (Cross forward (NewVector3 #0 #1 #0))
      else Normalize (Cross forward (NewVector3 #1 #0 #0))
    else right in
  let newUp := Normalize (Cross right forward) in
  mkMatrix4 (vX right) (vY right) (vZ right) (- Dot right eye)
            (vX newUp) (vY newUp) (vZ newUp) (- Dot newUp eye)
            (- vX forward) (- vY forward) (- vZ forward) (Dot forward eye)
            #0 #0 #0 #1.

End LinearAlgebra.

Arguments Vector3 F : clear implicits.
Arguments Triangle F : clear implicits.
Arguments Mesh F : clear implicits.
Arguments Matrix4 F : clear implicits.

(** ** Renderer *)

(* The cairo context is an external drawing surface: the model keeps the
   sequence of calls issued on it, in issue order. *)
Inductive Operator := OperatorSource | OperatorOver.

Inductive DrawCmd (F : Type) : Type :=
| Save | Restore
| SetOperator (op : Operator)
| SetSourceRGB (r g b : F)
| SetSourceRGBA (r g b a : F)
| Paint
| SetLineWidth (w : F)
| SetLineJoinRound
| MoveTo (x y : F)
| LineTo (x y : F)
| ClosePath
| Stroke
| Fill.

Arguments Save {F}.
Arguments Restore {F}.
Arguments SetOperator {F} op.
Arguments SetSourceRGB {F} r g b.
Arguments SetSourceRGBA {F} r g b a.
Arguments Paint {F}.
Arguments SetLineWidth {F} w.
Arguments SetLineJoinRound {F}.
Arguments MoveTo {F} x y.
Arguments LineTo {F} x y.
Arguments ClosePath {F}.
Arguments Stroke {F}.
Arguments Fill {F}.

Inductive RenderMode := RenderWireframe | RenderFlat | RenderShaded.

Section Renderer.
Context {F : Type} {FO : Float64 F}.
Local Open Scope go_scope.

(* sort.Slice is Go's library sort, driven by the comparison closure it
   is given. *)
Variable sort_Slice :
  forall A : Type, (A -> A -> bool) -> list A -> list A.

Definition Color : Type := (F * F * F)%type.
Definition c0 (c : Color) : F := c.1.1.
Definition c1 (c : Color) : F := c.1.2.
Definition c2 (c : Color) : F := c.2.

Record Camera : Type := mkCamera {
  Camera_Position : Vector3 F;
  Camera_Target : Vector3 F;
  Camera_Up : Vector3 F;
  Camera_FOV : F;
  Camera_Near : F;
  Camera_Far : F
}.

Definition NewCamera : Camera :=
  mkCamera (NewVector3 #0 #0 #(-5)) (NewVector3 #0 #0 #0) (NewVector3 #0 #1 #0)
           #1 (#1 / #10) #100.

Record Light : Type := NewLight {
  Light_Position : Vector3 F;
  Light_Color : Color;
  Light_Intensity : F
}.

Record Renderer : Type := mkRenderer {
  Context_log : list (DrawCmd F);
  Renderer_Width : Z;
  Renderer_Height : Z;
  Renderer_Camera : Camera;
  Renderer_Lights : list Light;
  Renderer_Mode : RenderMode;
  Renderer_Antialias : bool
}.

(* Issue calls on r.Context. *)
Definition emit (r : Renderer) (cmds : list (DrawCmd F)) : Renderer :=
  mkRenderer (Context_log r ++ cmds) (Renderer_Width r) (Renderer_Height r)
             (Renderer_Camera r) (Renderer_Lights r) (Renderer_Mode r)
             (Renderer_Antialias r).

Definition NewRenderer (width height : Z) : Renderer :=
  mkRenderer [SetOperator OperatorSource; SetSourceRGBA #0 #0 #0 #1; Paint;
              SetOperator OperatorOver]
             width height NewCamera [] RenderWireframe true.

Definition SetRenderMode (r : Renderer) (mode : RenderMode) : Renderer :=
  mkRenderer (Context_log r) (Renderer_Width r) (Renderer_Height r)
             (Renderer_Camera r) (Renderer_Lights r) mode (Renderer_Antialias r).

Definition AddLight (r : Renderer) (light : Light) : Renderer :=
  mkRenderer (Context_log r) (Renderer_Width r) (Renderer_Height r)
             (Renderer_Camera r) (Renderer_Lights r ++ [light])
             (Renderer_Mode r) (Renderer_Antialias r).

Definition ProjectToScreen (r : Renderer) (v : Vector3 F) : F * F * F :=
  let aspect := #(Renderer_Width r) / #(Renderer_Height r) in
  let cam := Renderer_Camera r in
  let view := LookAt (Camera_Position cam) (Camera_Target cam) (Camera_Up cam) in
  let projection :=
    Perspective (Camera_FOV cam) aspect (Camera_Near cam) (Camera_Far cam) in
  let viewSpace := TransformVector view v in
  let projected := TransformVector projection viewSpace in
  let x := (vX projected + #1) * #(Renderer_Width r) / #2 in
  let y := (#1 - vY projected) * #(Renderer_Height r) / #2 in
  (x, y, vZ projected).

Definition CalculateLighting (r : Renderer) (position normal : Vector3 F)
    (baseColor : Color) : Color :=
  match Renderer_Lights r with
  | [] => baseColor
  | _ =>
      let ambient : Color := (#2 / #10, #2 / #10, #2 / #10) in
      let diffuse : Color :=
        foldl (fun (diffuse : Color) (light : Light) =>
                 let lightDir := Normalize (Sub (Light_Position light) position) in
                 let intensity :=
                   math_Max #0 (Dot normal lightDir) * Light_Intensity light in
                 (c0 diffuse + c0 (Light_Color light) * intensity,
                  c1 diffuse + c1 (Light_Color light) * intensity,
                  c2 diffuse + c2 (Light_Color light) * intensity))
              (#0, #0, #0) (Renderer_Lights r) in
      (math_Min #1 ((c0 ambient + c0 diffuse) * c0 baseColor),
       math_Min #1 ((c1 ambient + c1 diffuse) * c1 baseColor),
       math_Min #1 ((c2 ambient + c2 diffuse) * c2 baseColor))
  end.

Record triangleWithDepth : Type := mkTriangleWithDepth {
  tri : Triangle F;
  depth : F;
  color : Color
}.

(* The projected depths of the three vertices. *)
Definition depths (r : Renderer) (t : Triangle F) : F * F * F :=
  ((ProjectToScreen r (V0 t)).2, (ProjectToScreen r (V1 t)).2,
   (ProjectToScreen r (V2 t)).2).

(* drawWireframe:
     if z0 < -1 || z0 > 1 || z1 < -1 || z1 > 1 || z2 < -1 || z2 > 1 *)
Definition wireframeCull (z : F * F * F) : bool :=
  let '(z0, z1, z2) := z in
  (z0 <? #(-1)) || (z0 >? #1) || (z1 <? #(-1)) || (z1 >? #1)
  || (z2 <? #(-1)) || (z2 >? #1).

(* drawFlat, drawShaded, DrawMeshWithGradient:
     if z0 < -1 || z1 < -1 || z2 < -1 *)
Definition fillCull (z : F * F * F) : bool :=
  let '(z0, z1, z2) := z in
  (z0 <? #(-1)) || (z1 <? #(-1)) || (z2 <? #(-1)).

Definition tracePath (r : Renderer) (t : Triangle F) : list (DrawCmd F) :=
  let '(x0, y0, _) := ProjectToScreen r (V0 t) in
  let '(x1, y1, _) := ProjectToScreen r (V1 t) in
  let '(x2, y2, _) := ProjectToScreen r (V2 t) in
  [MoveTo x0 y0; LineTo x1 y1; LineTo x2 y2; ClosePath].

(* One iteration of drawWireframe's loop. *)
Definition wireframeTriangle (r : Renderer) (t : Triangle F) : list (DrawCmd F) :=
  if wireframeCull (depths r t) then [] else tracePath r t ++ [Stroke].

Definition drawWireframe (r : Renderer) (mesh : Mesh F) (color : Color) : Renderer :=
  match Triangles mesh with
  | [] => r
  | _ =>
      emit r ([Save; SetSourceRGB (c0 color) (c1 color) (c2 color);
               SetLineWidth (#15 / #10); SetLineJoinRound]
              ++ flat_map (wireframeTriangle r) (Triangles mesh)
              ++ [Restore])
  end.

Definition avgDepth (z : F * F * F) : F :=
  let '(z0, z1, z2) := z in (z0 + z1 + z2) / #3.

(* The comparison closure handed to sort.Slice:
     triangles[i].depth > triangles[j].depth *)
Definition fartherFirst (a b : triangleWithDepth) : bool := depth a >? depth b.

(* One iteration of drawFlat's first loop: [None] is [continue]. *)
Definition flatEntry (r : Renderer) (color : Color) (t : Triangle F)
    : option triangleWithDepth :=
  let z := depths r t in
  if fillCull z then None
  else Some (mkTriangleWithDepth t (avgDepth z) color).

Definition flatQueue (r : Renderer) (mesh : Mesh F) (color : Color)
    : list triangleWithDepth :=
  sort_Slice _ fartherFirst (omap (flatEntry r color) (Triangles mesh)).

Definition flatFill (r : Renderer) (td : triangleWithDepth) : list (DrawCmd F) :=
  tracePath r (tri td) ++ [Fill].

Definition drawFlat (r : Renderer) (mesh : Mesh F) (color : Color) : Renderer :=
  match Triangles mesh with
  | [] => r
  | _ =>
      emit r ([Save; SetSourceRGB (c0 color) (c1 color) (c2 color)]
              ++ flat_map (flatFill r) (flatQueue r mesh color)
              ++ [Restore])
  end.

(* One iteration of drawShaded's first loop. *)
Definition shadedEntry (r : Renderer) (color : Color) (t : Triangle F)
    : option triangleWithDepth :=
  let z := depths r t in
  if fillCull z then None
  else
    let avg := avgDepth z in
    let normal := Normal t in
    let viewDir :=
      Normalize (Sub (Camera_Position (Renderer_Camera r)) (Center t)) in
    if Dot normal viewDir <? #0 then None
    else
      let center := Center t in
      let litColor := CalculateLighting r center normal color in
      Some (mkTriangleWithDepth t avg litColor).

Definition shadedQueue (r : Renderer) (mesh : Mesh F) (color : Color)
    : list triangleWithDepth :=
  sort_Slice _ fartherFirst (omap (shadedEntry r color) (Triangles mesh)).

Definition colorFill (r : Renderer) (td : triangleWithDepth) : list (DrawCmd F) :=
  tracePath r (tri td)
  ++ [SetSourceRGB (c0 (color td)) (c1 (color td)) (c2 (color td)); Fill].

Definition drawShaded (r : Renderer) (mesh : Mesh F) (color : Color) : Renderer :=
  match Triangles mesh with
  | [] => r
  | _ =>
      emit r ([Save] ++ flat_map (colorFill r) (shadedQueue r mesh color)
              ++ [Restore])
  end.

Definition DrawMesh (r : Renderer) (mesh : Mesh F) (color : Color) : Renderer :=
  match Renderer_Mode r with
  | RenderWireframe => drawWireframe r mesh color
  | RenderFlat => drawFlat r mesh color
  | RenderShaded => drawShaded r mesh color
  end.

(* One iteration of DrawMeshWithGradient's first loop. *)
Definition gradientEntry (r : Renderer) (color1 color2 : Color) (t : Triangle F)
    : option triangleWithDepth :=
  let z := depths r t in
  if fillCull z then None
  else
    let avg := avgDepth z in
    let t' := (avg + #1) / #2 in
    let color : Color :=
      (c0 color1 * (#1 - t') + c0 color2 * t',
       c1 color1 * (#1 - t') + c1 color2 * t',
       c2 color1 * (#1 - t') + c2 color2 * t') in
    Some (mkTriangleWithDepth t avg color).

Definition gradientQueue (r : Renderer) (mesh : Mesh F) (color1 color2 : Color)
    : list triangleWithDepth :=
  sort_Slice _ fartherFirst (omap (gradientEntry r color1 color2) (Triangles mesh)).

Definition DrawMeshWithGradient (r : Renderer) (mesh : Mesh F)
    (color1 color2 : Color) : Renderer :=
  match Triangles mesh with
  | [] => r
  | _ =>
      emit r ([Save]
              ++ flat_map (colorFill r) (gradientQueue r mesh color1 color2)
              ++ [Restore])
  end.

End Renderer.

Arguments Camera F : clear implicits.
Arguments Light F : clear implicits.
Arguments Renderer F : clear implicits.
Arguments triangleWithDepth F : clear implicits.
Arguments Color F : clear implicits.

(** ** Camera paths *)

Section CameraPath.
Context {F : Type} {FO : Float64 F}.
Local Open Scope go_scope.

Record CameraKeyframe : Type := mkCameraKeyframe {
  Keyframe_Time : F;
  Keyframe_Position : Vector3 F;
  Keyframe_Target : Vector3 F;
  Keyframe_FOV : F
}.

(* SmoothFunction may be nil. *)
Record InterpolatedCameraPath : Type := mkInterpolatedCameraPath {
  Keyframes : list CameraKeyframe;
  SmoothFunction : option (F -> F)
}.

Definition Smoothstep (t : F) : F :=
  if t <? #0 then #0
  else if t >? #1 then #1
  else t * t * (#3 - #2 * t).

Definition Smootherstep (t : F) : F :=
  if t <? #0 then #0
  else if t >? #1 then #1
  else t * t * t * (t * (t * #6 - #15) + #10).

Definition NewInterpolatedCameraPath (keyframes : list CameraKeyframe)
    : InterpolatedCameraPath :=
  mkInterpolatedCameraPath keyframes (Some Smoothstep).

(* var kf1, kf2 CameraKeyframe *)
Definition zeroKeyframe : CameraKeyframe :=
  mkCameraKeyframe #0 (NewVector3 #0 #0 #0) (NewVector3 #0 #0 #0) #0.

(* The search loop: the first adjacent pair that brackets t, the zero
   values of kf1 and kf2 when the loop ends without a match. *)
Fixpoint findBracket (t : F) (kfs : list CameraKeyframe)
    : CameraKeyframe * CameraKeyframe :=
  match kfs with
  | a :: (b :: _) as rest =>
      if (t >=? Keyframe_Time a) && (t <=? Keyframe_Time b) then (a, b)
      else findBracket t rest
  | _ => (zeroKeyframe, zeroKeyframe)
  end.

Definition localParameter (cp : InterpolatedCameraPath) (t : F)
    (kf1 kf2 : CameraKeyframe) : F :=
  let localT := (t - Keyframe_Time kf1) / (Keyframe_Time kf2 - Keyframe_Time kf1) in
  match SmoothFunction cp with
  | Some smooth => smooth localT
  | None => localT
  end.

Definition interpolateVector (cp : InterpolatedCameraPath) (t : F)
    (getter : CameraKeyframe -> Vector3 F) : Vector3 F :=
  match Keyframes cp with
  | [] => NewVector3 #0 #0 #0
  | [k] => getter k
  | first :: _ =>
      let '(kf1, kf2) := findBracket t (Keyframes cp) in
      if t <? Keyframe_Time first then getter first
      else if t >? Keyframe_Time (List.last (Keyframes cp) first)
      then getter (List.last (Keyframes cp) first)
      else
        let localT := localParameter cp t kf1 kf2 in
        let v1 := getter kf1 in
        let v2 := getter kf2 in
        Add (Scale v1 (#1 - localT)) (Scale v2 localT)
  end.

Definition interpolateFloat (cp : InterpolatedCameraPath) (t : F)
    (getter : CameraKeyframe -> F) : F :=
  match Keyframes cp with
  | [] => #0
  | [k] => getter k
  | first :: _ =>
      let '(kf1, kf2) := findBracket t (Keyframes cp) in
      if t <? Keyframe_Time first then getter first
      else if t >? Keyframe_Time (List.last (Keyframes cp) first)
      then getter (List.last (Keyframes cp) first)
      else
        let localT := localParameter cp t kf1 kf2 in
        let v1 := getter kf1 in
        let v2 := getter kf2 in
        v1 * (#1 - localT) + v2 * localT
  end.

Definition GetPosition (cp : InterpolatedCameraPath) (t : F) : Vector3 F :=
  interpolateVector cp t Keyframe_Position.

Definition GetTarget (cp : InterpolatedCameraPath) (t : F) : Vector3 F :=
  interpolateVector cp t Keyframe_Target.

Definition GetFOV (cp : InterpolatedCameraPath) (t : F) : F :=
  interpolateFloat cp t Keyframe_FOV.

End CameraPath.

Arguments CameraKeyframe F : clear implicits.
Arguments InterpolatedCameraPath F : clear implicits.

(** ** Animation driver *)

(* fmt.Sprintf("%04d", n): decimal, zero-padded to four characters, the
   sign counted in the width. *)
Fixpoint zeros (n : nat) : string :=
  match n with
  | O => EmptyString
  | S n' => String "0"%char (zeros n')
  end.

Definition decimal (n : N) : string := NilEmpty.string_of_uint (N.to_uint n).

Definition pad (width : nat) (s : string) : string :=
  zeros (width - String.length s) +:+ s.

Definition Sprintf_04d (n : Z) : string :=
  if (n <? 0)%Z then "-" +:+ pad 3 (decimal (Z.to_N (- n)))
  else pad 4 (decimal (Z.to_N n)).

(* fmt.Sprintf("%d", n) *)
Definition Sprintf_d (n : Z) : string :=
  if (n <? 0)%Z then "-" +:+ decimal (Z.to_N (- n)) else decimal (Z.to_N n).

(* fmt.Sprintf("frame_%04d.png", frame) *)
Definition frameName (frame : Z) : string :=
  "frame_" +:+ Sprintf_04d frame +:+ ".png".

(* What the operating system holds and was asked to do. *)
Inductive FileData (F : Type) : Type :=
| PNG (width height : Z) (surface : list (DrawCmd F))
| Video (args : list string).
Arguments PNG {F} width height surface.
Arguments Video {F} args.

Inductive Syscall : Type :=
| SysMkdirAll (dir : string)
| SysFfmpeg (args : list string)
| SysRemoveAll (dir : string).

Inductive error : Type :=
| ErrMkdir (cause : string)        (* "创建临时目录失败: %w" *)
| ErrSaveFrame (frame : Z) (cause : string)  (* "保存帧 %d 失败: %w" *)
| ErrFfmpeg (cause output : string). (* "ffmpeg 错误: %w\n输出: %s" *)

Inductive Outcome : Type :=
| Returned (err : option error)
| Panicked.

Section Animation.
Context {F : Type} {FO : Float64 F}.
Local Open Scope go_scope.
Local Open Scope Z_scope.

Record World : Type := mkWorld {
  files : gmap string (FileData F);
  syslog : list Syscall;            (* calls made to the system, oldest first *)
  callbacks : list (Z * F)          (* (frame, t) of every callback call, oldest first *)
}.

(* The operating system and Go's path library: external to the package. *)
Class OS : Type := {
  filepath_Join : string -> string -> string;
  os_MkdirAll : string -> World -> option string;
  os_RemoveAll : string -> World -> gmap string (FileData F) * option string;
  run_ffmpeg : list string -> World -> gmap string (FileData F) * option (string * string)
}.
Context {os : OS}.

Record AnimationConfig : Type := mkAnimationConfig {
  Config_Width : Z;
  Config_Height : Z;
  Config_FPS : Z;
  Config_Duration : F;
  Config_OutputFile : string;
  Config_TempDir : string;
  Config_Quality : Z;
  Config_CleanupTemp : bool;
  Config_Workers : Z
}.

Definition DefaultAnimationConfig : AnimationConfig :=
  mkAnimationConfig 1920 1080 30 (#10)%go "animation.mp4" "temp_frames" 23 true 1.

(* type FrameRenderer func(renderer *Renderer, frame int, t float64):
   the callback draws on the renderer it is handed. *)
Definition FrameRenderer : Type := Renderer F -> Z -> F -> Renderer F.

Record AnimationGenerator : Type := NewAnimationGenerator {
  Config : AnimationConfig;
  Generator_Renderer : FrameRenderer
}.

Definition setTempDir (c : AnimationConfig) (dir : string) : AnimationConfig :=
  mkAnimationConfig (Config_Width c) (Config_Height c) (Config_FPS c)
    (Config_Duration c) (Config_OutputFile c) dir (Config_Quality c)
    (Config_CleanupTemp c) (Config_Workers c).

Definition setCleanupTemp (c : AnimationConfig) (b : bool) : AnimationConfig :=
  mkAnimationConfig (Config_Width c) (Config_Height c) (Config_FPS c)
    (Config_Duration c) (Config_OutputFile c) (Config_TempDir c)
    (Config_Quality c) b (Config_Workers c).

Definition setConfig (ag : AnimationGenerator) (c : AnimationConfig)
    : AnimationGenerator :=
  NewAnimationGenerator c (Generator_Renderer ag).

(* Renderer.SaveToPNG: writes the surface and returns nil whatever the
   write reports; the write itself is taken to succeed. *)
Definition SaveToPNG (r : Renderer F) (filename : string) (w : World)
    : World * option string :=
  (mkWorld (<[filename := PNG (Renderer_Width r) (Renderer_Height r) (Context_log r)]>
              (files w))
           (syslog w) (callbacks w),
   None).

(* The body shared by both loops: time of the frame, a fresh renderer,
   the callback, the file. *)
Definition frameTime (totalFrames frame : Z) : F :=
  (#(frame - 1) / #totalFrames)%go.

Definition framePath (ag : AnimationGenerator) (frame : Z) : string :=
  filepath_Join (Config_TempDir (Config ag)) (frameName frame).

Definition renderFrame (ag : AnimationGenerator) (totalFrames frame : Z)
    (w : World) : World * option string :=
  let t := frameTime totalFrames frame in
  let renderer := NewRenderer (Config_Width (Config ag)) (Config_Height (Config ag)) in
  let renderer := Generator_Renderer ag renderer frame t in
  let w := mkWorld (files w) (syslog w) (callbacks w ++ [(frame, t)]) in
  SaveToPNG renderer (framePath ag frame) w.

(* for frame := 1; frame <= totalFrames; frame++ { ... }, with [n] the
   number of iterations left. *)
Fixpoint singleThreadLoop (ag : AnimationGenerator) (totalFrames : Z)
    (n : nat) (frame : Z) (w : World) : World * option error :=
  match n with
  | O => (w, None)
  | S n' =>
      match renderFrame ag totalFrames frame w with
      | (w', Some err) => (w', Some (ErrSaveFrame frame err))
      | (w', None) => singleThreadLoop ag totalFrames n' (frame + 1) w'
      end
  end.

Definition generateFramesSingleThread (ag : AnimationGenerator)
    (totalFrames : Z) (w : World) : World * option error :=
  singleThreadLoop ag totalFrames (Z.to_nat totalFrames) 1 w.

(** *** The worker pool

    The goroutines of generateFramesMultiThread are interleaved by
    Go's scheduler.  The model keeps the program counter of each and
    takes the order in which they move as an input: a schedule is a
    list of moves, a move that is not enabled leaves the state as it is. *)

Inductive WorkerPC : Type :=
| AtReceive                (* at "for frame := range jobs" *)
| Holding (frame : Z)      (* received a frame, body not yet run *)
| Exited.                  (* returned; wg.Done() ran *)

Record Pool : Type := mkPool {
  nextFrame : Z;             (* loop variable of the dispatching loop *)
  jobsClosed : bool;         (* close(jobs) ran *)
  jobs : list Z;             (* the buffered channel, oldest first *)
  workersPC : list WorkerPC;
  errorsChan : list error;   (* the buffered errors channel *)
  pool_world : World
}.

Inductive Move : Type :=
| RunMain
| RunWorker (w : nat).

Definition setWorker (s : Pool) (i : nat) (pc : WorkerPC) : Pool :=
  mkPool (nextFrame s) (jobsClosed s) (jobs s) (<[i := pc]> (workersPC s))
         (errorsChan s) (pool_world s).

(* The dispatching loop, one send at a time (the channel has room for
   every frame, so a send never blocks), then close(jobs). *)
Definition stepMain (totalFrames : Z) (s : Pool) : Pool :=
  if nextFrame s <=? totalFrames then
    mkPool (nextFrame s + 1) (jobsClosed s) (jobs s ++ [nextFrame s])
           (workersPC s) (errorsChan s) (pool_world s)
  else
    mkPool (nextFrame s) true (jobs s) (workersPC s) (errorsChan s) (pool_world s).

(* Worker i: receive a frame, or return once the channel is closed and
   empty, or wait; with a frame in hand, run the body of the loop, which
   returns on an error of SaveToPNG.  The progress channel has room for
   one signal per frame and is left out. *)
Definition stepWorker (ag : AnimationGenerator) (totalFrames : Z)
    (i : nat) (s : Pool) : Pool :=
  match workersPC s !! i with
  | Some AtReceive =>
      match jobs s with
      | frame :: rest =>
          mkPool (nextFrame s) (jobsClosed s) rest
                 (<[i := Holding frame]> (workersPC s))
                 (errorsChan s) (pool_world s)
      | [] => if jobsClosed s then setWorker s i Exited else s
      end
  | Some (Holding frame) =>
      match renderFrame ag totalFrames frame (pool_world s) with
      | (w', Some err) =>
          mkPool (nextFrame s) (jobsClosed s) (jobs s)
                 (<[i := Exited]> (workersPC s))
                 (errorsChan s ++ [ErrSaveFrame frame err]) w'
      | (w', None) =>
          mkPool (nextFrame s) (jobsClosed s) (jobs s)
                 (<[i := AtReceive]> (workersPC s))
                 (errorsChan s) w'
      end
  | _ => s
  end.

Definition step (ag : AnimationGenerator) (totalFrames : Z)
    (m : Move) (s : Pool) : Pool :=
  match m with
  | RunMain => stepMain totalFrames s
  | RunWorker i => stepWorker ag totalFrames i s
  end.

Definition run (ag : AnimationGenerator) (totalFrames : Z)
    (sched : list Move) (s : Pool) : Pool :=
  foldl (fun s m => step ag totalFrames m s) s sched.

(* Index of the first worker that has not returned. *)
Fixpoint firstLive (pcs : list WorkerPC) : option nat :=
  match pcs with
  | [] => None
  | Exited :: rest => S <$> firstLive rest
  | _ :: _ => Some O
  end.

(* A move that is enabled, if there is one: the dispatching loop first,
   then the first worker that has not returned.  [None] means that every
   worker has returned, which is when wg.Wait() lets the function go on.
   Once the schedule given is used up the goroutines left are run in this
   order. *)
Definition pick (totalFrames : Z) (s : Pool) : option Move :=
  if (nextFrame s <=? totalFrames) || negb (jobsClosed s) then Some RunMain
  else RunWorker <$> firstLive (workersPC s).

Fixpoint drain (ag : AnimationGenerator) (totalFrames : Z)
    (fuel : nat) (s : Pool) : Pool :=
  match fuel with
  | O => s
  | S fuel' =>
      match pick totalFrames s with
      | Some m => drain ag totalFrames fuel' (step ag totalFrames m s)
      | None => s
      end
  end.

Definition startPool (workers : Z) (w : World) : Pool :=
  mkPool 1 false [] (replicate (Z.to_nat workers) AtReceive) [] w.

Definition workerWeight (pc : WorkerPC) : nat :=
  match pc with
  | AtReceive => 1
  | Holding _ => 2
  | Exited => 0
  end.

(* Every enabled move strictly decreases this measure, so it bounds the
   length of what is left of any run. *)
Definition workLeft (totalFrames : Z) (s : Pool) : nat :=
  (3 * Z.to_nat (totalFrames + 1 - nextFrame s)
   + (if jobsClosed s then 0 else 1)
   + 2 * length (jobs s)
   + list_sum (map workerWeight (workersPC s)))%nat.

(* make(chan int, totalFrames) panics for a negative size.  Otherwise
   the goroutines move as the schedule says, then until none can move;
   the function returns the first error of the errors channel, if any. *)
Definition generateFramesMultiThread (sched : list Move)
    (ag : AnimationGenerator) (totalFrames workers : Z) (w : World)
    : World * Outcome :=
  if totalFrames <? 0 then (w, Panicked)
  else
    let s0 := startPool workers w in
    let s1 := run ag totalFrames sched s0 in
    let s2 := drain ag totalFrames (workLeft totalFrames s1) s1 in
    (pool_world s2, Returned (head (errorsChan s2))).

Definition totalFramesOf (c : AnimationConfig) : Z :=
  int_of_float64 (#(Config_FPS c) * Config_Duration c)%go.

Definition logCall (w : World) (c : Syscall) : World :=
  mkWorld (files w) (syslog w ++ [c]) (callbacks w).

Definition GenerateFrames (sched : list Move) (ag : AnimationGenerator)
    (w : World) : World * Outcome :=
  let w := logCall w (SysMkdirAll (Config_TempDir (Config ag))) in
  match os_MkdirAll (Config_TempDir (Config ag)) w with
  | Some err => (w, Returned (Some (ErrMkdir err)))
  | None =>
      let totalFrames := totalFramesOf (Config ag) in
      let workers := Config_Workers (Config ag) in
      let workers := if workers <? 1 then 1 else workers in
      if workers =? 1 then
        let '(w', err) := generateFramesSingleThread ag totalFrames w in
        (w', Returned err)
      else generateFramesMultiThread sched ag totalFrames workers w
  end.

Definition ffmpegArgs (c : AnimationConfig) : list string :=
  ["-y"; "-framerate"; Sprintf_d (Config_FPS c); "-start_number"; "1";
   "-i"; filepath_Join (Config_TempDir c) "frame_%04d.png";
   "-c:v"; "libx264"; "-pix_fmt"; "yuv420p";
   "-crf"; Sprintf_d (Config_Quality c); Config_OutputFile c].

Definition ComposeVideo (ag : AnimationGenerator) (w : World)
    : World * option error :=
  let args := ffmpegArgs (Config ag) in
  let w := logCall w (SysFfmpeg args) in
  match run_ffmpeg args w with
  | (fs, Some (err, output)) =>
      (mkWorld fs (syslog w) (callbacks w), Some (ErrFfmpeg err output))
  | (fs, None) => (mkWorld fs (syslog w) (callbacks w), None)
  end.

Definition Generate (sched : list Move) (ag : AnimationGenerator) (w : World)
    : World * Outcome :=
  match GenerateFrames sched ag w with
  | (w, Returned (Some err)) => (w, Returned (Some err))
  | (w, Panicked) => (w, Panicked)
  | (w, Returned None) =>
      match ComposeVideo ag w with
      | (w, Some err) => (w, Returned (Some err))
      | (w, None) =>
          if Config_CleanupTemp (Config ag) then
            let w := logCall w (SysRemoveAll (Config_TempDir (Config ag))) in
            (* a failure to remove is only printed *)
            let '(fs, _) := os_RemoveAll (Config_TempDir (Config ag)) w in
            (mkWorld fs (syslog w) (callbacks w), Returned None)
          else (w, Returned None)
      end
  end.

(* The deferred function restores TempDir on every way out, a panic
   included. *)
Definition GenerateFramesOnly (sched : list Move) (ag : AnimationGenerator)
    (outputDir : string) (w : World) : AnimationGenerator * World * Outcome :=
  let originalTempDir := Config_TempDir (Config ag) in
  let ag := setConfig ag (setTempDir (Config ag) outputDir) in
  let ag := setConfig ag (setCleanupTemp (Config ag) false) in
  let '(w, out) := GenerateFrames sched ag w in
  let ag := setConfig ag (setTempDir (Config ag) originalTempDir) in
  (ag, w, out).

End Animation.

Arguments World F : clear implicits.
Arguments OS F : clear implicits.
Arguments AnimationConfig F : clear implicits.
Arguments AnimationGenerator F : clear implicits.
Arguments FrameRenderer F : clear implicits.
Arguments Pool F : clear implicits.

(** ** Trigonometry

    math.Cos, math.Sin and math.Pi belong to Go's runtime library.  The
    functions that use them are written against this class; its exact
    instance is the cosine, the sine and pi of the real numbers. *)

Class Trig (F : Type) : Type := {
  math_Cos : F -> F;
  math_Sin : F -> F;
  math_Pi : F
}.

#[export] Instance exactTrig : Trig R := {|
  math_Cos := Rtrigo_def.cos;
  math_Sin := Rtrigo_def.sin;
  math_Pi := PI
|}.

(** ** Matrix products and the affine constructors *)

Section Matrices.
Context {F : Type} {FO : Float64 F}.
Local Open Scope go_scope.

(* m[i] *)
Definition entry (m : Matrix4 F) (i : nat) : F :=
  nth i [e0 m; e1 m; e2 m; e3 m; e4 m; e5 m; e6 m; e7 m;
         e8 m; e9 m; e10 m; e11 m; e12 m; e13 m; e14 m; e15 m] #0.

(* result[i*4+j] once the loop over k is through; result starts as the
   zero value of its type. *)
Definition cell (m other : Matrix4 F) (i j : nat) : F :=
  foldl (fun acc k => acc + entry m (i * 4 + k) * entry other (k * 4 + j))
        #0 [0; 1; 2; 3]%nat.

Definition Multiply (m other : Matrix4 F) : Matrix4 F :=
  mkMatrix4
    (cell m other 0 0) (cell m other 0 1) (cell m other 0 2) (cell m other 0 3)
    (cell m other 1 0) (cell m other 1 1) (cell m other 1 2) (cell m other 1 3)
    (cell m other 2 0) (cell m other 2 1) (cell m other 2 2) (cell m other 2 3)
    (cell m other 3 0) (cell m other 3 1) (cell m other 3 2) (cell m other 3 3).

Definition Translation (x y z : F) : Matrix4 F :=
  mkMatrix4 #1 #0 #0 x
            #0 #1 #0 y
            #0 #0 #1 z
            #0 #0 #0 #1.

(* func Scale(x, y, z float64) Matrix4; the name Scale is taken by the
   method of Vector3. *)
Definition ScaleMatrix (x y z : F) : Matrix4 F :=
  mkMatrix4 x #0 #0 #0
            #0 y #0 #0
            #0 #0 z #0
            #0 #0 #0 #1.

Context {FT : Trig F}.

Definition RotationX (angle : F) : Matrix4 F :=
  let c := math_Cos angle in
  let s := math_Sin angle in
  mkMatrix4 #1 #0 #0 #0
            #0 c (- s) #0
            #0 s c #0
            #0 #0 #0 #1.

Definition RotationY (angle : F) : Matrix4 F :=
  let c := math_Cos angle in
  let s := math_Sin angle in
  mkMatrix4 c #0 s #0
            #0 #1 #0 #0
            (- s) #0 c #0
            #0 #0 #0 #1.

Definition RotationZ (angle : F) : Matrix4 F :=
  let c := math_Cos angle in
  let s := math_Sin angle in
  mkMatrix4 c (- s) #0 #0
            s c #0 #0
            #0 #0 #1 #0
            #0 #0 #0 #1.

Definition RotationFromAxisAngle (axis : Vector3 F) (angle : F) : Matrix4 F :=
  let c := math_Cos angle in
  let s := math_Sin angle in
  let t := #1 - c in
  let x := vX axis in
  let y := vY axis in
  let z := vZ axis in
  mkMatrix4 (t * x * x + c) (t * x * y - s * z) (t * x * z + s * y) #0
            (t * x * y + s * z) (t * y * y + c) (t * y * z - s * x) #0
            (t * x * z - s * y) (t * y * z + s * x) (t * z * z + c) #0
            #0 #0 #0 #1.

End Matrices.

(** ** Meshes: building, transforming, the primitive shapes *)

(* A slice indexed out of range and a remainder by zero panic: the
   functions that index or divide return [None] for a panic. *)
Definition index {A : Type} (l : list A) (i : Z) : option A :=
  if (i <? 0)%Z then None else l !! Z.to_nat i.


(* for i := lo; i < hi; i++ { body }, on the state the body updates. *)
Definition forRange {S : Type} (lo hi : Z) (body : Z -> S -> option S) (s : S)
    : option S :=
  foldl (fun acc i => acc ≫= body i) (Some s) (seqZ lo (hi - lo)).

Section Meshes.
Context {F : Type} {FO : Float64 F}.
Local Open Scope go_scope.

Definition NewMesh : Mesh F := mkMesh [] [].

Definition AddVertex (m : Mesh F) (v : Vector3 F) : Mesh F :=
  mkMesh (Vertices m ++ [v]) (Triangles m).

Definition AddTriangle (m : Mesh F) (t : Triangle F) : Mesh F :=
  mkMesh (Vertices m) (Triangles m ++ [t]).

Definition Transform (m : Mesh F) (matrix : Matrix4 F) : Mesh F :=
  let transformed := NewMesh in
  let transformed :=
    foldl (fun transformed v => AddVertex transformed (TransformVector matrix v))
          transformed (Vertices m) in
  foldl (fun transformed t =>
           AddTriangle transformed
             (mkTriangle (TransformVector matrix (V0 t))
                         (TransformVector matrix (V1 t))
                         (TransformVector matrix (V2 t))))
        transformed (Triangles m).

Definition Merge (m other : Mesh F) : Mesh F :=
  mkMesh (Vertices m ++ Vertices other) (Triangles m ++ Triangles other).

(* The eight corners are a local slice and the index table holds
   constants below 8, so no access is out of range. *)
Definition cubeIndices : list (nat * nat * nat) :=
  [(0, 1, 2); (0, 2, 3);
   (5, 4, 7); (5, 7, 6);
   (4, 0, 3); (4, 3, 7);
   (1, 5, 6); (1, 6, 2);
   (3, 2, 6); (3, 6, 7);
   (4, 5, 1); (4, 1, 0)]%nat.

Definition CreateCube (size : F) : Mesh F :=
  let mesh := NewMesh in
  let s := size / #2 in
  let vertices :=
    [NewVector3 (- s) (- s) (- s); NewVector3 s (- s) (- s);
     NewVector3 s s (- s); NewVector3 (- s) s (- s);
     NewVector3 (- s) (- s) s; NewVector3 s (- s) s;
     NewVector3 s s s; NewVector3 (- s) s s] in
  let corner i := nth i vertices (NewVector3 #0 #0 #0) in
  foldl (fun mesh '(i0, i1, i2) =>
           AddTriangle mesh (mkTriangle (corner i0) (corner i1) (corner i2)))
        mesh cubeIndices.

(* mesh.AddTriangle(Triangle{V0: mesh.Vertices[i0], V1: mesh.Vertices[i1],
   V2: mesh.Vertices[i2]}) *)
Definition addIndexed (mesh : Mesh F) (i0 i1 i2 : Z) : option (Mesh F) :=
  v0 ← index (Vertices mesh) i0;
  v1 ← index (Vertices mesh) i1;
  v2 ← index (Vertices mesh) i2;
  Some (AddTriangle mesh (mkTriangle v0 v1 v2)).

(* The second loop nest of CreateSphere, which CreateTorus repeats with
   its own names: two triangles per cell of a grid of vertices laid out
   row after row, [inner + 1] to the row. *)
Definition stitchRows (outer inner : Z) (mesh : Mesh F) : option (Mesh F) :=
  forRange 0 outer (fun ring mesh =>
    forRange 0 inner (fun seg mesh =>
      let first := (ring * (inner + 1) + seg)%Z in
      let second := (first + inner + 1)%Z in
      mesh ← addIndexed mesh first second (first + 1)%Z;
      addIndexed mesh second (second + 1)%Z (first + 1)%Z) mesh) mesh.

Definition CreatePlane (width height : F) (subdivisions : Z) : option (Mesh F) :=
  let mesh := NewMesh in
  let w := width / #2 in
  let h := height / #2 in
  let step := #1 / #subdivisions in
  mesh ← forRange 0 (subdivisions + 1) (fun i mesh =>
    forRange 0 (subdivisions + 1) (fun j mesh =>
      let x := - w + #j * width * step in
      let z := - h + #i * height * step in
      Some (AddVertex mesh (NewVector3 x #0 z))) mesh) mesh;
  forRange 0 subdivisions (fun i mesh =>
    forRange 0 subdivisions (fun j mesh =>
      let idx := (i * (subdivisions + 1) + j)%Z in
      mesh ← addIndexed mesh idx (idx + subdivisions + 1)%Z (idx + 1)%Z;
      addIndexed mesh (idx + 1)%Z (idx + subdivisions + 1)%Z
                 (idx + subdivisions + 2)%Z) mesh) mesh.

Context {FT : Trig F}.

Definition CreateSphere (radius : F) (segments rings : Z) : option (Mesh F) :=
  let mesh := NewMesh in
  mesh ← forRange 0 (rings + 1) (fun ring mesh =>
    let theta := #ring * math_Pi / #rings in
    let sinTheta := math_Sin theta in
    let cosTheta := math_Cos theta in
    forRange 0 (segments + 1) (fun seg mesh =>
      let phi := #seg * #2 * math_Pi / #segments in
      let sinPhi := math_Sin phi in
      let cosPhi := math_Cos phi in
      let x := cosPhi * sinTheta in
      let y := cosTheta in
      let z := sinPhi * sinTheta in
      Some (AddVertex mesh (NewVector3 (x * radius) (y * radius) (z * radius))))
      mesh) mesh;
  stitchRows rings segments mesh.




End Meshes.

(** ** Orbits *)

Section Orbits.
Context {F : Type} {FO : Float64 F} {FT : Trig F}.
Local Open Scope go_scope.

(* HeightOffset and RadiusOffset may be nil. *)
Record OrbitCameraPath : Type := mkOrbitCameraPath {
  Orbit_Center : Vector3 F;
  Orbit_Radius : F;
  Orbit_Height : F;
  Orbit_Speed : F;
  Orbit_FOV : F;
  HeightOffset : option (F -> F);
  RadiusOffset : option (F -> F)
}.

Definition NewOrbitCameraPath (center : Vector3 F) (radius height speed fov : F)
    : OrbitCameraPath :=
  mkOrbitCameraPath center radius height speed fov None None.

(* OrbitCameraPath.GetPosition *)
Definition Orbit_GetPosition (ocp : OrbitCameraPath) (t : F) : Vector3 F :=
  let angle := t * Orbit_Speed ocp * #2 * math_Pi in
  let radius := Orbit_Radius ocp in
  let radius :=
    match RadiusOffset ocp with
    | Some offset => radius + offset t
    | None => radius
    end in
  let height := Orbit_Height ocp in
  let height :=
    match HeightOffset ocp with
    | Some offset => height + offset t
    | None => height
    end in
  NewVector3 (vX (Orbit_Center ocp) + radius * math_Cos angle)
             (vY (Orbit_Center ocp) + height)
             (vZ (Orbit_Center ocp) + radius * math_Sin angle).

(* OrbitCameraPath.GetTarget, OrbitCameraPath.GetFOV *)
Definition Orbit_GetTarget (ocp : OrbitCameraPath) (t : F) : Vector3 F :=
  Orbit_Center ocp.

Definition Orbit_GetFOV (ocp : OrbitCameraPath) (t : F) : F := Orbit_FOV ocp.

(* type CameraPath interface { GetPosition; GetTarget; GetFOV } *)
Record CameraPath : Type := mkCameraPath {
  path_GetPosition : F -> Vector3 F;
  path_GetTarget : F -> Vector3 F;
  path_GetFOV : F -> F
}.

Definition orbitPath (ocp : OrbitCameraPath) : CameraPath :=
  mkCameraPath (Orbit_GetPosition ocp) (Orbit_GetTarget ocp) (Orbit_GetFOV ocp).

Definition setCamera (r : Renderer F) (cam : Camera F) : Renderer F :=
  mkRenderer (Context_log r) (Renderer_Width r) (Renderer_Height r) cam
             (Renderer_Lights r) (Renderer_Mode r) (Renderer_Antialias r).

Definition ApplyCameraPath (renderer : Renderer F) (path : CameraPath) (t : F)
    : Renderer F :=
  let cam := Renderer_Camera renderer in
  setCamera renderer
    (mkCamera (path_GetPosition path t) (path_GetTarget path t) (Camera_Up cam)
              (path_GetFOV path t) (Camera_Near cam) (Camera_Far cam)).

End Orbits.

Arguments OrbitCameraPath F : clear implicits.
Arguments CameraPath F : clear implicits.

(** ** Scenes *)

Section Scenes.
Context {F : Type} {FO : Float64 F}.

(* type SceneObject interface { Render(renderer *Renderer, t float64) },
   and the same for BackgroundRenderer: an object is what its Render
   method does to the renderer. *)
Definition SceneObject : Type := Renderer F -> F -> Renderer F.

(* Background may be nil. *)
Record Scene : Type := mkScene {
  Scene_Objects : list SceneObject;
  Scene_Lights : list (Light F);
  Scene_Background : option SceneObject
}.

Definition NewScene : Scene := mkScene [] [] None.

Definition AddObject (s : Scene) (obj : SceneObject) : Scene :=
  mkScene (Scene_Objects s ++ [obj]) (Scene_Lights s) (Scene_Background s).

Definition Scene_AddLight (s : Scene) (light : Light F) : Scene :=
  mkScene (Scene_Objects s) (Scene_Lights s ++ [light]) (Scene_Background s).

Definition SetBackground (s : Scene) (bg : SceneObject) : Scene :=
  mkScene (Scene_Objects s) (Scene_Lights s) (Some bg).

Definition setLights (r : Renderer F) (lights : list (Light F)) : Renderer F :=
  mkRenderer (Context_log r) (Renderer_Width r) (Renderer_Height r)
             (Renderer_Camera r) lights (Renderer_Mode r) (Renderer_Antialias r).

Definition Scene_Render (s : Scene) (renderer : Renderer F) (t : F) : Renderer F :=
  let renderer := setLights renderer (Scene_Lights s) in
  let renderer :=
    match Scene_Background s with
    | Some bg => bg renderer t
    | None => renderer
    end in
  foldl (fun renderer obj => obj renderer t) renderer (Scene_Objects s).

End Scenes.

Arguments Scene F : clear implicits.
Arguments SceneObject F : clear implicits.

(** ** The contract of sort.Slice

    sort.Slice is not part of the package.  Its documentation promises a
    sorted permutation when the comparison is a strict weak order
    (irreflexive, transitive, with a transitive incomparability); nothing
    but a permutation otherwise. *)

Section SortContract.
Context {A : Type}.
Variable less : A -> A -> bool.

Definition irreflexiveb (l : list A) : bool :=
  forallb (fun x => negb (less x x)) l.

Definition transitiveb (l : list A) : bool :=
  forallb (fun x => forallb (fun y => forallb (fun z =>
    implb (less x y && less y z) (less x z)
    && implb (negb (less x y) && negb (less y z)) (negb (less x z))) l) l) l.

Definition strict_weak_on (l : list A) : Prop :=
  irreflexiveb l && transitiveb l = true.

(* No element is placed after one it must precede. *)
Definition no_inversion (l : list A) : Prop :=
  forall (i j : nat) (x y : A),
    l !! i = Some x -> l !! j = Some y -> (i < j)%nat -> less y x = false.

(* The same, one pair at a time: y need not come before x. *)
Definition precedes (x y : A) : Prop := less y x = false.

(* An insertion sort, to have one sort that honours the contract. *)
Fixpoint insert_sorted (x : A) (l : list A) : list A :=
  match l with
  | [] => [x]
  | y :: l' => if less x y then x :: y :: l' else y :: insert_sorted x l'
  end.

Definition insertion_sort (l : list A) : list A := foldr insert_sorted [] l.

End SortContract.

Definition sort_Slice_contract
    (sort : forall A : Type, (A -> A -> bool) -> list A -> list A) : Prop :=
  forall (A : Type) (less : A -> A -> bool) (l : list A),
    Permutation (sort A less l) l
    /\ (strict_weak_on less l -> no_inversion less (sort A less l)).

(** ** Well-formed keyframe paths

    The path constructor takes any slice of keyframes and any smoothing
    function.  The evaluation is written for keyframes listed by strictly
    increasing time and for a smoothing function that keeps both ends of
    [0,1] in place, as Smoothstep and Smootherstep do. *)

Section PathSpec.
Context {F : Type} {FO : Float64 F}.
Local Open Scope go_scope.

Definition increasing_times (kfs : list (CameraKeyframe F)) : Prop :=
  forall (i j : nat) (a b : CameraKeyframe F),
    kfs !! i = Some a -> kfs !! j = Some b -> (i < j)%nat ->
    (Keyframe_Time a <? Keyframe_Time b) = true.

Definition fixes_ends (smooth : option (F -> F)) : Prop :=
  match smooth with
  | Some f => f #0 = #0 /\ f #1 = #1
  | None => True
  end.

End PathSpec.

(** ** Frames and their files *)

(* The number a zero-padded decimal stands for. *)
Definition decimal_value (s : string) : option N :=
  N.of_uint <$> NilEmpty.uint_of_string s.

Section FrameSpec.
Context {F : Type} {FO : Float64 F} {os : OS F}.

(* What the file of frame [frame] holds in a run of [totalFrames] frames:
   the surface the callback leaves when handed a fresh renderer, the frame
   index and the frame's time. *)
Definition frameFile (ag : AnimationGenerator F) (totalFrames frame : Z)
    : FileData F :=
  let t := frameTime totalFrames frame in
  let renderer := NewRenderer (Config_Width (Config ag)) (Config_Height (Config ag)) in
  let renderer := Generator_Renderer ag renderer frame t in
  PNG (Renderer_Width renderer) (Renderer_Height renderer) (Context_log renderer).

(* The frames of a list rendered one after the other. *)
Definition writeFrames (ag : AnimationGenerator F) (totalFrames : Z)
    (frames : list Z) (w : World F) : World F :=
  foldl (fun w frame => (renderFrame ag totalFrames frame w).1) w frames.

(* filepath.Join gives different frame names different paths. *)
Definition Join_separates_frames : Prop :=
  forall (dir : string) (i j : Z),
    filepath_Join dir (frameName i) = filepath_Join dir (frameName j) ->
    frameName i = frameName j.

(* The frames some worker has received and not yet rendered. *)
Definition held (pc : WorkerPC) : list Z :=
  match pc with
  | Holding frame => [frame]
  | _ => []
  end.

Definition holding (pcs : list WorkerPC) : list Z := flat_map held pcs.

(* What every state of the pool satisfies, in a run of [totalFrames]
   frames on [workers] workers started in the world [w0]: the frames
   rendered so far, those held by a worker, those queued and those not yet
   dispatched make up 1..totalFrames; no error was reported; the channel is
   closed only after the last frame was queued; a worker returns only when
   the closed channel is empty. *)
Record poolInv (ag : AnimationGenerator F) (totalFrames : Z) (workers : nat)
    (w0 : World F) (s : Pool F) : Prop := mkPoolInv {
  inv_world :
    exists done : list Z,
      pool_world s = writeFrames ag totalFrames done w0
      /\ done ++ holding (workersPC s) ++ jobs s
           ++ seqZ (nextFrame s) (totalFrames + 1 - nextFrame s)
         ≡ₚ seqZ 1 totalFrames;
  inv_next : (1 <= nextFrame s <= totalFrames + 1)%Z;
  inv_errors : errorsChan s = [];
  inv_closed : jobsClosed s = true -> nextFrame s = (totalFrames + 1)%Z;
  inv_exited : Exited ∈ workersPC s -> jobs s = [] /\ jobsClosed s = true;
  inv_workers : length (workersPC s) = workers
}.


(* x lies within one half of the integer n: n is x rounded, whatever the
   rule for ties. *)
Definition rounds_to (x : F) (n : Z) : bool :=
  (math_Abs (x - #n) <=? #1 / #2)%go.

End FrameSpec.

(** ** Vocabulary of the further properties *)

Section MatrixSpec.
Context {F : Type} {FO : Float64 F}.
Local Open Scope go_scope.

(* The last row is 0 0 0 1: the matrix maps w = 1 to w = 1. *)
Definition affine (m : Matrix4 F) : Prop :=
  e12 m = #0 /\ e13 m = #0 /\ e14 m = #0 /\ e15 m = #1.

(* The triangle Transform builds from t. *)
Definition transformTriangle (matrix : Matrix4 F) (t : Triangle F) : Triangle F :=
  mkTriangle (TransformVector matrix (V0 t)) (TransformVector matrix (V1 t))
             (TransformVector matrix (V2 t)).

End MatrixSpec.

Section ConstructorSpec.
Context {F : Type}.

(* Every corner of the triangle is one of the listed points. *)
Definition corners_in (points : list (Vector3 F)) (t : Triangle F) : Prop :=
  V0 t ∈ points /\ V1 t ∈ points /\ V2 t ∈ points.


(* What the triangle loops of the constructors keep: the vertices stay as
   they are, [n] triangles were added so far, all on listed points. *)
Definition stitched (vs centers : list (Vector3 F)) (n : nat) (mesh : Mesh F) : Prop :=
  Vertices mesh = vs /\ length (Triangles mesh) = n
  /\ Forall (corners_in (vs ++ centers)) (Triangles mesh).

(* A call that leaves cairo's stack of saved states alone. *)
Definition plain (cmd : DrawCmd F) : Prop :=
  match cmd with
  | Save | Restore => False
  | _ => True
  end.

(* Nothing at all, or one Save, calls that leave the stack alone, and one
   Restore. *)
Definition bracketed (cmds : list (DrawCmd F)) : Prop :=
  cmds = [] \/ exists body, cmds = Save :: body ++ [Restore] /\ Forall plain body.

End ConstructorSpec.

Section MotionSpec.
Context {F : Type} {FO : Float64 F}.
Local Open Scope go_scope.

(* The smoothing function, if any, keeps [0,1] within [0,1]. *)
Definition keeps_unit_interval (smooth : option (F -> F)) : Prop :=
  match smooth with
  | Some f => forall x, (#0 <=? x) = true -> (x <=? #1) = true ->
                        (#0 <=? f x) = true /\ (f x <=? #1) = true
  | None => True
  end.

(* Radius and height of the orbit at time t, offsets included. *)
Definition orbitRadius (ocp : OrbitCameraPath F) (t : F) : F :=
  match RadiusOffset ocp with
  | Some offset => Orbit_Radius ocp + offset t
  | None => Orbit_Radius ocp
  end.

Definition orbitHeight (ocp : OrbitCameraPath F) (t : F) : F :=
  match HeightOffset ocp with
  | Some offset => Orbit_Height ocp + offset t
  | None => Orbit_Height ocp
  end.

End MotionSpec.

Module ExactSpec.
Local Open Scope R_scope.

(* x lies between a and b, whichever is larger. *)
Definition between (x a b : R) : Prop := Rmin a b <= x <= Rmax a b.

Definition between_vec (v a b : Vector3 R) : Prop :=
  between (vX v) (vX a) (vX b) /\ between (vY v) (vY a) (vY b)
  /\ between (vZ v) (vZ a) (vZ b).

(* A point at distance d in front of the camera, d clear of the two values
   around which TransformVector leaves the division out. *)
Definition regular_depth (d : R) : Prop :=
  epsilon < d /\ epsilon < Rabs (d - 1).

(* A light that adds, never removes, brightness. *)
Definition nonnegative_light (l : Light R) : Prop :=
  0 <= Light_Intensity l /\ 0 <= c0 (Light_Color l)
  /\ 0 <= c1 (Light_Color l) /\ 0 <= c2 (Light_Color l).

End ExactSpec.

(** ** Example data

    Concrete inputs in binary64, on which the code is evaluated. *)

Module Examples.
Local Open Scope go_scope.

Definition vec (x y z : Z) : Vector3 float := NewVector3 #x #y #z.

(* Three points on one line, and a proper triangle. *)
Definition flatTriangle : Triangle float :=
  mkTriangle (vec 0 0 0) (vec 1 1 1) (vec 2 2 2).
Definition properTriangle : Triangle float :=
  mkTriangle (vec 0 0 0) (vec 1 0 0) (vec 0 1 0).

(* A projective matrix: its last row makes w = -z. *)
Definition projective : Matrix4 float :=
  mkMatrix4 #1 #0 #0 #0  #0 #1 #0 #0  #0 #0 #1 #0  #0 #0 #(-1) #0.

(* The renderer as NewRenderer leaves it: camera at (0,0,-5) looking down
   the z axis, near plane 0.1, far plane 100. *)
Definition renderer : Renderer float := NewRenderer 800 600.

Definition white : Color float := (#1, #1, #1).

(* A triangle in the plane z = d, facing the camera. *)
Definition facing (d : Z) : Triangle float :=
  mkTriangle (vec 0 0 d) (vec 0 1 d) (vec 1 0 d).

Definition twoLayers : Mesh float := mkMesh [] [facing 0; facing 10].

(* Keyframes listed out of time order: times 0, 1, 1/2. *)
Definition keyframe (t : float) (x fov : Z) : CameraKeyframe float :=
  mkCameraKeyframe t (vec x 0 0) (vec 0 x 0) #fov.


(* The same keyframes in time order: times 0, 1/2, 1. *)
Definition sortedPath64 : InterpolatedCameraPath float :=
  NewInterpolatedCameraPath
    [keyframe #0 0 1; keyframe (#1 / #2) 5 9; keyframe #1 2 3].

(* In exact arithmetic, times 0, 1/2, 1. *)
Definition keyframeR (t : R) (x fov : Z) : CameraKeyframe R :=
  mkCameraKeyframe t (NewVector3 (IZR x) 0%R 0%R) (NewVector3 0%R (IZR x) 0%R) (IZR fov).

Definition sortedPath : InterpolatedCameraPath R :=
  NewInterpolatedCameraPath
    [keyframeR 0 0 1; keyframeR (1 / 2) 5 9; keyframeR 1 2 3].

(* A system on which every call succeeds, with "/" as path separator. *)
Definition plainOS : OS float := {|
  filepath_Join dir name := dir +:+ "/" +:+ name;
  os_MkdirAll _ _ := None;
  os_RemoveAll dir w :=
    (filter (fun kv => String.prefix (dir +:+ "/") kv.1 = false) (files w), None);
  run_ffmpeg args w := (<["animation.mp4" := Video args]> (files w), None)
|}.

Definition emptyWorld : World float := mkWorld ∅ [] [].

(* A callback that draws nothing. *)
Definition blank : FrameRenderer float := fun r _ _ => r.

(* One second at ten frames per second. *)
Definition tenFrames : AnimationGenerator float :=
  NewAnimationGenerator
    (mkAnimationConfig 8 6 10 #1 "animation.mp4" "temp_frames" 23 true 1) blank.

(* 1.75 seconds at one frame per second. *)
Definition sevenQuarters : AnimationConfig float :=
  mkAnimationConfig 8 6 1 (#7 / #4) "animation.mp4" "temp_frames" 23 true 1.

Definition someSchedule : list Move :=
  [RunWorker 1; RunMain; RunMain; RunWorker 0; RunWorker 2; RunMain;
   RunWorker 1; RunWorker 1; RunWorker 2; RunMain].

End Examples.

(** ** Example data in exact arithmetic *)

Module MoreExamples.
Local Open Scope R_scope.

Definition vecR (x y z : R) : Vector3 R := NewVector3 x y z.

Definition properTriangleR : Triangle R :=
  mkTriangle (vecR 0 0 0) (vecR 1 0 0) (vecR 0 1 0).

(* The renderer as NewRenderer leaves it. *)
Definition rendererR : Renderer R := NewRenderer 800 600.

Definition whiteR : Color R := (1, 1, 1).

(* The first triangle of the cube of size 2, on its face z = -1. *)
Definition cubeFront : Triangle R :=
  mkTriangle (vecR (-1) (-1) (-1)) (vecR 1 (-1) (-1)) (vecR 1 1 (-1)).

(* The renderer with one white light above the camera. *)
Definition litRenderer : Renderer R :=
  AddLight rendererR (NewLight (vecR 0 5 (-5)) whiteR 1).

(* An orbit of radius 3 at height 4 around the origin, one turn per unit
   of time. *)
Definition orbit : OrbitCameraPath R := NewOrbitCameraPath (vecR 0 0 0) 3 4 1 1.

End MoreExamples.

(** ** Properties of the linear algebra *)

Section LinearAlgebraFacts.
Context {F : Type} {FO : Float64 F}.
Local Open Scope go_scope.

Lemma Normalize_short (v : Vector3 F) :
  (Length v <? epsilon) = true -> Normalize v = NewVector3 #0 #0 #0.
Proof. intros H. unfold Normalize. now rewrite H. Qed.

Lemma Normalize_long (v : Vector3 F) :
  (Length v <? epsilon) = false -> Normalize v = Scale v (#1 / Length v).
Proof. intros H. unfold Normalize. now rewrite H. Qed.

(** C7. A triangle whose edge cross product is shorter than epsilon has
    the normal {0,1,0}; any other triangle has the cross product
    normalized, that is scaled by the inverse of its length (the zero
    fallback of Normalize cannot be taken there).  Normal is a total
    function: there is no input on which it fails. *)
Theorem Normal_default_or_normalized (t : Triangle F) :
  let n := Cross (Sub (V1 t) (V0 t)) (Sub (V2 t) (V0 t)) in
  ((Length n <? epsilon) = true -> Normal t = NewVector3 #0 #1 #0)
  /\ ((Length n <? epsilon) = false ->
      Normal t = Normalize n /\ Normal t = Scale n (#1 / Length n)).
Proof.
  intros n. unfold Normal. fold n. split; intros H; rewrite H.
  - reflexivity.
  - split; [reflexivity | now apply Normalize_long].
Qed.

(** C8. Perspective returns the identity matrix as soon as one of |fov|,
    |aspect|, |far - near| is below epsilon, and the standard perspective
    matrix built on f = 1 / tan(fov / 2) otherwise; being a total
    function it reports no error on any input. *)
Theorem Perspective_identity_or_standard (fov aspect near far : F) :
  ((math_Abs fov <? epsilon) = true \/ (math_Abs aspect <? epsilon) = true
   \/ (math_Abs (far - near) <? epsilon) = true ->
   Perspective fov aspect near far = Identity)
  /\ ((math_Abs fov <? epsilon) = false -> (math_Abs aspect <? epsilon) = false ->
      (math_Abs (far - near) <? epsilon) = false ->
      Perspective fov aspect near far =
      let f := #1 / math_Tan (fov / #2) in
      mkMatrix4 (f / aspect) #0 #0 #0
                #0 f #0 #0
                #0 #0 ((far + near) / (near - far)) ((#2 * far * near) / (near - far))
                #0 #0 #(-1) #0).
Proof.
  unfold Perspective. split.
  - intros [H | [H | H]]; rewrite H; rewrite ?orb_true_r; reflexivity.
  - intros -> -> ->. reflexivity.
Qed.

(** C9. TransformVector computes the homogeneous coordinates x, y, z, w
    of every input and divides x, y, z by w exactly when both tests
    |w| > epsilon and |w - 1| > epsilon pass; when either fails (w within
    epsilon of 0 or of 1) it returns x, y, z undivided.  Hence every
    division it performs has a divisor of magnitude above epsilon. *)
Theorem TransformVector_divides_unless_w_near_0_or_1 (m : Matrix4 F) (v : Vector3 F) :
  let x := hom_x m v in
  let y := hom_y m v in
  let z := hom_z m v in
  let w := hom_w m v in
  ((math_Abs w >? epsilon) = true -> (math_Abs (w - #1) >? epsilon) = true ->
   TransformVector m v = NewVector3 (x / w) (y / w) (z / w))
  /\ ((math_Abs w >? epsilon) = false \/ (math_Abs (w - #1) >? epsilon) = false ->
      TransformVector m v = NewVector3 x y z)
  /\ (TransformVector m v <> NewVector3 x y z -> (math_Abs w >? epsilon) = true).
Proof.
  intros x y z w. unfold TransformVector. fold x y z w.
  repeat split.
  - intros -> ->. reflexivity.
  - intros [-> | ->]; rewrite ?andb_false_r; reflexivity.
  - destruct (math_Abs w >? epsilon); [reflexivity | ]. simpl. congruence.
Qed.

End LinearAlgebraFacts.

(** Runs of the three theorems in binary64. *)

Lemma Normal_default_or_normalized_run :
  Normal Examples.flatTriangle = Examples.vec 0 1 0
  /\ Normal Examples.properTriangle = Examples.vec 0 0 1.
Proof.
  split.
  - apply (proj1 (Normal_default_or_normalized (FO := binary64) Examples.flatTriangle)).
    vm_compute. reflexivity.
  - destruct (proj2 (Normal_default_or_normalized (FO := binary64) Examples.properTriangle))
      as [_ ->]; vm_compute; reflexivity.
Defined.

Lemma Perspective_identity_or_standard_run :
  Perspective (FO := binary64) 0%float 1%float 1%float 100%float = Identity
  /\ e14 (Perspective (FO := binary64) 1%float 1%float 1%float 100%float) = (-1)%float.
Proof.
  split.
  - apply (proj1 (Perspective_identity_or_standard (FO := binary64) _ _ _ _)).
    left. vm_compute. reflexivity.
  - rewrite (proj2 (Perspective_identity_or_standard (FO := binary64) _ _ _ _));
      vm_compute; reflexivity.
Defined.

Lemma TransformVector_divides_unless_w_near_0_or_1_run :
  TransformVector Examples.projective (Examples.vec 2 4 (-2)) = Examples.vec 1 2 (-1)
  /\ TransformVector Examples.projective (Examples.vec 2 4 (-1)) = Examples.vec 2 4 (-1)
  /\ TransformVector Examples.projective (Examples.vec 2 4 0) = Examples.vec 2 4 0.
Proof.
  pose proof (TransformVector_divides_unless_w_near_0_or_1 (FO := binary64)
                Examples.projective) as T.
  split; [ | split ].
  - rewrite (proj1 (T (Examples.vec 2 4 (-2)))); vm_compute; reflexivity.
  - rewrite (proj1 (proj2 (T (Examples.vec 2 4 (-1)))));
      [ | right ]; vm_compute; reflexivity.
  - rewrite (proj1 (proj2 (T (Examples.vec 2 4 0))));
      [ | left ]; vm_compute; reflexivity.
Defined.

(** ** Properties in exact arithmetic *)

Module ExactFacts.
Import Exact.
Local Open Scope R_scope.

Lemma Rltb_true x y : Rltb x y = true <-> x < y.
Proof. unfold Rltb. destruct (Rlt_dec x y); split; intros; try easy. Qed.

Lemma Rltb_false x y : Rltb x y = false <-> y <= x.
Proof.
  unfold Rltb. destruct (Rlt_dec x y); split; intros; try easy; lra.
Qed.

Lemma Rleb_true x y : Rleb x y = true <-> x <= y.
Proof. unfold Rleb. destruct (Rle_dec x y); split; intros; try easy. Qed.

Lemma Rleb_false x y : Rleb x y = false <-> y < x.
Proof.
  unfold Rleb. destruct (Rle_dec x y); split; intros; try easy; lra.
Qed.

Lemma epsilon_pos : 0 < epsilon (F := R).
Proof. unfold epsilon. simpl. lra. Qed.

Lemma Length_Scale (v : Vector3 R) (s : R) :
  0 <= s -> Length (Scale v s) = s * Length v.
Proof.
  intros Hs. unfold Length, Scale. simpl.
  replace (vX v * s * (vX v * s) + vY v * s * (vY v * s) + vZ v * s * (vZ v * s))
    with ((s * s) * (vX v * vX v + vY v * vY v + vZ v * vZ v)) by ring.
  rewrite sqrt_mult_alt by nra.
  now rewrite sqrt_square.
Qed.

Lemma Length_Normalize (v : Vector3 R) :
  epsilon <= Length v -> Length (Normalize v) = 1.
Proof.
  intros H. pose proof epsilon_pos as He.
  rewrite Normalize_long by (simpl; apply Rltb_false, H).
  rewrite Length_Scale.
  - change (1 / Length v * Length v = 1). field. lra.
  - change (0 <= 1 / Length v). apply Rlt_le, Rdiv_lt_0_compat; lra.
Qed.

(* Whenever TransformVector divides, the divisor is not zero. *)
Lemma TransformVector_divisor_nonzero (m : Matrix4 R) (v : Vector3 R) :
  TransformVector m v <> NewVector3 (hom_x m v) (hom_y m v) (hom_z m v) ->
  epsilon < Rabs (hom_w m v) /\ hom_w m v <> 0.
Proof.
  unfold TransformVector. pose proof epsilon_pos as He.
  set (w := hom_w m v).
  destruct (math_Abs w >? epsilon)%go eqn:E; cbn [andb]; [ | congruence].
  intros _. apply Rltb_true in E. split; [exact E | ].
  intros H0. rewrite H0 in E. cbn [math_Abs exact] in E. rewrite Rabs_R0 in E. lra.
Qed.

End ExactFacts.


Example Normalize_3_0_4_binary64 :
  Normalize (Examples.vec 3 0 4)
  = NewVector3 (PrimFloat.mul 3 (PrimFloat.div 1 5)) 0%float
               (PrimFloat.mul 4 (PrimFloat.div 1 5))
  /\ Length (Normalize (Examples.vec 3 0 4)) = 1%float.
Proof. split; vm_compute; reflexivity. Qed.


(** ** Properties of the renderer *)

Section SortFacts.
Context {A : Type} (less : A -> A -> bool).

Lemma strict_weak_irreflexive (l : list A) (x : A) :
  strict_weak_on less l -> x ∈ l -> less x x = false.
Proof.
  unfold strict_weak_on, irreflexiveb. intros H Hx.
  apply andb_true_iff in H as [H _].
  rewrite forallb_forall in H. apply list_elem_of_In in Hx.
  specialize (H x Hx). now destruct (less x x).
Qed.

Lemma strict_weak_transitive (l : list A) (x y z : A) :
  strict_weak_on less l -> x ∈ l -> y ∈ l -> z ∈ l ->
  less x y = true -> less y z = true -> less x z = true.
Proof.
  unfold strict_weak_on, transitiveb. intros H Hx Hy Hz Hxy Hyz.
  apply andb_true_iff in H as [_ H].
  rewrite forallb_forall in H. apply list_elem_of_In in Hx, Hy, Hz.
  specialize (H x Hx). rewrite forallb_forall in H.
  specialize (H y Hy). rewrite forallb_forall in H.
  specialize (H z Hz). rewrite Hxy, Hyz in H. simpl in H.
  now destruct (less x z).
Qed.

Lemma strict_weak_asymmetric (l : list A) (x y : A) :
  strict_weak_on less l -> x ∈ l -> y ∈ l ->
  less x y = true -> less y x = false.
Proof.
  intros H Hx Hy Hxy. destruct (less y x) eqn:Hyx; [ | reflexivity ].
  rewrite <- (strict_weak_irreflexive l x H Hx).
  symmetry. now apply (strict_weak_transitive l x y x).
Qed.

Lemma insert_sorted_perm (x : A) (l : list A) :
  Permutation (insert_sorted less x l) (x :: l).
Proof.
  induction l as [ | y l IH]; simpl; [reflexivity | ].
  destruct (less x y); [reflexivity | ].
  rewrite IH. apply perm_swap.
Qed.

Lemma insertion_sort_perm (l : list A) : Permutation (insertion_sort less l) l.
Proof.
  induction l as [ | x l IH]; simpl; [reflexivity | ].
  rewrite insert_sorted_perm. now constructor.
Qed.

Lemma StronglySorted_no_inversion (l : list A) :
  StronglySorted (precedes less) l -> no_inversion less l.
Proof.
  induction 1 as [ | x l Hs IH Hall]; intros i j a b Hi Hj Hij.
  - now rewrite lookup_nil in Hi.
  - destruct j as [ | j]; [lia | ]. simpl in Hj.
    destruct i as [ | i]; simpl in Hi.
    + injection Hi as <-. rewrite Forall_forall in Hall.
      apply Hall. eapply list_elem_of_lookup_2, Hj.
    + apply (IH i j); auto. lia.
Qed.

Lemma insert_sorted_sorted (l0 : list A) (x : A) (l : list A) :
  strict_weak_on less l0 -> x ∈ l0 -> (forall y, y ∈ l -> y ∈ l0) ->
  StronglySorted (precedes less) l -> StronglySorted (precedes less) (insert_sorted less x l).
Proof.
  intros Hsw Hx Hl Hs. induction Hs as [ | y l Hs IH Hall]; simpl.
  - repeat constructor.
  - assert (Hy : y ∈ l0) by (apply Hl; left).
    destruct (less x y) eqn:Hxy.
    + constructor; [now constructor | ].
      constructor.
      * now apply (strict_weak_asymmetric l0).
      * rewrite Forall_forall in Hall |- *. intros z Hz.
        unfold precedes. destruct (less z x) eqn:Hzx; [ | reflexivity ].
        assert (Hz0 : z ∈ l0) by (apply Hl; now right).
        rewrite <- (Hall z Hz). symmetry.
        now apply (strict_weak_transitive l0 z x y).
    + constructor.
      * apply IH. intros z Hz. apply Hl. now right.
      * eapply Permutation_Forall; [symmetry; apply insert_sorted_perm | ].
        constructor; assumption.
Qed.

Lemma insertion_sort_sorted (l : list A) :
  strict_weak_on less l -> StronglySorted (precedes less) (insertion_sort less l).
Proof.
  intros Hsw.
  assert (H : forall l', (forall y, y ∈ l' -> y ∈ l) ->
                         StronglySorted (precedes less) (insertion_sort less l')).
  { induction l' as [ | x l' IH]; intros Hin; simpl; [constructor | ].
    apply (insert_sorted_sorted l); auto.
    - apply Hin. left.
    - intros y Hy. apply Hin. right.
      now rewrite <- (insertion_sort_perm l').
    - apply IH. intros y Hy. apply Hin. now right. }
  apply H. auto.
Qed.

End SortFacts.

Lemma insertion_sort_contract : sort_Slice_contract (@insertion_sort).
Proof.
  intros A less l. split.
  - apply insertion_sort_perm.
  - intros H. now apply StronglySorted_no_inversion, insertion_sort_sorted.
Qed.

Section RendererFacts.
Context {F : Type} {FO : Float64 F}.
Local Open Scope go_scope.

Variable sort_Slice : forall A : Type, (A -> A -> bool) -> list A -> list A.

Lemma fillCull_true (z0 z1 z2 : F) :
  fillCull (z0, z1, z2) = true
  <-> (z0 <? #(-1)) = true \/ (z1 <? #(-1)) = true \/ (z2 <? #(-1)) = true.
Proof. unfold fillCull. rewrite !orb_true_iff. tauto. Qed.

Lemma flatEntry_None (r : Renderer F) (c : Color F) (t : Triangle F) :
  flatEntry r c t = None <-> fillCull (depths r t) = true.
Proof. unfold flatEntry. destruct (fillCull (depths r t)); split; congruence. Qed.

Lemma gradientEntry_None (r : Renderer F) (c c' : Color F) (t : Triangle F) :
  gradientEntry r c c' t = None <-> fillCull (depths r t) = true.
Proof. unfold gradientEntry. destruct (fillCull (depths r t)); split; congruence. Qed.

Lemma shadedEntry_None (r : Renderer F) (c : Color F) (t : Triangle F) :
  shadedEntry r c t = None
  <-> fillCull (depths r t) = true
      \/ (Dot (Normal t) (Normalize (Sub (Camera_Position (Renderer_Camera r))
                                         (Center t))) <? #0) = true.
Proof.
  unfold shadedEntry. destruct (fillCull (depths r t)); [tauto | ].
  match goal with |- context [if ?b then _ else _] => destruct b end;
    split; try congruence; try tauto.
  intros [H | H]; discriminate.
Qed.

(* Depths that pass the wireframe test pass the fill test. *)
Lemma wireframe_keeps_fill_keeps (z : F * F * F) :
  wireframeCull z = false -> fillCull z = false.
Proof.
  destruct z as [[z0 z1] z2]. unfold wireframeCull, fillCull.
  rewrite !orb_false_iff. tauto.
Qed.



Hypothesis sort_Slice_sorts : sort_Slice_contract sort_Slice.



End RendererFacts.




(** C1, evaluated.  Under the default camera the triangle [facing 200]
    lies beyond the far plane and [facing (-10)] behind the camera: all
    their projected depths exceed 1.  drawWireframe skips both; drawFlat,
    drawShaded and DrawMeshWithGradient keep [facing 200] and fill it, and
    drawFlat and DrawMeshWithGradient keep [facing (-10)] as well.  Their
    test looks at z < -1 only. *)
Theorem fill_modes_keep_depths_above_one (tan : float -> float) :
  let FO := Binary64.ops tan in
  let r := NewRenderer (FO := FO) 800 600 in
  let far := Examples.facing 200 in
  let behind := Examples.facing (-10) in
  let mesh := mkMesh [] [far] in
  (forall v, In v [V0 far; V1 far; V2 far; V0 behind; V1 behind; V2 behind] ->
             PrimFloat.ltb 1 (ProjectToScreen r v).2 = true)
  /\ (wireframeCull (depths r far) = true /\ wireframeCull (depths r behind) = true)
  /\ (wireframeTriangle r far = [] /\ wireframeTriangle r behind = [])
  /\ (is_Some (flatEntry r Examples.white far)
      /\ is_Some (shadedEntry r Examples.white far)
      /\ is_Some (gradientEntry r Examples.white Examples.white far)
      /\ is_Some (flatEntry r Examples.white behind)
      /\ is_Some (gradientEntry r Examples.white Examples.white behind))
  /\ (tri <$> flatQueue (@insertion_sort) r mesh Examples.white = [far]
      /\ tri <$> shadedQueue (@insertion_sort) r mesh Examples.white = [far]
      /\ tri <$> gradientQueue (@insertion_sort) r mesh Examples.white Examples.white
         = [far]).
Proof.
  intros FO r far behind mesh.
  repeat apply conj; try (vm_compute; reflexivity);
    try (vm_compute; eexists; reflexivity).
  intros v [<- | [<- | [<- | [<- | [<- | [<- | []]]]]]]; vm_compute; reflexivity.
Qed.

(** ** Properties of keyframe paths *)

Module PathFacts.
Import ExactFacts.
Local Open Scope R_scope.

Abbreviation Time := Keyframe_Time.

Lemma increasing_times_lt (kfs : list (CameraKeyframe R)) (i j : nat) a b :
  increasing_times kfs -> kfs !! i = Some a -> kfs !! j = Some b -> (i < j)%nat ->
  Time a < Time b.
Proof. intros H Hi Hj Hij. apply Rltb_true. exact (H i j a b Hi Hj Hij). Qed.

Lemma increasing_times_tail (k : CameraKeyframe R) kfs :
  increasing_times (k :: kfs) -> increasing_times kfs.
Proof. intros H i j a b Hi Hj Hij. apply (H (S i) (S j)); auto. lia. Qed.

Lemma increasing_times_head (k : CameraKeyframe R) kfs b :
  increasing_times (k :: kfs) -> b ∈ kfs -> Time k < Time b.
Proof.
  intros H Hb. apply list_elem_of_lookup in Hb as [j Hj].
  apply (increasing_times_lt (k :: kfs) 0 (S j)); auto. lia.
Qed.








Section At.
Variable cp : InterpolatedCameraPath R.
Hypothesis Hinc : increasing_times (Keyframes cp).
Hypothesis Hsmooth : fixes_ends (SmoothFunction cp).



End At.






Lemma Smootherstep_fixes_ends : fixes_ends (Some (Smootherstep (F := R))).
Proof.
  split; unfold Smootherstep; simpl; unfold Exact.Rltb;
    repeat match goal with |- context [Rlt_dec ?a ?b] => destruct (Rlt_dec a b) end;
    lra.
Qed.

End PathFacts.



(* The same in binary64 on a path in time order: the three keyframes are
   hit exactly. *)
Example keyframes_hit_binary64 :
  Forall (fun k => GetPosition Examples.sortedPath64 (Keyframe_Time k) = Keyframe_Position k
                   /\ GetTarget Examples.sortedPath64 (Keyframe_Time k) = Keyframe_Target k
                   /\ GetFOV Examples.sortedPath64 (Keyframe_Time k) = Keyframe_FOV k)
         (Keyframes Examples.sortedPath64).
Proof. repeat constructor; vm_compute; reflexivity. Qed.

Lemma sortedPath_increasing : increasing_times (Keyframes Examples.sortedPath).
Proof.
  intros i j a b Hi Hj Hij.
  destruct i as [ | [ | [ | i]]]; destruct j as [ | [ | [ | j]]];
    try lia; try discriminate;
    injection Hi as <-; injection Hj as <-;
    apply ExactFacts.Rltb_true; simpl; lra.
Qed.


(** ** Properties of the frame names *)

Lemma decimal_value_decimal (n : N) : decimal_value (decimal n) = Some n.
Proof.
  unfold decimal_value, decimal. rewrite NilEmpty.usu. simpl.
  now rewrite DecimalN.Unsigned.of_to.
Qed.

Lemma decimal_value_zeros (k : nat) (s : string) :
  decimal_value (zeros k +:+ s) = decimal_value s.
Proof.
  induction k as [ | k IH]; [reflexivity | ].
  unfold decimal_value in *. simpl.
  destruct (NilEmpty.uint_of_string (zeros k +:+ s)) as [d | ];
    destruct (NilEmpty.uint_of_string s) as [d' | ]; simpl in *;
    try discriminate; try reflexivity.
  exact IH.
Qed.

Lemma Sprintf_04d_value (n : Z) :
  (0 <= n)%Z -> decimal_value (Sprintf_04d n) = Some (Z.to_N n).
Proof.
  intros Hn. unfold Sprintf_04d, pad.
  destruct (n <? 0)%Z eqn:E; [lia | ].
  now rewrite decimal_value_zeros, decimal_value_decimal.
Qed.

Lemma string_app_length (a b : string) :
  String.length (a +:+ b) = (String.length a + String.length b)%nat.
Proof. induction a as [ | c a IH]; simpl; [reflexivity | now rewrite IH]. Qed.

Lemma string_app_inj_r (a b c : string) : a +:+ c = b +:+ c -> a = b.
Proof.
  revert b. induction a as [ | x a IH]; intros [ | y b] H.
  - reflexivity.
  - apply (f_equal String.length) in H.
    rewrite !string_app_length in H. simpl in H. lia.
  - apply (f_equal String.length) in H.
    rewrite !string_app_length in H. simpl in H. lia.
  - injection H as -> H. f_equal. now apply IH.
Qed.

Example frameName_examples :
  frameName 1 = "frame_0001.png" /\ frameName 10 = "frame_0010.png"
  /\ frameName 12345 = "frame_12345.png".
Proof. repeat split. Qed.

Lemma frameName_inj (i j : Z) :
  (0 <= i)%Z -> (0 <= j)%Z -> frameName i = frameName j -> i = j.
Proof.
  intros Hi Hj H. unfold frameName in H.
  apply (inj (String.app "frame_")) in H.
  apply string_app_inj_r in H.
  apply (f_equal decimal_value) in H.
  rewrite !Sprintf_04d_value in H by assumption.
  injection H as H. lia.
Qed.

(** ** Properties of the frame loop *)

Section FrameFacts.
Context {F : Type} {FO : Float64 F} {os : OS F}.
Local Open Scope Z_scope.

Variable ag : AnimationGenerator F.
Variable totalFrames : Z.

Lemma renderFrame_eq (frame : Z) (w : World F) :
  renderFrame ag totalFrames frame w
  = (mkWorld (<[framePath ag frame := frameFile ag totalFrames frame]> (files w))
             (syslog w)
             (callbacks w ++ [(frame, frameTime totalFrames frame)]),
     None).
Proof. reflexivity. Qed.

Lemma writeFrames_app (l l' : list Z) (w : World F) :
  writeFrames ag totalFrames (l ++ l') w
  = writeFrames ag totalFrames l' (writeFrames ag totalFrames l w).
Proof. apply foldl_app. Qed.

Lemma writeFrames_syslog (l : list Z) (w : World F) :
  syslog (writeFrames ag totalFrames l w) = syslog w.
Proof. revert w. induction l as [ | i l IH]; intros w; simpl; [ | rewrite IH]; reflexivity. Qed.

Lemma writeFrames_callbacks (l : list Z) (w : World F) :
  callbacks (writeFrames ag totalFrames l w)
  = callbacks w ++ map (fun i => (i, frameTime totalFrames i)) l.
Proof.
  revert w. induction l as [ | i l IH]; intros w; simpl.
  - now rewrite app_nil_r.
  - rewrite IH. simpl. now rewrite <- app_assoc.
Qed.

(* A path no frame of the list is written to keeps what it held. *)
Lemma writeFrames_files_other (l : list Z) (w : World F) (p : string) :
  (forall i, i ∈ l -> framePath ag i <> p) ->
  files (writeFrames ag totalFrames l w) !! p = files w !! p.
Proof.
  revert w. induction l as [ | i l IH]; intros w H; simpl; [reflexivity | ].
  rewrite IH by (intros j Hj; apply H; now right).
  simpl. apply lookup_insert_ne. apply H. left.
Qed.

Hypothesis Hjoin : Join_separates_frames.

Lemma framePath_inj (i j : Z) :
  0 <= i -> 0 <= j -> framePath ag i = framePath ag j -> i = j.
Proof. intros Hi Hj H. apply frameName_inj; auto. exact (Hjoin _ _ _ H). Qed.

(* The path of a frame of the list holds the file of that frame. *)
Lemma writeFrames_files_frame (l : list Z) (w : World F) (i : Z) :
  (forall j, j ∈ l -> 0 <= j) -> i ∈ l ->
  files (writeFrames ag totalFrames l w) !! framePath ag i
  = Some (frameFile ag totalFrames i).
Proof.
  revert w. induction l as [ | x l IH]; intros w Hpos Hi; [inversion Hi | ].
  simpl. destruct (decide (i ∈ l)) as [Hin | Hout].
  - apply IH; auto. intros j Hj. apply Hpos. now right.
  - apply elem_of_cons in Hi as [-> | Hi]; [ | contradiction].
    rewrite writeFrames_files_other.
    + simpl. apply lookup_insert_eq.
    + intros j Hj Heq. apply framePath_inj in Heq.
      * now subst.
      * apply Hpos. now right.
      * apply Hpos. left.
Qed.


Lemma singleThreadLoop_eq (n : nat) (frame : Z) (w : World F) :
  singleThreadLoop ag totalFrames n frame w
  = (writeFrames ag totalFrames (seqZ frame (Z.of_nat n)) w, None).
Proof.
  revert frame w. induction n as [ | n IH]; intros frame w; [reflexivity | ].
  cbn [singleThreadLoop]. rewrite renderFrame_eq, IH.
  rewrite (seqZ_cons frame (Z.of_nat (S n))) by lia.
  replace (Z.pred (Z.of_nat (S n))) with (Z.of_nat n) by lia.
  reflexivity.
Qed.

Lemma generateFramesSingleThread_eq (w : World F) :
  generateFramesSingleThread ag totalFrames w
  = (writeFrames ag totalFrames (seqZ 1 totalFrames) w, None).
Proof.
  unfold generateFramesSingleThread. rewrite singleThreadLoop_eq.
  destruct (decide (0 <= totalFrames)) as [H | H].
  - now rewrite Z2Nat.id.
  - replace (Z.to_nat totalFrames) with 0%nat by lia.
    now rewrite (seqZ_nil 1 totalFrames) by lia.
Qed.

End FrameFacts.

(** ** Properties of the worker pool *)

Section PoolFacts.
Context {F : Type} {FO : Float64 F} {os : OS F}.
Local Open Scope Z_scope.

Variable ag : AnimationGenerator F.
Variable totalFrames : Z.
Variable workers : nat.
Variable w0 : World F.

Hypothesis HtotalFrames : 0 <= totalFrames.

Lemma holding_insert (pcs : list WorkerPC) (i : nat) (pc pc' : WorkerPC) :
  pcs !! i = Some pc ->
  holding (<[i := pc']> pcs) ++ held pc ≡ₚ holding pcs ++ held pc'.
Proof.
  revert i. induction pcs as [ | x pcs IH]; intros i Hi; [inversion Hi | ].
  destruct i as [ | i]; simpl in Hi.
  - injection Hi as ->. unfold holding. simpl. solve_Permutation.
  - unfold holding in *. simpl. rewrite <- !app_assoc.
    now rewrite (IH i Hi).
Qed.

Lemma weight_insert (pcs : list WorkerPC) (i : nat) (pc pc' : WorkerPC) :
  pcs !! i = Some pc ->
  (list_sum (map workerWeight (<[i := pc']> pcs)) + workerWeight pc
   = list_sum (map workerWeight pcs) + workerWeight pc')%nat.
Proof.
  revert i. induction pcs as [ | x pcs IH]; intros i Hi; [inversion Hi | ].
  destruct i as [ | i]; simpl in Hi.
  - injection Hi as ->. simpl. lia.
  - simpl. specialize (IH i Hi). lia.
Qed.

Lemma Exited_insert (pcs : list WorkerPC) (i : nat) (pc' : WorkerPC) :
  Exited ∈ <[i := pc']> pcs -> pc' = Exited \/ Exited ∈ pcs.
Proof.
  intros H. apply list_elem_of_lookup in H as [j Hj].
  apply list_lookup_insert_Some in Hj as [(-> & -> & _) | (_ & Hj)].
  - now left.
  - right. eapply list_elem_of_lookup_2, Hj.
Qed.

Lemma firstLive_None (pcs : list WorkerPC) :
  firstLive pcs = None -> forall pc, pc ∈ pcs -> pc = Exited.
Proof.
  induction pcs as [ | x pcs IH]; intros H pc Hpc; [inversion Hpc | ].
  destruct x; simpl in H; try discriminate.
  destruct (firstLive pcs); [discriminate | ].
  apply elem_of_cons in Hpc as [-> | Hpc]; auto.
Qed.

Lemma firstLive_Some (pcs : list WorkerPC) (i : nat) :
  firstLive pcs = Some i -> exists pc, pcs !! i = Some pc /\ pc <> Exited.
Proof.
  revert i. induction pcs as [ | x pcs IH]; intros i H; [discriminate | ].
  destruct x; simpl in H.
  - injection H as <-. exists AtReceive. split; [reflexivity | discriminate].
  - injection H as <-. eexists. split; [reflexivity | discriminate].
  - destruct (firstLive pcs) as [j | ]; [ | discriminate].
    injection H as <-. simpl. now apply IH.
Qed.

Lemma holding_all_exited (pcs : list WorkerPC) :
  (forall pc, pc ∈ pcs -> pc = Exited) -> holding pcs = [].
Proof.
  induction pcs as [ | x pcs IH]; intros H; [reflexivity | ].
  unfold holding in *. simpl. rewrite (H x) by left. simpl.
  apply IH. intros pc Hpc. apply H. now right.
Qed.

Abbreviation Inv := (poolInv ag totalFrames workers w0).

Lemma startPool_inv : Inv (startPool (Z.of_nat workers) w0).
Proof.
  unfold startPool. rewrite Nat2Z.id. constructor; simpl.
  - exists []. split; [reflexivity | ]. simpl.
    replace (holding (replicate workers AtReceive)) with (@nil Z).
    + replace (totalFrames + 1 - 1) with totalFrames by lia. reflexivity.
    + induction workers as [ | n IH]; [reflexivity | exact IH].
  - lia.
  - reflexivity.
  - discriminate.
  - intros H. apply elem_of_replicate in H as [H _]. discriminate.
  - apply length_replicate.
Qed.

Lemma stepMain_inv (s : Pool F) : Inv s -> Inv (stepMain totalFrames s).
Proof.
  intros [(done & Hw & Hp) Hn He Hc Hx Hk]. unfold stepMain.
  destruct (nextFrame s <=? totalFrames) eqn:E.
  - apply Z.leb_le in E.
    assert (Hopen : jobsClosed s = false).
    { destruct (jobsClosed s); [ | reflexivity]. specialize (Hc eq_refl). lia. }
    constructor; simpl.
    + exists done. split; [assumption | ].
      rewrite <- Hp.
      rewrite (seqZ_cons (nextFrame s)) by lia.
      replace (Z.pred (totalFrames + 1 - nextFrame s))
        with (totalFrames + 1 - (nextFrame s + 1)) by lia.
      replace (Z.succ (nextFrame s)) with (nextFrame s + 1) by lia.
      solve_Permutation.
    + lia.
    + assumption.
    + rewrite Hopen. discriminate.
    + intros H. destruct (Hx H) as [_ H']. congruence.
    + assumption.
  - apply Z.leb_gt in E. constructor; simpl.
    + exists done. auto.
    + assumption.
    + assumption.
    + intros _. lia.
    + intros H. destruct (Hx H) as [H' _]. auto.
    + assumption.
Qed.

Lemma stepWorker_inv (i : nat) (s : Pool F) :
  Inv s -> Inv (stepWorker ag totalFrames i s).
Proof.
  intros HI. pose proof HI as [(done & Hw & Hp) Hn He Hc Hx Hk].
  unfold stepWorker.
  destruct (workersPC s !! i) as [[ | frame | ] | ] eqn:Hi; try assumption.
  - destruct (jobs s) as [ | frame rest] eqn:Hj.
    + destruct (jobsClosed s) eqn:Hcl; [ | assumption].
      unfold setWorker. constructor; simpl.
      * exists done. split; [assumption | ].
        rewrite <- Hp.
        pose proof (holding_insert _ _ _ Exited Hi) as Hh.
        simpl in Hh. rewrite !app_nil_r in Hh. now rewrite Hh, Hj.
      * assumption.
      * assumption.
      * rewrite Hcl. assumption.
      * rewrite Hj, Hcl. auto.
      * now rewrite length_insert.
    + constructor; simpl.
      * exists done. split; [assumption | ].
        rewrite <- Hp.
        pose proof (holding_insert _ _ _ (Holding frame) Hi) as Hh.
        simpl in Hh. rewrite app_nil_r in Hh. rewrite Hh.
        solve_Permutation.
      * assumption.
      * assumption.
      * assumption.
      * intros H. apply Exited_insert in H as [H | H]; [discriminate | ].
        destruct (Hx H) as [H' _]. discriminate.
      * now rewrite length_insert.
  - rewrite renderFrame_eq. constructor; simpl.
    + exists (done ++ [frame]). split.
      * rewrite writeFrames_app, <- Hw. reflexivity.
      * rewrite <- Hp.
        pose proof (holding_insert _ _ _ AtReceive Hi) as Hh.
        simpl in Hh. rewrite app_nil_r in Hh.
        rewrite <- Hh. solve_Permutation.
    + assumption.
    + assumption.
    + assumption.
    + intros H. apply Exited_insert in H as [H | H]; [discriminate | auto].
    + now rewrite length_insert.
Qed.

Lemma step_inv (m : Move) (s : Pool F) : Inv s -> Inv (step ag totalFrames m s).
Proof. destruct m; [apply stepMain_inv | apply stepWorker_inv]. Qed.

Lemma run_inv (sched : list Move) (s : Pool F) :
  Inv s -> Inv (run ag totalFrames sched s).
Proof.
  revert s. induction sched as [ | m sched IH]; intros s H; [assumption | ].
  simpl. apply IH. now apply step_inv.
Qed.

(* The move [pick] proposes is enabled: it uses up some of the work left. *)
Lemma pick_decreases (m : Move) (s : Pool F) :
  pick totalFrames s = Some m ->
  (workLeft totalFrames (step ag totalFrames m s) < workLeft totalFrames s)%nat.
Proof.
  unfold pick. destruct (nextFrame s <=? totalFrames) eqn:E; simpl.
  - intros [= <-]. simpl. unfold stepMain. rewrite E.
    apply Z.leb_le in E. unfold workLeft. simpl.
    rewrite length_app. simpl.
    replace (Z.to_nat (totalFrames + 1 - nextFrame s))
      with (S (Z.to_nat (totalFrames + 1 - (nextFrame s + 1)))) by lia.
    lia.
  - destruct (jobsClosed s) eqn:Hcl; simpl.
    + intros H. destruct (firstLive (workersPC s)) as [i | ] eqn:Hl; [ | discriminate].
      injection H as <-. simpl. unfold stepWorker.
      destruct (firstLive_Some _ _ Hl) as (pc & Hi & Hpc). rewrite Hi.
      destruct pc as [ | frame | ]; [ | | congruence].
      * destruct (jobs s) as [ | frame rest] eqn:Hj.
        -- rewrite Hcl. unfold workLeft, setWorker. simpl. rewrite Hcl, Hj.
           pose proof (weight_insert _ _ _ Exited Hi) as Hw. simpl in Hw. lia.
        -- unfold workLeft. simpl. rewrite Hcl, Hj.
           pose proof (weight_insert _ _ _ (Holding frame) Hi) as Hw.
           simpl in Hw. simpl. lia.
      * rewrite renderFrame_eq. unfold workLeft. simpl. rewrite Hcl.
        pose proof (weight_insert _ _ _ AtReceive Hi) as Hw. simpl in Hw. lia.
    + intros [= <-]. simpl. unfold stepMain. rewrite E.
      unfold workLeft. simpl. rewrite Hcl. lia.
Qed.

Lemma drain_inv (fuel : nat) (s : Pool F) :
  Inv s -> Inv (drain ag totalFrames fuel s).
Proof.
  revert s. induction fuel as [ | fuel IH]; intros s H; [assumption | ].
  simpl. destruct (pick totalFrames s); [ | assumption].
  apply IH. now apply step_inv.
Qed.

(* With fuel for the work left the run reaches a state where nothing is
   left to move. *)
Lemma drain_done (fuel : nat) (s : Pool F) :
  (workLeft totalFrames s <= fuel)%nat ->
  pick totalFrames (drain ag totalFrames fuel s) = None.
Proof.
  revert s. induction fuel as [ | fuel IH]; intros s H; simpl.
  - destruct (pick totalFrames s) as [m | ] eqn:E; [ | reflexivity].
    apply (pick_decreases m s) in E. lia.
  - destruct (pick totalFrames s) as [m | ] eqn:E; [ | assumption].
    apply IH. apply (pick_decreases m s) in E. lia.
Qed.

(* A state where nothing is left to move is left alone, and what the
   completion adds to a schedule is a schedule: the result of the pool is
   always that of a complete run of the goroutines. *)
Lemma drain_at_rest (fuel : nat) (s : Pool F) :
  pick totalFrames s = None -> drain ag totalFrames fuel s = s.
Proof. intros H. destruct fuel; simpl; [ | rewrite H]; reflexivity. Qed.

Lemma drain_is_run (fuel : nat) (s : Pool F) :
  exists sched : list Move, drain ag totalFrames fuel s = run ag totalFrames sched s.
Proof.
  revert s. induction fuel as [ | fuel IH]; intros s; [now exists [] | ].
  simpl. destruct (pick totalFrames s) as [m | ]; [ | now exists []].
  destruct (IH (step ag totalFrames m s)) as [sched Hs].
  exists (m :: sched). exact Hs.
Qed.

(* Where nothing is left to move every frame has been rendered. *)
Lemma done_all_rendered (s : Pool F) :
  (0 < workers)%nat -> Inv s -> pick totalFrames s = None ->
  exists done : list Z,
    done ≡ₚ seqZ 1 totalFrames
    /\ pool_world s = writeFrames ag totalFrames done w0
    /\ errorsChan s = [].
Proof.
  intros Hk [(done & Hw & Hp) Hn He Hc Hx Hlen] Hpick.
  unfold pick in Hpick.
  destruct (nextFrame s <=? totalFrames) eqn:E; [discriminate | ].
  destruct (jobsClosed s) eqn:Hcl; [ | discriminate]. simpl in Hpick.
  destruct (firstLive (workersPC s)) eqn:Hl; [discriminate | ].
  pose proof (firstLive_None _ Hl) as Hall.
  assert (Hex : Exited ∈ workersPC s).
  { destruct (workersPC s) as [ | pc pcs]; [simpl in Hlen; lia | ].
    rewrite (Hall pc) by left. left. }
  destruct (Hx Hex) as [Hj _].
  exists done. repeat split; auto.
  rewrite <- Hp, Hj, (holding_all_exited _ Hall), (Hc eq_refl).
  rewrite (seqZ_nil _ (totalFrames + 1 - (totalFrames + 1))) by lia.
  now rewrite !app_nil_r.
Qed.

(* Whatever the schedule, the pool renders the frames 1..totalFrames,
   each once, in some order, and reports no error. *)
Lemma generateFramesMultiThread_eq (sched : list Move) :
  (0 < workers)%nat ->
  exists done : list Z,
    done ≡ₚ seqZ 1 totalFrames
    /\ generateFramesMultiThread sched ag totalFrames (Z.of_nat workers) w0
       = (writeFrames ag totalFrames done w0, Returned None).
Proof.
  intros Hk. unfold generateFramesMultiThread.
  destruct (totalFrames <? 0) eqn:E; [lia | ].
  set (s1 := run ag totalFrames sched (startPool (Z.of_nat workers) w0)).
  set (s2 := drain ag totalFrames (workLeft totalFrames s1) s1).
  assert (H1 : Inv s1) by (apply run_inv, startPool_inv).
  assert (H2 : Inv s2) by now apply drain_inv.
  assert (Hd : pick totalFrames s2 = None) by now apply drain_done.
  destruct (done_all_rendered s2 Hk H2 Hd) as (done & Hp & Hw & He).
  exists done. split; [assumption | ]. now rewrite Hw, He.
Qed.

End PoolFacts.

(** ** Properties of the generator *)

Abbreviation tempDirCall ag := (SysMkdirAll (Config_TempDir (Config ag))).

Section GeneratorFacts.
Context {F : Type} {FO : Float64 F} {os : OS F}.
Local Open Scope Z_scope.

Lemma GenerateFrames_mkdir_fails (sched : list Move) (ag : AnimationGenerator F)
    (w : World F) (err : string) :
  os_MkdirAll (Config_TempDir (Config ag)) (logCall w (tempDirCall ag)) = Some err ->
  GenerateFrames sched ag w
  = (logCall w (tempDirCall ag), Returned (Some (ErrMkdir err))).
Proof. intros H. unfold GenerateFrames. now rewrite H. Qed.

(* Once the directory exists GenerateFrames renders the frames
   1..totalFrames in some order (in this order on one worker) and reports
   no error; the one other way out is the panic of the pool on a negative
   frame count, before any frame. *)
Lemma GenerateFrames_runs (sched : list Move) (ag : AnimationGenerator F)
    (w : World F) :
  let totalFrames := totalFramesOf (Config ag) in
  let w1 := logCall w (tempDirCall ag) in
  os_MkdirAll (Config_TempDir (Config ag)) w1 = None ->
  exists done : list Z,
    done ≡ₚ seqZ 1 totalFrames
    /\ (Config_Workers (Config ag) <= 1 -> done = seqZ 1 totalFrames)
    /\ (GenerateFrames sched ag w).1 = writeFrames ag totalFrames done w1
    /\ ((GenerateFrames sched ag w).2 = Returned None
        \/ (totalFrames < 0 /\ 1 < Config_Workers (Config ag)
            /\ (GenerateFrames sched ag w).2 = Panicked)).
Proof.
  intros totalFrames w1 Hdir. unfold GenerateFrames. fold w1. rewrite Hdir.
  fold totalFrames.
  destruct (Config_Workers (Config ag) <? 1) eqn:E1.
  - simpl. rewrite generateFramesSingleThread_eq.
    exists (seqZ 1 totalFrames). auto.
  - apply Z.ltb_ge in E1.
    destruct (Config_Workers (Config ag) =? 1) eqn:E2.
    + rewrite generateFramesSingleThread_eq.
      exists (seqZ 1 totalFrames). auto.
    + apply Z.eqb_neq in E2.
      destruct (decide (0 <= totalFrames)) as [Hpos | Hneg].
      * destruct (generateFramesMultiThread_eq ag totalFrames
                    (Z.to_nat (Config_Workers (Config ag))) w1 Hpos sched)
          as (done & Hperm & Heq); [lia | ].
        rewrite Z2Nat.id in Heq by lia. rewrite Heq.
        exists done. repeat split; auto. lia.
      * unfold generateFramesMultiThread.
        destruct (totalFrames <? 0) eqn:E3; [ | lia].
        exists []. simpl. repeat split.
        -- now rewrite seqZ_nil by lia.
        -- lia.
        -- right. repeat split; lia.
Qed.

Lemma GenerateFrames_syslog (sched : list Move) (ag : AnimationGenerator F)
    (w : World F) :
  syslog (GenerateFrames sched ag w).1 = syslog w ++ [tempDirCall ag].
Proof.
  destruct (os_MkdirAll (Config_TempDir (Config ag)) (logCall w (tempDirCall ag)))
    as [err | ] eqn:Hdir.
  - now rewrite (GenerateFrames_mkdir_fails _ _ _ _ Hdir).
  - destruct (GenerateFrames_runs sched ag w Hdir) as (done & _ & _ & -> & _).
    now rewrite writeFrames_syslog.
Qed.

Lemma ComposeVideo_syslog (ag : AnimationGenerator F) (w : World F) :
  syslog (ComposeVideo ag w).1 = syslog w ++ [SysFfmpeg (ffmpegArgs (Config ag))].
Proof.
  unfold ComposeVideo.
  destruct (run_ffmpeg _ _) as [fs [[err output] | ]]; reflexivity.
Qed.

(* With CleanupTemp off, Generate asks the system for the directory and
   perhaps for the encoder, and for nothing else. *)
Lemma Generate_syslog_no_cleanup (sched : list Move) (ag : AnimationGenerator F)
    (w : World F) :
  Config_CleanupTemp (Config ag) = false ->
  exists calls : list Syscall,
    syslog (Generate sched ag w).1 = syslog w ++ calls
    /\ forall dir, SysRemoveAll dir ∉ calls.
Proof.
  intros Hoff. unfold Generate.
  pose proof (GenerateFrames_syslog sched ag w) as H1.
  destruct (GenerateFrames sched ag w) as [w1 [[err | ] | ]]; simpl in H1.
  - exists [tempDirCall ag]. split; [assumption | ].
    intros dir H. apply list_elem_of_singleton in H. discriminate.
  - pose proof (ComposeVideo_syslog ag w1) as H2.
    destruct (ComposeVideo ag w1) as [w2 [err | ]]; simpl in H2.
    + exists [tempDirCall ag; SysFfmpeg (ffmpegArgs (Config ag))].
      split; [simpl; rewrite H2, H1, <- app_assoc; reflexivity | ].
      intros dir H. repeat (apply elem_of_cons in H as [H | H]; [discriminate | ]).
      inversion H.
    + rewrite Hoff.
      exists [tempDirCall ag; SysFfmpeg (ffmpegArgs (Config ag))].
      split; [simpl; rewrite H2, H1, <- app_assoc; reflexivity | ].
      intros dir H. repeat (apply elem_of_cons in H as [H | H]; [discriminate | ]).
      inversion H.
  - exists [tempDirCall ag]. split; [assumption | ].
    intros dir H. apply list_elem_of_singleton in H. discriminate.
Qed.

(* With CleanupTemp on, a Generate that succeeds ends by removing the
   directory. *)
Lemma Generate_syslog_cleanup (sched : list Move) (ag : AnimationGenerator F)
    (w : World F) :
  Config_CleanupTemp (Config ag) = true ->
  (Generate sched ag w).2 = Returned None ->
  syslog (Generate sched ag w).1
  = syslog w ++ [tempDirCall ag; SysFfmpeg (ffmpegArgs (Config ag));
                 SysRemoveAll (Config_TempDir (Config ag))].
Proof.
  intros Hon. unfold Generate.
  pose proof (GenerateFrames_syslog sched ag w) as H1.
  destruct (GenerateFrames sched ag w) as [w1 [[err | ] | ]]; simpl in H1;
    try discriminate.
  pose proof (ComposeVideo_syslog ag w1) as H2.
  destruct (ComposeVideo ag w1) as [w2 [err | ]]; simpl in H2; try discriminate.
  rewrite Hon. intros _.
  destruct (os_RemoveAll _ _) as [fs e]. simpl.
  rewrite H2, H1, <- !app_assoc. reflexivity.
Qed.

End GeneratorFacts.

Section GeneratorTheorems.
Context {F : Type} {FO : Float64 F} {os : OS F}.
Local Open Scope Z_scope.

Hypothesis Hjoin : Join_separates_frames.


Lemma frames_from_one (l : list Z) (n : Z) :
  l ≡ₚ seqZ 1 n -> forall j, j ∈ l -> 0 <= j.
Proof. intros H j Hj. rewrite H in Hj. apply elem_of_seqZ in Hj. lia. Qed.

(** C2, amended.  The frame count N is int(float64(FPS) * Duration), the
    product truncated toward zero by Go's conversion (not rounded).  A run
    that cannot create its directory produces nothing.  Any other run
    calls the render callback exactly once for each frame index 1..N with
    the time (i-1)/N (in index order on one worker, in some order on
    several), writes for each of them the file of that frame and touches
    no other path; frame 0 gets neither a call nor a file. *)
Theorem GenerateFrames_frames (sched : list Move) (ag : AnimationGenerator F)
    (w : World F) :
  let N := totalFramesOf (Config ag) in
  let w' := (GenerateFrames sched ag w).1 in
  let times := map (fun i => (i, (#(i - 1) / #N)%go)) (seqZ 1 N) in
  let mkdir :=
    os_MkdirAll (Config_TempDir (Config ag)) (logCall w (tempDirCall ag)) in
  N = int_of_float64 (#(Config_FPS (Config ag)) * Config_Duration (Config ag))%go
  /\ (forall err, mkdir = Some err ->
        callbacks w' = callbacks w /\ files w' = files w)
  /\ (mkdir = None ->
      callbacks w' ≡ₚ callbacks w ++ times
      /\ (Config_Workers (Config ag) <= 1 -> callbacks w' = callbacks w ++ times)
      /\ (forall i, 1 <= i <= N ->
            files w' !! framePath ag i = Some (frameFile ag N i))
      /\ (forall p, (forall i, 1 <= i <= N -> framePath ag i <> p) ->
            files w' !! p = files w !! p)
      /\ (forall t, (0, t) ∉ times)
      /\ files w' !! framePath ag 0 = files w !! framePath ag 0).
Proof.
  intros N w' times mkdir.
  split; [reflexivity | ]. split.
  { intros err Hdir. unfold w'.
    now rewrite (GenerateFrames_mkdir_fails sched ag w err Hdir). }
  intros Hdir.
  destruct (GenerateFrames_runs sched ag w Hdir) as (done & Hperm & Hone & Hw & _).
  fold N in Hperm, Hone, Hw. fold w' in Hw.
  assert (Hother : forall p, (forall i, 1 <= i <= N -> framePath ag i <> p) ->
                             files w' !! p = files w !! p).
  { intros p Hp. rewrite Hw, writeFrames_files_other; [reflexivity | ].
    intros i Hi. apply Hp. rewrite Hperm in Hi. apply elem_of_seqZ in Hi. lia. }
  split; [ | split; [ | split; [ | split; [ | split]]]].
  - rewrite Hw, writeFrames_callbacks. simpl.
    apply Permutation_app_head. unfold times, frameTime. now rewrite Hperm.
  - intros H1. rewrite Hw, writeFrames_callbacks, (Hone H1). reflexivity.
  - intros i Hi. rewrite Hw. apply writeFrames_files_frame; auto.
    + now apply (frames_from_one done N).
    + rewrite Hperm. apply elem_of_seqZ. lia.
  - exact Hother.
  - intros t Ht. unfold times in Ht. apply list_elem_of_In, in_map_iff in Ht.
    destruct Ht as (i & Heq & Hi). injection Heq as Heq _.
    apply list_elem_of_In in Hi. apply elem_of_seqZ in Hi. lia.
  - apply Hother. intros i Hi Heq. apply framePath_inj in Heq; auto; lia.
Qed.


End GeneratorTheorems.

(** C10.  GenerateFramesOnly hands back the generator with TempDir as it
    was before the call and CleanupTemp false, every other field
    untouched, whatever the outcome of the call; the frames of the call
    itself went to outputDir.  A Generate run on that generator afterwards
    asks the system for the directory and the encoder only: it never
    removes the temporary directory, whereas a successful Generate with
    CleanupTemp true ends by removing it. *)
Theorem GenerateFramesOnly_leaves_cleanup_off
    {F : Type} {FO : Float64 F} {os : OS F}
    (sched : list Move) (ag : AnimationGenerator F) (outputDir : string)
    (w : World F) :
  let result := GenerateFramesOnly sched ag outputDir w in
  let ag' := result.1.1 in
  Config_TempDir (Config ag') = Config_TempDir (Config ag)
  /\ Config_CleanupTemp (Config ag') = false
  /\ Config ag' = setCleanupTemp (Config ag) false
  /\ Generator_Renderer ag' = Generator_Renderer ag
  /\ (result.1.2, result.2)
     = GenerateFrames sched
         (setConfig ag (setCleanupTemp (setTempDir (Config ag) outputDir) false)) w
  /\ (forall (sched' : list Move) (w' : World F),
         exists calls : list Syscall,
           syslog (Generate sched' ag' w').1 = syslog w' ++ calls
           /\ forall dir, SysRemoveAll dir ∉ calls)
  /\ (forall (sched' : list Move) (w' : World F),
         Config_CleanupTemp (Config ag) = true ->
         (Generate sched' ag w').2 = Returned None ->
         SysRemoveAll (Config_TempDir (Config ag)) ∈ syslog (Generate sched' ag w').1).
Proof.
  intros result ag'. unfold ag', result, GenerateFramesOnly.
  destruct (GenerateFrames sched _ w) as [w1 out] eqn:E. simpl.
  do 5 (split; [reflexivity | ]). split.
  - intros sched' w'. now apply Generate_syslog_no_cleanup.
  - intros sched' w' Hon Hok.
    rewrite (Generate_syslog_cleanup sched' ag w' Hon Hok).
    apply elem_of_app. right. do 2 right. left.
Qed.

(** Runs of the generator in binary64, on a system where every call
    succeeds. *)

Lemma plainOS_Join : Join_separates_frames (os := Examples.plainOS).
Proof.
  intros dir i j H. simpl in H.
  apply (inj (String.app dir)) in H.
  now apply (inj (String.app "/")) in H.
Qed.

(* In exact arithmetic int(x) is x with its fractional part dropped. *)
Lemma Rtrunc_toward_zero (x : R) :
  ((0 <= x -> IZR (Exact.Rtrunc x) <= x < IZR (Exact.Rtrunc x) + 1)
   /\ (x < 0 -> IZR (Exact.Rtrunc x) - 1 < x <= IZR (Exact.Rtrunc x)))%R.
Proof.
  unfold Exact.Rtrunc. destruct (Rle_dec 0 x) as [H | H]; split; intros H'; try lra.
  - destruct (base_Int_part x). lra.
  - destruct (base_Int_part (- x)). rewrite opp_IZR. lra.
Qed.

(** C2 as stated fails: at one frame per second for 1.75 seconds the
    product is 1.75, whose rounding is 2, and the frame count is 1. *)
Lemma totalFrames_truncated_not_rounded :
  let c := Examples.sevenQuarters in
  let x := (#(Config_FPS c) * Config_Duration c)%go in
  x = PrimFloat.div 7 4
  /\ totalFramesOf c = 1%Z
  /\ rounds_to x 1 = false
  /\ rounds_to x 2 = true.
Proof. repeat apply conj; vm_compute; reflexivity. Qed.

Lemma GenerateFrames_frames_run :
  let ag := Examples.tenFrames in
  let N := totalFramesOf (Config ag) in
  let w' := (GenerateFrames (os := Examples.plainOS) [] ag Examples.emptyWorld).1 in
  N = 10%Z
  /\ callbacks w' = map (fun i => (i, (#(i - 1) / #N)%go)) (seqZ 1 N)
  /\ files w' !! "temp_frames/frame_0001.png" = Some (frameFile ag N 1)
  /\ files w' !! "temp_frames/frame_0010.png" = Some (frameFile ag N 10)
  /\ files w' !! "temp_frames/frame_0000.png" = None.
Proof.
  intros ag N w'.
  assert (HN : N = 10%Z) by (vm_compute; reflexivity).
  destruct (GenerateFrames_frames (os := Examples.plainOS) plainOS_Join
              [] ag Examples.emptyWorld) as (_ & _ & Hruns).
  destruct (Hruns eq_refl) as (_ & Hcalls & Hfiles & _ & _ & Hzero).
  fold N w' in Hcalls, Hfiles, Hzero.
  split; [exact HN | ]. split; [ | split; [ | split]].
  - apply Hcalls. simpl. lia.
  - apply (Hfiles 1%Z). lia.
  - apply (Hfiles 10%Z). lia.
  - exact Hzero.
Defined.


Lemma GenerateFramesOnly_leaves_cleanup_off_run :
  let ag := Examples.tenFrames in
  let ag' := (GenerateFramesOnly (os := Examples.plainOS) [] ag "out"
                Examples.emptyWorld).1.1 in
  Config_CleanupTemp (Config ag) = true
  /\ Config_TempDir (Config ag') = "temp_frames"
  /\ Config_CleanupTemp (Config ag') = false
  /\ SysRemoveAll "temp_frames"
     ∈ syslog (Generate (os := Examples.plainOS) [] ag Examples.emptyWorld).1.
Proof.
  intros ag ag'.
  destruct (GenerateFramesOnly_leaves_cleanup_off (os := Examples.plainOS)
              [] ag "out" Examples.emptyWorld)
    as (Hdir & Hoff & _ & _ & _ & _ & Hon).
  split; [reflexivity | ]. split; [exact Hdir | ]. split; [exact Hoff | ].
  apply Hon; vm_compute; reflexivity.
Defined.

(** * Further properties of the code

    The properties below are read off the source, beyond what the
    specification states.  Arithmetic facts are stated in exact
    arithmetic, structural ones for any arithmetic. *)

(** ** Vectors and matrices in exact arithmetic *)

Module ExactAlgebra.
Import Exact ExactFacts ExactSpec.
Local Open Scope R_scope.

Lemma Length_nonneg (v : Vector3 R) : 0 <= Length v.
Proof. apply sqrt_pos. Qed.

Lemma Length_sq (v : Vector3 R) : Length v * Length v = Dot v v.
Proof. unfold Length, Dot. cbn [math_Sqrt exact fadd fmul]. apply sqrt_sqrt. nra. Qed.

Lemma Length_zero : Length (NewVector3 0 0 0 : Vector3 R) = 0.
Proof.
  unfold Length. cbn. replace (0 * 0 + 0 * 0 + 0 * 0) with 0 by ring. apply sqrt_0.
Qed.

Lemma Length_eq (u v : Vector3 R) : Dot u u = Dot v v -> Length u = Length v.
Proof. unfold Length, Dot. cbn. intros ->. reflexivity. Qed.

Lemma Length_from_square (v : Vector3 R) (a : R) :
  0 <= a -> Dot v v = a * a -> Length v = a.
Proof.
  intros Ha H. pose proof (Length_sq v) as Hs. pose proof (Length_nonneg v) as Hn.
  rewrite H in Hs. nra.
Qed.

Lemma Normalize_cases (v : Vector3 R) :
  (Length v < epsilon /\ Normalize v = NewVector3 0 0 0)
  \/ (epsilon <= Length v /\ Normalize v = Scale v (1 / Length v)).
Proof.
  destruct (Rlt_dec (Length v) epsilon) as [H | H].
  - left. split; [easy | ].
    exact (Normalize_short v (proj2 (Rltb_true _ _) H)).
  - right. split; [lra | ].
    assert (H' : epsilon <= Length v) by lra.
    exact (Normalize_long v (proj2 (Rltb_false _ _) H')).
Qed.

Lemma Cross_orthogonal (a b : Vector3 R) :
  Dot (Cross a b) a = 0 /\ Dot (Cross a b) b = 0.
Proof. destruct a, b. unfold Dot, Cross. cbn. split; ring. Qed.

Lemma Dot_Scale_l (a b : Vector3 R) (s : R) : Dot (Scale a s) b = s * Dot a b.
Proof. destruct a, b. unfold Dot, Scale. cbn. ring. Qed.

Lemma Dot_Scale_r (a b : Vector3 R) (s : R) : Dot a (Scale b s) = s * Dot a b.
Proof. destruct a, b. unfold Dot, Scale. cbn. ring. Qed.

Lemma Dot_zero_l (b : Vector3 R) : Dot (NewVector3 0 0 0) b = 0.
Proof. destruct b. unfold Dot. cbn. ring. Qed.

Lemma Dot_Normalize_l (a b : Vector3 R) : Dot a b = 0 -> Dot (Normalize a) b = 0.
Proof.
  intros H. destruct (Normalize_cases a) as [[_ ->] | [_ ->]].
  - apply Dot_zero_l.
  - rewrite Dot_Scale_l, H. ring.
Qed.

Lemma Dot_Normalize_neg (n d : Vector3 R) :
  epsilon <= Length d -> Dot n d < 0 -> Dot n (Normalize d) < 0.
Proof.
  intros HL Hd. pose proof epsilon_pos as He.
  rewrite (Normalize_long d) by (apply Rltb_false; exact HL).
  rewrite Dot_Scale_r. change (1 / Length d * Dot n d < 0).
  assert (0 < 1 / Length d) by (apply Rdiv_lt_0_compat; lra).
  nra.
Qed.

(* The normal of a triangle whose edge product has length a points where
   the edge product points. *)
Lemma Normal_Dot_neg (t : Triangle R) (a : R) (d : Vector3 R) :
  let n := Cross (Sub (V1 t) (V0 t)) (Sub (V2 t) (V0 t)) in
  epsilon <= a -> Dot n n = a * a -> Dot n d < 0 -> Dot (Normal t) d < 0.
Proof.
  intros n Ha Hn Hc. pose proof epsilon_pos as He.
  assert (HL : Length n = a) by (apply Length_from_square; [lra | exact Hn]).
  unfold Normal. fold n.
  replace (Length n <? epsilon)%go with false
    by (symmetry; apply Rltb_false; rewrite HL; exact Ha).
  rewrite (Normalize_long n) by (apply Rltb_false; rewrite HL; exact Ha).
  rewrite Dot_Scale_l. change (1 / Length n * Dot n d < 0). rewrite HL.
  assert (0 < 1 / a) by (apply Rdiv_lt_0_compat; lra).
  nra.
Qed.

Lemma cos2_sin2 (a : R) : cos a * cos a + sin a * sin a = 1.
Proof. pose proof (sin2_cos2 a) as H. unfold Rsqr in H. lra. Qed.

(** *** Affine matrices *)

Lemma TransformVector_affine (m : Matrix4 R) (v : Vector3 R) :
  affine m ->
  TransformVector m v = NewVector3 (hom_x m v) (hom_y m v) (hom_z m v).
Proof.
  intros (H12 & H13 & H14 & H15). pose proof epsilon_pos as He.
  unfold TransformVector.
  replace (hom_w m v) with 1.
  - replace (math_Abs (1 - #1)%go >? epsilon)%go with false;
      [now rewrite andb_false_r | ].
    symmetry. apply Rltb_false. cbn. replace (1 - 1) with 0 by ring.
    rewrite Rabs_R0. lra.
  - unfold hom_w. rewrite H12, H13, H14, H15. cbn. ring.
Qed.

Lemma TransformVector_divides (m : Matrix4 R) (v : Vector3 R) :
  epsilon < Rabs (hom_w m v) -> epsilon < Rabs (hom_w m v - 1) ->
  TransformVector m v
  = NewVector3 (hom_x m v / hom_w m v) (hom_y m v / hom_w m v) (hom_z m v / hom_w m v).
Proof.
  intros H1 H2. unfold TransformVector.
  replace (math_Abs (hom_w m v) >? epsilon)%go with true
    by (symmetry; apply Rltb_true; exact H1).
  replace (math_Abs (hom_w m v - #1)%go >? epsilon)%go with true
    by (symmetry; apply Rltb_true; exact H2).
  reflexivity.
Qed.

Lemma TransformVector_zero_xy (m : Matrix4 R) (v : Vector3 R) :
  hom_x m v = 0 -> hom_y m v = 0 ->
  vX (TransformVector m v) = 0 /\ vY (TransformVector m v) = 0.
Proof.
  intros Hx Hy. unfold TransformVector. rewrite Hx, Hy.
  destruct (_ && _); cbn; unfold Rdiv; split; ring.
Qed.

Lemma Identity_affine : affine (Identity (F := R)).
Proof. unfold affine. cbn. auto. Qed.

Lemma Translation_affine (x y z : R) : affine (Translation x y z).
Proof. unfold affine. cbn. auto. Qed.

Lemma ScaleMatrix_affine (x y z : R) : affine (ScaleMatrix x y z).
Proof. unfold affine. cbn. auto. Qed.

Lemma RotationX_affine (a : R) : affine (RotationX a).
Proof. unfold affine. cbn. auto. Qed.

Lemma RotationY_affine (a : R) : affine (RotationY a).
Proof. unfold affine. cbn. auto. Qed.

Lemma RotationZ_affine (a : R) : affine (RotationZ a).
Proof. unfold affine. cbn. auto. Qed.

Lemma RotationFromAxisAngle_affine (k : Vector3 R) (a : R) :
  affine (RotationFromAxisAngle k a).
Proof. unfold affine. cbn. auto. Qed.

Lemma LookAt_affine (eye target up : Vector3 R) : affine (LookAt eye target up).
Proof. unfold affine, LookAt. cbn. auto. Qed.

Lemma hom_Multiply (a b : Matrix4 R) (v : Vector3 R) :
  affine b ->
  let bv := NewVector3 (hom_x b v) (hom_y b v) (hom_z b v) in
  hom_x (Multiply a b) v = hom_x a bv
  /\ hom_y (Multiply a b) v = hom_y a bv
  /\ hom_z (Multiply a b) v = hom_z a bv
  /\ hom_w (Multiply a b) v = hom_w a bv.
Proof.
  intros (B12 & B13 & B14 & B15) bv. subst bv.
  unfold hom_x, hom_y, hom_z, hom_w, Multiply, cell, entry. cbn.
  rewrite B12, B13, B14, B15. cbn.
  repeat split; ring.
Qed.

Lemma TransformVector_Multiply (a b : Matrix4 R) (v : Vector3 R) :
  affine b ->
  TransformVector (Multiply a b) v = TransformVector a (TransformVector b v).
Proof.
  intros Hb. rewrite (TransformVector_affine b v Hb).
  destruct (hom_Multiply a b v Hb) as (Hx & Hy & Hz & Hw).
  unfold TransformVector at 1 2. rewrite Hx, Hy, Hz, Hw. reflexivity.
Qed.

Lemma Multiply_affine (a b : Matrix4 R) : affine a -> affine b -> affine (Multiply a b).
Proof.
  intros (A12 & A13 & A14 & A15) (B12 & B13 & B14 & B15).
  unfold affine, Multiply, cell, entry. cbn.
  rewrite A12, A13, A14, A15, B12, B13, B14, B15. cbn.
  repeat split; ring.
Qed.

Lemma TransformVector_Identity (v : Vector3 R) : TransformVector Identity v = v.
Proof.
  rewrite TransformVector_affine by apply Identity_affine.
  destruct v. unfold hom_x, hom_y, hom_z. cbn. f_equal; ring.
Qed.

(** *** The view matrix *)

(* The three axes LookAt settles on. *)
Lemma LookAt_frame (eye target up : Vector3 R) :
  exists forward right newUp : Vector3 R,
    LookAt eye target up
    = mkMatrix4 (vX right) (vY right) (vZ right) (- Dot right eye)
                (vX newUp) (vY newUp) (vZ newUp) (- Dot newUp eye)
                (- vX forward) (- vY forward) (- vZ forward) (Dot forward eye)
                0 0 0 1
    /\ Dot right forward = 0 /\ Dot newUp forward = 0
    /\ (epsilon <= Length (Sub target eye) ->
        forward = Scale (Sub target eye) (1 / Length (Sub target eye))).
Proof.
  pose proof epsilon_pos as He.
  unfold LookAt. cbv zeta.
  set (f0 := Normalize (Sub target eye)).
  set (fwd := if (Length f0 <? epsilon)%go then _ else f0).
  set (r0 := Normalize (Cross fwd up)).
  set (rt := if (Length r0 <? epsilon)%go then _ else r0).
  set (nu := Normalize (Cross rt fwd)).
  exists fwd, rt, nu. split; [reflexivity | ].
  assert (Hrt : exists u, rt = Normalize (Cross fwd u)).
  { subst rt. destruct (Length r0 <? epsilon)%go; [ | now exists up].
    destruct (math_Abs (vY fwd) <? _)%go; eauto. }
  destruct Hrt as [u Hrt].
  split; [ | split].
  - rewrite Hrt. apply Dot_Normalize_l, Cross_orthogonal.
  - subst nu. apply Dot_Normalize_l, Cross_orthogonal.
  - intros HL. subst fwd f0.
    pose proof (Length_Normalize _ HL) as H1.
    replace (Length (Normalize (Sub target eye)) <? epsilon)%go with false.
    + exact (Normalize_long _ (proj2 (Rltb_false _ _) HL)).
    + symmetry. apply Rltb_false. rewrite H1. unfold epsilon. cbn. lra.
Qed.

Lemma LookAt_target (eye target up : Vector3 R) :
  epsilon <= Length (Sub target eye) ->
  TransformVector (LookAt eye target up) target
  = NewVector3 0 0 (- Length (Sub target eye)).
Proof.
  intros HL. pose proof epsilon_pos as He.
  rewrite TransformVector_affine by apply LookAt_affine.
  destruct (LookAt_frame eye target up) as (fwd & rt & nu & -> & Hr & Hn & Hf).
  specialize (Hf HL).
  pose proof (Length_sq (Sub target eye)) as Hsq.
  set (L := Length (Sub target eye)) in *. clearbody L.
  assert (HdX : vX target - vX eye = L * vX fwd).
  { rewrite Hf. unfold Scale, Sub. cbn. field. lra. }
  assert (HdY : vY target - vY eye = L * vY fwd).
  { rewrite Hf. unfold Scale, Sub. cbn. field. lra. }
  assert (HdZ : vZ target - vZ eye = L * vZ fwd).
  { rewrite Hf. unfold Scale, Sub. cbn. field. lra. }
  unfold Dot, Sub in Hr, Hn, Hsq. cbn in Hr, Hn, Hsq.
  unfold hom_x, hom_y, hom_z, Dot. cbn. f_equal.
  - replace (_ + _ + _ + _)
      with (vX rt * (vX target - vX eye) + vY rt * (vY target - vY eye)
            + vZ rt * (vZ target - vZ eye)) by ring.
    rewrite HdX, HdY, HdZ.
    replace (_ + _ + _)
      with (L * (vX rt * vX fwd + vY rt * vY fwd + vZ rt * vZ fwd)) by ring.
    rewrite Hr. ring.
  - replace (_ + _ + _ + _)
      with (vX nu * (vX target - vX eye) + vY nu * (vY target - vY eye)
            + vZ nu * (vZ target - vZ eye)) by ring.
    rewrite HdX, HdY, HdZ.
    replace (_ + _ + _)
      with (L * (vX nu * vX fwd + vY nu * vY fwd + vZ nu * vZ fwd)) by ring.
    rewrite Hn. ring.
  - replace (_ + _ + _ + _)
      with (- (vX fwd * (vX target - vX eye) + vY fwd * (vY target - vY eye)
               + vZ fwd * (vZ target - vZ eye))) by ring.
    rewrite Hf. unfold Scale, Sub. cbn.
    replace (- _)
      with (- ((1 / L) * ((vX target - vX eye) * (vX target - vX eye)
                          + (vY target - vY eye) * (vY target - vY eye)
                          + (vZ target - vZ eye) * (vZ target - vZ eye)))) by ring.
    rewrite <- Hsq. field. lra.
Qed.

(** *** The projection matrix *)

Lemma Perspective_standard (fov aspect near far : R) :
  epsilon <= Rabs fov -> epsilon <= Rabs aspect -> epsilon <= Rabs (far - near) ->
  Perspective fov aspect near far
  = let f := 1 / Rtrigo1.tan (fov / 2) in
    mkMatrix4 (f / aspect) 0 0 0
              0 f 0 0
              0 0 ((far + near) / (near - far)) ((2 * far * near) / (near - far))
              0 0 (-1) 0.
Proof.
  intros H1 H2 H3. unfold Perspective.
  replace (math_Abs fov <? epsilon)%go with false
    by (symmetry; apply Rltb_false; exact H1).
  replace (math_Abs aspect <? epsilon)%go with false
    by (symmetry; apply Rltb_false; exact H2).
  replace (math_Abs (far - near)%go <? epsilon)%go with false
    by (symmetry; apply Rltb_false; exact H3).
  reflexivity.
Qed.

Lemma Perspective_depth_formula (fov aspect near far x y d : R) :
  epsilon <= Rabs fov -> epsilon <= Rabs aspect -> epsilon <= Rabs (far - near) ->
  regular_depth d ->
  vZ (TransformVector (Perspective fov aspect near far) (NewVector3 x y (- d)))
  = (far + near) / (far - near) - (2 * far * near) / (far - near) / d.
Proof.
  intros H1 H2 H3 [Hd Hd1]. pose proof epsilon_pos as He.
  rewrite Perspective_standard by assumption. cbv zeta.
  assert (Hw : forall f, hom_w (mkMatrix4 (f / aspect) 0 0 0 0 f 0 0 0 0
             ((far + near) / (near - far)) (2 * far * near / (near - far)) 0 0 (-1) 0)
             (NewVector3 x y (- d)) = d).
  { intros f. unfold hom_w. cbn. ring. }
  rewrite TransformVector_divides; rewrite ?Hw.
  - cbn [vZ]. unfold hom_z. cbn.
    assert (far - near <> 0).
    { intros E. rewrite E, Rabs_R0 in H3. lra. }
    field. split; lra.
  - rewrite Rabs_pos_eq; lra.
  - exact Hd1.
Qed.

Lemma Perspective_on_axis (fov aspect near far z : R) :
  let p := TransformVector (Perspective fov aspect near far) (NewVector3 0 0 z) in
  vX p = 0 /\ vY p = 0.
Proof.
  cbv zeta. apply TransformVector_zero_xy; unfold Perspective;
    destruct (_ || _); unfold hom_x, hom_y; cbn; ring.
Qed.

(* The point the camera looks at is projected onto the axis of the view. *)
Lemma target_on_axis (r : Renderer R) :
  let cam := Renderer_Camera r in
  let view := LookAt (Camera_Position cam) (Camera_Target cam) (Camera_Up cam) in
  let projection :=
    Perspective (Camera_FOV cam) (IZR (Renderer_Width r) / IZR (Renderer_Height r))
                (Camera_Near cam) (Camera_Far cam) in
  let projected :=
    TransformVector projection (TransformVector view (Camera_Target cam)) in
  epsilon <= Length (Sub (Camera_Target cam) (Camera_Position cam)) ->
  vX projected = 0 /\ vY projected = 0.
Proof.
  intros cam view projection projected HL. subst projected view projection.
  rewrite (LookAt_target _ _ _ HL). apply Perspective_on_axis.
Qed.

End ExactAlgebra.

Section ExactAlgebraTheorems.
Local Open Scope R_scope.

(** X1.  In exact arithmetic Normalize is idempotent: normalising a
    normalised vector changes nothing, whether the first call returned a
    unit vector or, for a vector shorter than 1e-10, the zero vector. *)
Theorem Normalize_idempotent (v : Vector3 R) :
  Normalize (Normalize v) = Normalize v.
Proof.
  pose proof ExactFacts.epsilon_pos as He.
  destruct (ExactAlgebra.Normalize_cases v) as [[_ E] | [H E]].
  - rewrite E. refine (Normalize_short _ (proj2 (ExactFacts.Rltb_true _ _) _)).
    rewrite ExactAlgebra.Length_zero. exact He.
  - pose proof (ExactFacts.Length_Normalize v H) as H1.
    rewrite (Normalize_long (Normalize v)).
    + rewrite H1. destruct (Normalize v). unfold Scale. cbn. f_equal; field.
    + apply ExactFacts.Rltb_false. rewrite H1. unfold epsilon. cbn. lra.
Qed.

(** X2.  In exact arithmetic Triangle.Normal always has length 1 (the
    default (0,1,0) of a degenerate triangle included), and for a triangle
    that is not degenerate it is perpendicular to both edges that leave
    V0. *)
Theorem Normal_unit_perpendicular (t : Triangle R) :
  let edge1 := Sub (V1 t) (V0 t) in
  let edge2 := Sub (V2 t) (V0 t) in
  Length (Normal t) = 1%R
  /\ ((epsilon <= Length (Cross edge1 edge2))%R ->
      Dot (Normal t) edge1 = 0%R /\ Dot (Normal t) edge2 = 0%R).
Proof.
  intros edge1 edge2. unfold Normal. fold edge1 edge2.
  destruct (Rlt_dec (Length (Cross edge1 edge2)) epsilon) as [H | H].
  - replace (Length (Cross edge1 edge2) <? epsilon)%go with true
      by (symmetry; apply ExactFacts.Rltb_true; exact H).
    split; [ | lra].
    unfold Length. cbn.
    replace (0 * 0 + 1 * 1 + 0 * 0)%R with 1%R by ring. apply sqrt_1.
  - assert (H' : (epsilon <= Length (Cross edge1 edge2))%R) by lra.
    replace (Length (Cross edge1 edge2) <? epsilon)%go with false
      by (symmetry; apply ExactFacts.Rltb_false; exact H').
    split; [apply ExactFacts.Length_Normalize, H' | ].
    intros _.
    split; apply ExactAlgebra.Dot_Normalize_l, ExactAlgebra.Cross_orthogonal.
Qed.

Lemma Normal_unit_perpendicular_run :
  Length (Normal MoreExamples.properTriangleR) = 1%R
  /\ Dot (Normal MoreExamples.properTriangleR)
         (Sub (V1 MoreExamples.properTriangleR) (V0 MoreExamples.properTriangleR)) = 0%R
  /\ Dot (Normal MoreExamples.properTriangleR)
         (Sub (V2 MoreExamples.properTriangleR) (V0 MoreExamples.properTriangleR)) = 0%R.
Proof.
  destruct (Normal_unit_perpendicular MoreExamples.properTriangleR) as [H1 H2].
  split; [exact H1 | ]. apply H2.
  unfold Length, Cross, Sub, epsilon. cbn.
  match goal with |- (_ <= R_sqrt.sqrt ?x)%R => replace x with 1%R by ring end.
  rewrite sqrt_1. lra.
Defined.

(** X3.  In exact arithmetic the triple loop of Matrix4.Multiply is the
    matrix product: Identity is neutral on both sides and the product is
    associative. *)
Theorem Multiply_identity_associative (a b c : Matrix4 R) :
  Multiply Identity a = a /\ Multiply a Identity = a
  /\ Multiply (Multiply a b) c = Multiply a (Multiply b c).
Proof.
  destruct a, b, c. unfold Multiply, Identity, cell, entry. cbn.
  split; [ | split]; f_equal; ring.
Qed.

(** X4.  In exact arithmetic, transforming by a product is transforming
    by its factors, right factor first, whenever the right factor is affine
    (last row 0 0 0 1): a.Multiply(b).TransformVector(v) equals
    a.TransformVector(b.TransformVector(v)).  The left factor may be a
    projection.  The product of two affine matrices is affine. *)
Theorem TransformVector_composes (a b : Matrix4 R) (v : Vector3 R) :
  affine b ->
  TransformVector (Multiply a b) v = TransformVector a (TransformVector b v)
  /\ (affine a -> affine (Multiply a b)).
Proof.
  intros Hb. split.
  - now apply ExactAlgebra.TransformVector_Multiply.
  - intros Ha. now apply ExactAlgebra.Multiply_affine.
Qed.

Lemma TransformVector_composes_run :
  TransformVector (Multiply (Perspective 1 1 2 100) (Translation 1 2 3))
                  (MoreExamples.vecR 1 1 1)
  = TransformVector (Perspective 1 1 2 100)
      (TransformVector (Translation 1 2 3) (MoreExamples.vecR 1 1 1)).
Proof.
  apply (TransformVector_composes (Perspective 1 1 2 100) (Translation 1 2 3)).
  unfold affine. cbn. auto.
Defined.

(** X5.  In exact arithmetic Translation(x, y, z) moves every point by
    (x, y, z), the translation by the opposite offset undoes it, and
    Scale(x, y, z) multiplies the coordinates by x, y and z. *)
Theorem Translation_and_Scale_act (x y z : R) (v : Vector3 R) :
  TransformVector (Translation x y z) v = Add v (NewVector3 x y z)
  /\ TransformVector (Translation (- x) (- y) (- z))
       (TransformVector (Translation x y z) v) = v
  /\ TransformVector (ScaleMatrix x y z) v
     = NewVector3 (x * vX v) (y * vY v) (z * vZ v)%R.
Proof.
  rewrite !ExactAlgebra.TransformVector_affine
    by (apply ExactAlgebra.Translation_affine || apply ExactAlgebra.ScaleMatrix_affine).
  destruct v. unfold hom_x, hom_y, hom_z, Add. cbn.
  split; [ | split]; f_equal; ring.
Qed.

(** X6.  In exact arithmetic RotationX, RotationY and RotationZ keep the
    length of every vector. *)
Theorem rotations_preserve_length (a : R) (v : Vector3 R) :
  Length (TransformVector (RotationX a) v) = Length v
  /\ Length (TransformVector (RotationY a) v) = Length v
  /\ Length (TransformVector (RotationZ a) v) = Length v.
Proof.
  pose proof (ExactAlgebra.cos2_sin2 a) as H.
  rewrite !ExactAlgebra.TransformVector_affine
    by (apply ExactAlgebra.RotationX_affine || apply ExactAlgebra.RotationY_affine
        || apply ExactAlgebra.RotationZ_affine).
  destruct v as [x y z].
  split; [ | split]; apply ExactAlgebra.Length_eq; unfold Dot, hom_x, hom_y, hom_z; cbn;
    set (c := cos a) in *; set (s := sin a) in *.
  - transitivity (x * x + (c * c + s * s) * (y * y + z * z))%R; [ring | ].
    rewrite H. ring.
  - transitivity (y * y + (c * c + s * s) * (x * x + z * z))%R; [ring | ].
    rewrite H. ring.
  - transitivity (z * z + (c * c + s * s) * (x * x + y * y))%R; [ring | ].
    rewrite H. ring.
Qed.

(** X7.  In exact arithmetic, for an axis of length 1,
    RotationFromAxisAngle leaves the axis where it is and keeps the length
    of every vector; about the three coordinate axes it is RotationX,
    RotationY and RotationZ. *)
Theorem RotationFromAxisAngle_turns_about_axis (k v : Vector3 R) (a : R) :
  (Dot k k = 1%R ->
   TransformVector (RotationFromAxisAngle k a) k = k
   /\ Length (TransformVector (RotationFromAxisAngle k a) v) = Length v)
  /\ RotationFromAxisAngle (NewVector3 1 0 0) a = RotationX a
  /\ RotationFromAxisAngle (NewVector3 0 1 0) a = RotationY a
  /\ RotationFromAxisAngle (NewVector3 0 0 1) a = RotationZ a.
Proof.
  split; [ | split; [ | split]];
    try (unfold RotationFromAxisAngle, RotationX, RotationY, RotationZ; cbn;
         f_equal; ring).
  intros Hk. pose proof (ExactAlgebra.cos2_sin2 a) as H.
  rewrite !ExactAlgebra.TransformVector_affine
    by apply ExactAlgebra.RotationFromAxisAngle_affine.
  destruct k as [x y z], v as [p q r].
  unfold Dot in Hk. cbn in Hk.
  split.
  - unfold hom_x, hom_y, hom_z. cbn.
    set (c := cos a) in *; set (s := sin a) in *.
    f_equal; nsatz.
  - apply ExactAlgebra.Length_eq. unfold Dot, hom_x, hom_y, hom_z. cbn.
    set (c := cos a) in *; set (s := sin a) in *.
    clearbody c s. nsatz.
Qed.

Lemma RotationFromAxisAngle_turns_about_axis_run :
  TransformVector (RotationFromAxisAngle (MoreExamples.vecR 0 1 0) 1)
                  (MoreExamples.vecR 0 1 0)
  = MoreExamples.vecR 0 1 0
  /\ Length (TransformVector (RotationFromAxisAngle (MoreExamples.vecR 0 1 0) 1)
                             (MoreExamples.vecR 1 2 3))
     = Length (MoreExamples.vecR 1 2 3).
Proof.
  apply (proj1 (RotationFromAxisAngle_turns_about_axis
                  (MoreExamples.vecR 0 1 0) (MoreExamples.vecR 1 2 3) 1)).
  unfold Dot. cbn. ring.
Defined.

(** X8.  In exact arithmetic the view matrix of LookAt sends the eye to
    the origin, for every eye, target and up vector; and when the target
    is at least 1e-10 away from the eye it sends the target onto the
    negative z axis, at its distance from the eye. *)
Theorem LookAt_eye_target (eye target up : Vector3 R) :
  TransformVector (LookAt eye target up) eye = NewVector3 0%R 0%R 0%R
  /\ ((epsilon <= Length (Sub target eye))%R ->
      TransformVector (LookAt eye target up) target
      = NewVector3 0%R 0%R (- Length (Sub target eye))%R).
Proof.
  split; [ | apply ExactAlgebra.LookAt_target].
  rewrite ExactAlgebra.TransformVector_affine by apply ExactAlgebra.LookAt_affine.
  destruct (ExactAlgebra.LookAt_frame eye target up)
    as (forward & right & newUp & -> & _).
  unfold hom_x, hom_y, hom_z, Dot. cbn. f_equal; ring.
Qed.

Lemma LookAt_eye_target_run :
  TransformVector (LookAt (MoreExamples.vecR 0 0 (-5)) (MoreExamples.vecR 0 0 0)
                          (MoreExamples.vecR 0 1 0)) (MoreExamples.vecR 0 0 0)
  = NewVector3 0%R 0%R
      (- Length (Sub (MoreExamples.vecR 0 0 0) (MoreExamples.vecR 0 0 (-5))))%R.
Proof.
  apply (proj2 (LookAt_eye_target (MoreExamples.vecR 0 0 (-5)) (MoreExamples.vecR 0 0 0)
                  (MoreExamples.vecR 0 1 0))).
  unfold Length, Sub, epsilon. cbn.
  match goal with |- (_ <= R_sqrt.sqrt ?x)%R => replace x with (5 * 5)%R by ring end.
  rewrite sqrt_square; lra.
Defined.

(** X9.  In exact arithmetic, for a projection that is not degenerate and
    0 < near < far: a point on the near plane gets depth -1, a point on the
    far plane depth 1, and of two points the one farther from the camera
    plane gets the larger depth.  The distances are taken clear of 0 and of
    1, the two values of w around which TransformVector leaves the division
    out. *)
Theorem Perspective_depth (fov aspect near far : R) :
  (epsilon <= Rabs fov)%R -> (epsilon <= Rabs aspect)%R ->
  (0 < near)%R -> (near + epsilon <= far)%R ->
  let depthAt x y d :=
    vZ (TransformVector (Perspective fov aspect near far) (NewVector3 x y (- d)%R)) in
  (forall x y, ExactSpec.regular_depth near -> depthAt x y near = (-1)%R)
  /\ (forall x y, ExactSpec.regular_depth far -> depthAt x y far = 1%R)
  /\ (forall x y x' y' d d',
        ExactSpec.regular_depth d -> ExactSpec.regular_depth d' -> (d < d')%R ->
        (depthAt x y d < depthAt x' y' d')%R).
Proof.
  intros H1 H2 Hn Hf depthAt. pose proof ExactFacts.epsilon_pos as He.
  assert (H3 : (epsilon <= Rabs (far - near))%R) by (rewrite Rabs_pos_eq; lra).
  subst depthAt. cbv beta.
  split; [ | split].
  - intros x y Hr. rewrite ExactAlgebra.Perspective_depth_formula by assumption.
    field. lra.
  - intros x y Hr. rewrite ExactAlgebra.Perspective_depth_formula by assumption.
    destruct Hr. field. lra.
  - intros x y x' y' d d' Hr Hr' Hlt.
    rewrite !ExactAlgebra.Perspective_depth_formula by assumption.
    destruct Hr as [Hd _], Hr' as [Hd' _].
    set (B := (2 * far * near / (far - near))%R).
    assert (HB : (0 < B)%R).
    { unfold B. apply Rdiv_lt_0_compat; nra. }
    assert ((B / d' < B / d)%R).
    { unfold Rdiv. apply Rmult_lt_compat_l; [exact HB | ].
      apply Rinv_lt_contravar; nra. }
    lra.
Qed.

Lemma Perspective_depth_run :
  vZ (TransformVector (Perspective 1 (4 / 3) (1 / 10) 100)
                      (NewVector3 0 0 (- (1 / 10)))%R) = (-1)%R
  /\ vZ (TransformVector (Perspective 1 (4 / 3) (1 / 10) 100)
                         (NewVector3 0 0 (- 100))%R) = 1%R.
Proof.
  pose proof ExactFacts.epsilon_pos as He.
  assert (Heps : epsilon = (1 / 10000000000)%R) by reflexivity.
  destruct (Perspective_depth 1 (4 / 3) (1 / 10) 100) as (Hnear & Hfar & _).
  - rewrite Rabs_pos_eq; lra.
  - rewrite Rabs_pos_eq; lra.
  - lra.
  - lra.
  - split.
    + apply Hnear. split; [lra | ].
      rewrite Rabs_left; lra.
    + apply Hfar. split; [lra | ].
      rewrite Rabs_pos_eq; lra.
Defined.

(** X10.  In exact arithmetic ProjectToScreen puts the point the camera
    looks at in the middle of the viewport, at (Width/2, Height/2),
    whenever the target is at least 1e-10 away from the camera position;
    the viewport has a height and the field of view a tangent other than 0,
    so that the code divides by neither. *)
Theorem target_at_centre (r : Renderer R) :
  let cam := Renderer_Camera r in
  (epsilon <= Length (Sub (Camera_Target cam) (Camera_Position cam)))%R ->
  Renderer_Height r <> 0%Z ->
  Rtrigo1.tan (Camera_FOV cam / 2) <> 0%R ->
  (ProjectToScreen r (Camera_Target cam)).1
  = (IZR (Renderer_Width r) / 2, IZR (Renderer_Height r) / 2)%R.
Proof.
  intros cam HL _ _. unfold ProjectToScreen. fold cam. cbv zeta.
  destruct (ExactAlgebra.target_on_axis r HL) as [Hx Hy].
  fold cam in Hx, Hy. cbn [float64_of_int fdiv exact] in *.
  rewrite Hx, Hy. cbn. f_equal; field.
Qed.

Lemma target_at_centre_run :
  (ProjectToScreen MoreExamples.rendererR
     (Camera_Target (Renderer_Camera MoreExamples.rendererR))).1
  = (IZR (Renderer_Width MoreExamples.rendererR) / 2,
     IZR (Renderer_Height MoreExamples.rendererR) / 2)%R.
Proof.
  refine (target_at_centre MoreExamples.rendererR _ _ _).
  - change (1 / 10000000000
            <= R_sqrt.sqrt ((0 - 0) * (0 - 0) + (0 - 0) * (0 - 0)
                            + (0 - -5) * (0 - -5)))%R.
    replace ((0 - 0) * (0 - 0) + (0 - 0) * (0 - 0) + (0 - -5) * (0 - -5))%R
      with (5 * 5)%R by ring.
    rewrite sqrt_square; lra.
  - change (600%Z <> 0%Z). lia.
  - change (Rtrigo1.tan (1 / 2) <> 0%R).
    apply Rgt_not_eq. apply tan_gt_0; [lra | ]. pose proof PI2_1. lra.
Defined.

End ExactAlgebraTheorems.

(** ** Meshes *)

Section LoopFacts.
Context {St : Type}.

Lemma forRange_empty (lo hi : Z) (body : Z -> St -> option St) (s : St) :
  (hi <= lo)%Z -> forRange lo hi body s = Some s.
Proof.
  intros H. unfold forRange, seqZ.
  replace (Z.to_nat (hi - lo)) with O by lia. reflexivity.
Qed.

Lemma forRange_snoc (lo hi : Z) (body : Z -> St -> option St) (s : St) :
  (lo <= hi)%Z ->
  forRange lo (hi + 1) body s = forRange lo hi body s ≫= body hi.
Proof.
  intros H. unfold forRange.
  replace (hi + 1 - lo)%Z with ((hi - lo) + 1)%Z by lia.
  rewrite seqZ_app by lia. rewrite foldl_app. cbn.
  replace (lo + (hi - lo))%Z with hi by lia. reflexivity.
Qed.

(* A loop whose body keeps an invariant and never panics runs through. *)
Lemma forRange_inv (P : Z -> St -> Prop) (lo hi : Z)
    (body : Z -> St -> option St) (s : St) :
  (lo <= hi)%Z -> P lo s ->
  (forall i s, (lo <= i < hi)%Z -> P i s ->
               exists s', body i s = Some s' /\ P (i + 1)%Z s') ->
  exists s', forRange lo hi body s = Some s' /\ P hi s'.
Proof.
  intros Hle H0 Hstep.
  assert (H : forall n : nat, (lo + Z.of_nat n <= hi)%Z ->
            exists s', forRange lo (lo + Z.of_nat n) body s = Some s'
                       /\ P (lo + Z.of_nat n)%Z s').
  { induction n as [ | n IH]; intros Hn.
    - exists s. rewrite Z.add_0_r. split; [apply forRange_empty; lia | exact H0].
    - assert (Hn' : (lo + Z.of_nat n <= hi)%Z) by lia.
      destruct (IH Hn') as (s1 & E1 & P1).
      assert (Hi : (lo <= lo + Z.of_nat n < hi)%Z) by lia.
      destruct (Hstep _ s1 Hi P1) as (s2 & E2 & P2).
      exists s2. replace (lo + Z.of_nat (S n))%Z with (lo + Z.of_nat n + 1)%Z by lia.
      rewrite forRange_snoc by lia. rewrite E1. cbn. auto. }
  assert (Hn : (lo + Z.of_nat (Z.to_nat (hi - lo)) <= hi)%Z) by lia.
  specialize (H _ Hn).
  replace (lo + Z.of_nat (Z.to_nat (hi - lo)))%Z with hi in H by lia. exact H.
Qed.

(* A loop whose body cannot panic is a fold. *)
Lemma forRange_total (lo hi : Z) (f : Z -> St -> St) (s : St) :
  forRange lo hi (fun i s => Some (f i s)) s
  = Some (foldl (fun s i => f i s) s (seqZ lo (hi - lo))).
Proof.
  unfold forRange. generalize (seqZ lo (hi - lo)) as l. intros l. revert s.
  induction l as [ | i l IH]; intros s; [reflexivity | ]. cbn. apply IH.
Qed.

Lemma forRange_ext (lo hi : Z) (body body' : Z -> St -> option St) (s : St) :
  (forall i s, body i s = body' i s) ->
  forRange lo hi body s = forRange lo hi body' s.
Proof.
  intros H. unfold forRange. generalize (Some s) as acc.
  induction (seqZ lo (hi - lo)) as [ | i l IH]; intros acc; [reflexivity | ].
  cbn. rewrite <- IH. f_equal. destruct acc; cbn; [apply H | reflexivity].
Qed.

End LoopFacts.

Lemma index_Some {A : Type} (l : list A) (i : Z) :
  (0 <= i < Z.of_nat (length l))%Z -> exists x, index l i = Some x /\ x ∈ l.
Proof.
  intros H. unfold index.
  replace (i <? 0)%Z with false by (symmetry; apply Z.ltb_ge; lia).
  destruct (lookup_lt_is_Some_2 l (Z.to_nat i)) as [x Hx]; [lia | ].
  exists x. split; [exact Hx | ]. eapply list_elem_of_lookup_2, Hx.
Qed.


Section MeshFacts.
Context {F : Type} {FO : Float64 F}.
Local Open Scope go_scope.

Lemma foldl_AddVertex {A : Type} (g : A -> Vector3 F) (l : list A) (mesh : Mesh F) :
  foldl (fun mesh a => AddVertex mesh (g a)) mesh l
  = mkMesh (Vertices mesh ++ map g l) (Triangles mesh).
Proof.
  revert mesh. induction l as [ | a l IH]; intros mesh; cbn.
  - rewrite app_nil_r. now destruct mesh.
  - rewrite IH. cbn. now rewrite <- app_assoc.
Qed.

Lemma foldl_AddTriangle {A : Type} (g : A -> Triangle F) (l : list A) (mesh : Mesh F) :
  foldl (fun mesh a => AddTriangle mesh (g a)) mesh l
  = mkMesh (Vertices mesh) (Triangles mesh ++ map g l).
Proof.
  revert mesh. induction l as [ | a l IH]; intros mesh; cbn.
  - rewrite app_nil_r. now destruct mesh.
  - rewrite IH. cbn. now rewrite <- app_assoc.
Qed.

Lemma foldl_append_vertices {A : Type} (k : A -> list (Vector3 F)) (l : list A)
    (mesh : Mesh F) :
  foldl (fun mesh a => mkMesh (Vertices mesh ++ k a) (Triangles mesh)) mesh l
  = mkMesh (Vertices mesh ++ flat_map k l) (Triangles mesh).
Proof.
  revert mesh. induction l as [ | a l IH]; intros mesh; cbn.
  - rewrite app_nil_r. now destruct mesh.
  - rewrite IH. cbn. now rewrite <- app_assoc.
Qed.

Lemma Transform_map (m : Mesh F) (matrix : Matrix4 F) :
  Transform m matrix
  = mkMesh (map (TransformVector matrix) (Vertices m))
           (map (transformTriangle matrix) (Triangles m)).
Proof.
  unfold Transform. cbv zeta.
  change (foldl (fun mesh t => AddTriangle mesh (transformTriangle matrix t))
                (foldl (fun mesh v => AddVertex mesh (TransformVector matrix v))
                       NewMesh (Vertices m))
                (Triangles m)
          = mkMesh (map (TransformVector matrix) (Vertices m))
                   (map (transformTriangle matrix) (Triangles m))).
  rewrite foldl_AddTriangle, foldl_AddVertex. reflexivity.
Qed.

(** X11.  Mesh.Transform transforms vertex by vertex and triangle by
    triangle, keeping their number and order, in any arithmetic; the
    transform of a merged mesh is the merge of the transforms. *)
Theorem Transform_pointwise (m other : Mesh F) (matrix : Matrix4 F) :
  Vertices (Transform m matrix) = map (TransformVector matrix) (Vertices m)
  /\ Triangles (Transform m matrix) = map (transformTriangle matrix) (Triangles m)
  /\ Transform (Merge m other) matrix
     = Merge (Transform m matrix) (Transform other matrix).
Proof.
  rewrite !Transform_map. cbn. rewrite !map_app. auto.
Qed.

(** *** The loops of the constructors *)

(* The first loop nest of CreateSphere, CreatePlane and CreateTorus: row
   after row of vertices. *)
Lemma vertex_rows (h w : Z) (g : Z -> Z -> Vector3 F) (mesh : Mesh F) :
  forRange 0 h (fun i mesh =>
    forRange 0 w (fun j mesh => Some (AddVertex mesh (g i j))) mesh) mesh
  = Some (mkMesh (Vertices mesh
                  ++ flat_map (fun i => map (g i) (seqZ 0 w)) (seqZ 0 h))
                 (Triangles mesh)).
Proof.
  rewrite (forRange_ext _ _ _
    (fun i mesh =>
       Some (mkMesh (Vertices mesh ++ map (g i) (seqZ 0 w)) (Triangles mesh)))).
  - rewrite forRange_total, (foldl_append_vertices (fun i => map (g i) (seqZ 0 w))).
    now rewrite Z.sub_0_r.
  - intros i s. rewrite forRange_total, foldl_AddVertex. now rewrite Z.sub_0_r.
Qed.


Lemma length_rows {A : Type} (h w : Z) (g : Z -> Z -> A) :
  length (flat_map (fun i => map (g i) (seqZ 0 w)) (seqZ 0 h))
  = (Z.to_nat h * Z.to_nat w)%nat.
Proof.
  rewrite <- (length_seqZ 0 h).
  generalize (seqZ 0 h) as l. intros l.
  induction l as [ | i l IH]; [reflexivity | ].
  cbn. rewrite length_app, IH, length_map, length_seqZ. lia.
Qed.


Lemma stitched_start (vs centers : list (Vector3 F)) :
  stitched vs centers 0 (mkMesh vs []).
Proof. unfold stitched. cbn. auto. Qed.


Lemma stitched_AddTriangle (vs centers : list (Vector3 F)) (n : nat)
    (mesh : Mesh F) (t : Triangle F) :
  stitched vs centers n mesh -> corners_in (vs ++ centers) t ->
  stitched vs centers (S n) (AddTriangle mesh t).
Proof.
  intros (Hv & Hn & Hall) Ht. unfold stitched, AddTriangle. cbn.
  split; [exact Hv | split].
  - rewrite length_app, Hn. cbn. lia.
  - apply Forall_app. split; [exact Hall | ]. now apply Forall_singleton.
Qed.


Lemma addIndexed_stitched (vs centers : list (Vector3 F)) (n : nat)
    (mesh : Mesh F) (i0 i1 i2 : Z) :
  stitched vs centers n mesh ->
  (0 <= i0 < Z.of_nat (length vs))%Z -> (0 <= i1 < Z.of_nat (length vs))%Z ->
  (0 <= i2 < Z.of_nat (length vs))%Z ->
  exists mesh', addIndexed mesh i0 i1 i2 = Some mesh'
                /\ stitched vs centers (S n) mesh'.
Proof.
  intros Hs H0 H1 H2. pose proof Hs as (Hv & _). unfold addIndexed. rewrite Hv.
  destruct (index_Some vs i0 H0) as (v0 & -> & In0).
  destruct (index_Some vs i1 H1) as (v1 & -> & In1).
  destruct (index_Some vs i2 H2) as (v2 & -> & In2).
  cbn. eexists. split; [reflexivity | ].
  apply stitched_AddTriangle; [exact Hs | ].
  unfold corners_in; cbn. rewrite !elem_of_app. auto.
Qed.

(* The second loop nest of CreateSphere and CreateTorus stays within the
   rows laid out by the first. *)
Lemma stitchRows_stitched (outer inner : Z) (vs centers : list (Vector3 F))
    (mesh : Mesh F) :
  length vs = (Z.to_nat (outer + 1) * Z.to_nat (inner + 1))%nat ->
  stitched vs centers 0 mesh ->
  exists mesh', stitchRows outer inner mesh = Some mesh'
                /\ stitched vs centers (2 * Z.to_nat outer * Z.to_nat inner) mesh'.
Proof.
  intros Hlen Hs. unfold stitchRows.
  destruct (Z_le_gt_dec outer 0) as [Ho | Ho].
  { rewrite forRange_empty by lia. exists mesh. split; [reflexivity | ].
    replace (Z.to_nat outer) with O by lia. exact Hs. }
  destruct (Z_le_gt_dec inner 0) as [Hi | Hi].
  { replace (Z.to_nat inner) with O by lia. rewrite Nat.mul_0_r.
    match goal with
    | |- exists mesh', forRange 0 outer ?body mesh = _ /\ _ =>
        destruct (forRange_inv (fun _ m => stitched vs centers 0 m) 0 outer body mesh)
          as (m' & E & H'); [lia | exact Hs | | eauto]
    end.
    intros i s _ H. rewrite forRange_empty by lia. eauto. }
  assert (HL : Z.of_nat (length vs) = ((outer + 1) * (inner + 1))%Z)
    by (rewrite Hlen; lia).
  match goal with
  | |- exists mesh', forRange 0 outer ?body mesh = _ /\ _ =>
      destruct (forRange_inv
                  (fun ring m => stitched vs centers (Z.to_nat (2 * ring * inner)) m)
                  0 outer body mesh) as (m' & E & H'); [lia | exact Hs | | ]
  end.
  - intros ring s Hring H.
    match goal with
    | |- exists s', forRange 0 inner ?body s = _ /\ _ =>
        destruct (forRange_inv
                    (fun seg m =>
                       stitched vs centers (Z.to_nat (2 * ring * inner + 2 * seg)) m)
                    0 inner body s) as (s' & E' & H''); [lia | | | ]
    end.
    + now rewrite Z.add_0_r.
    + intros seg s0 Hseg H0. cbv zeta.
      destruct (addIndexed_stitched vs centers _ s0
                  (ring * (inner + 1) + seg) (ring * (inner + 1) + seg + inner + 1)
                  (ring * (inner + 1) + seg + 1) H0) as (s1 & -> & H1);
        [nia | nia | nia | ].
      cbn.
      destruct (addIndexed_stitched vs centers _ s1
                  (ring * (inner + 1) + seg + inner + 1)
                  (ring * (inner + 1) + seg + inner + 1 + 1)
                  (ring * (inner + 1) + seg + 1) H1) as (s2 & -> & H2);
        [nia | nia | nia | ].
      exists s2. split; [reflexivity | ].
      replace (Z.to_nat (2 * ring * inner + 2 * (seg + 1)))
        with (S (S (Z.to_nat (2 * ring * inner + 2 * seg)))) by nia.
      exact H2.
    + exists s'. split; [exact E' | ].
      replace (2 * (ring + 1) * inner)%Z with (2 * ring * inner + 2 * inner)%Z by ring.
      exact H''.
  - exists m'. split; [exact E | ].
    replace (2 * Z.to_nat outer * Z.to_nat inner)%nat
      with (Z.to_nat (2 * outer * inner)) by nia.
    exact H'.
Qed.


Context {FT : Trig F}.





End MeshFacts.

(* The constructors and the product, run in binary64. *)
Example CreatePlane_binary64 :
  CreatePlane (FO := binary64) 2%float 4%float 1
  = Some (mkMesh [Examples.vec (-1) 0 (-2); Examples.vec 1 0 (-2);
                  Examples.vec (-1) 0 2; Examples.vec 1 0 2]
                 [mkTriangle (Examples.vec (-1) 0 (-2)) (Examples.vec (-1) 0 2)
                             (Examples.vec 1 0 (-2));
                  mkTriangle (Examples.vec 1 0 (-2)) (Examples.vec (-1) 0 2)
                             (Examples.vec 1 0 2)])
  /\ CreatePlane (FO := binary64) 2%float 4%float (-3) = Some (mkMesh [] []).
Proof. split; vm_compute; reflexivity. Qed.

Example CreateCube_binary64 :
  Vertices (CreateCube (FO := binary64) 2%float) = []
  /\ Triangles (CreateCube (FO := binary64) 2%float) !! 0%nat
     = Some (mkTriangle (Examples.vec (-1) (-1) (-1)) (Examples.vec 1 (-1) (-1))
                        (Examples.vec 1 1 (-1)))
  /\ (Normal <$> Triangles (CreateCube (FO := binary64) 2%float)) !! 0%nat
     = Some (Examples.vec 0 0 1).
Proof. repeat apply conj; vm_compute; reflexivity. Qed.

Example Multiply_binary64 :
  TransformVector
    (Multiply (FO := binary64) (Translation 1%float 2%float 3%float)
              (ScaleMatrix 2%float 2%float 2%float))
    (Examples.vec 1 1 1)
  = Examples.vec 3 4 5.
Proof. vm_compute. reflexivity. Qed.

Section ExactMeshTheorems.
Local Open Scope R_scope.

(** X17.  In exact arithmetic transforming a mesh by Identity gives the
    mesh back, and transforming by b and then by a is transforming by
    a.Multiply(b) whenever b is affine. *)
Theorem Transform_composes (m : Mesh R) (a b : Matrix4 R) :
  Transform m Identity = m
  /\ (affine b -> Transform (Transform m b) a = Transform m (Multiply a b)).
Proof.
  rewrite !Transform_map. split.
  - destruct m as [vs ts]. cbn. f_equal.
    + rewrite <- (map_id vs) at 2. apply map_ext.
      apply ExactAlgebra.TransformVector_Identity.
    + rewrite <- (map_id ts) at 2. apply map_ext. intros [v0 v1 v2].
      unfold transformTriangle. cbn.
      now rewrite !ExactAlgebra.TransformVector_Identity.
  - intros Hb. cbn. rewrite !map_map. f_equal; apply map_ext.
    + intros v. symmetry. now apply ExactAlgebra.TransformVector_Multiply.
    + intros t. unfold transformTriangle. cbn.
      now rewrite !ExactAlgebra.TransformVector_Multiply.
Qed.

Lemma Transform_composes_run :
  Transform (Transform (mkMesh [MoreExamples.vecR 1 1 1] [MoreExamples.cubeFront])
                       (Translation 1 2 3)) (ScaleMatrix 2 2 2)
  = Transform (mkMesh [MoreExamples.vecR 1 1 1] [MoreExamples.cubeFront])
              (Multiply (ScaleMatrix 2 2 2) (Translation 1 2 3)).
Proof.
  apply (proj2 (Transform_composes
                  (mkMesh [MoreExamples.vecR 1 1 1] [MoreExamples.cubeFront])
                  (ScaleMatrix 2 2 2) (Translation 1 2 3))).
  unfold affine. cbn. auto.
Defined.



(* The vertices CreateSphere lays out. *)
Lemma CreateSphere_vertices (radius : R) (segments rings : Z) :
  exists mesh,
    CreateSphere radius segments rings = Some mesh
    /\ Vertices mesh
       = flat_map (fun ring =>
           map (fun seg =>
                  let theta := IZR ring * PI / IZR rings in
                  let phi := IZR seg * 2 * PI / IZR segments in
                  NewVector3 (cos phi * sin theta * radius) (cos theta * radius)
                             (sin phi * sin theta * radius))
               (seqZ 0 (segments + 1)))
           (seqZ 0 (rings + 1))
    /\ Forall (corners_in (Vertices mesh)) (Triangles mesh).
Proof.
  unfold CreateSphere. cbv zeta. rewrite vertex_rows. cbn [mbind option_bind].
  cbn [Vertices Triangles NewMesh app].
  set (vs := flat_map _ _).
  assert (Hlen : length vs = (Z.to_nat (rings + 1) * Z.to_nat (segments + 1))%nat)
    by apply length_rows.
  destruct (stitchRows_stitched rings segments vs [] (mkMesh vs []) Hlen
              (stitched_start vs [])) as (mesh' & -> & Hv & _ & Hall).
  exists mesh'. split; [reflexivity | ]. rewrite Hv. split; [reflexivity | ].
  now rewrite app_nil_r in Hall.
Qed.

Lemma sphere_point_Length (theta phi radius : R) :
  Length (NewVector3 (cos phi * sin theta * radius) (cos theta * radius)
                     (sin phi * sin theta * radius)) = Rabs radius.
Proof.
  pose proof (ExactAlgebra.cos2_sin2 theta) as Ht.
  pose proof (ExactAlgebra.cos2_sin2 phi) as Hp.
  unfold Length. cbn.
  replace (_ + _ + _) with
    (radius * radius
     * (sin theta * sin theta * (cos phi * cos phi + sin phi * sin phi)
        + cos theta * cos theta)) by ring.
  rewrite Hp, Rmult_1_r, (Rplus_comm (sin theta * sin theta)), Ht, Rmult_1_r.
  apply sqrt_Rsqr_abs.
Qed.

(** X19.  In exact arithmetic, with segments and rings other than 0 (the
    code divides by both), every vertex of CreateSphere and every corner of
    its triangles lies at distance |radius| from the origin. *)
Theorem CreateSphere_on_sphere (radius : R) (segments rings : Z) :
  segments <> 0%Z -> rings <> 0%Z ->
  exists mesh,
    CreateSphere radius segments rings = Some mesh
    /\ Forall (fun v => Length v = Rabs radius) (Vertices mesh)
    /\ Forall (fun t => Length (V0 t) = Rabs radius /\ Length (V1 t) = Rabs radius
                        /\ Length (V2 t) = Rabs radius) (Triangles mesh).
Proof.
  intros _ _.
  destruct (CreateSphere_vertices radius segments rings) as (mesh & E & Hv & Hall).
  exists mesh. split; [exact E | ].
  assert (H : Forall (fun v => Length v = Rabs radius) (Vertices mesh)).
  { rewrite Hv. apply Forall_forall. intros v Hin.
    apply list_elem_of_In, in_flat_map in Hin as (ring & _ & Hin).
    apply in_map_iff in Hin as (seg & <- & _). apply sphere_point_Length. }
  split; [exact H | ].
  rewrite Forall_forall in H.
  eapply Forall_impl; [exact Hall | ].
  intros t (H0 & H1 & H2). auto.
Qed.

Lemma CreateSphere_on_sphere_run :
  exists mesh,
    CreateSphere 2 8 4 = Some mesh
    /\ Forall (fun v => Length v = Rabs 2) (Vertices mesh)
    /\ Forall (fun t => Length (V0 t) = Rabs 2 /\ Length (V1 t) = Rabs 2
                        /\ Length (V2 t) = Rabs 2) (Triangles mesh).
Proof. apply (CreateSphere_on_sphere 2 8 4); lia. Defined.

End ExactMeshTheorems.

(** ** Drawing *)

Section DrawFacts.
Context {F : Type} {FO : Float64 F}.
Local Open Scope go_scope.
Variable sort_Slice : forall A : Type, (A -> A -> bool) -> list A -> list A.

Lemma emit_nil (r : Renderer F) : emit r [] = r.
Proof. destruct r. unfold emit. cbn. now rewrite app_nil_r. Qed.

Lemma tracePath_plain (r : Renderer F) (t : Triangle F) : Forall plain (tracePath r t).
Proof.
  unfold tracePath.
  destruct (ProjectToScreen r (V0 t)) as [[x0 y0] z0].
  destruct (ProjectToScreen r (V1 t)) as [[x1 y1] z1].
  destruct (ProjectToScreen r (V2 t)) as [[x2 y2] z2].
  repeat constructor.
Qed.

Lemma flat_map_plain {A : Type} (f : A -> list (DrawCmd F)) (l : list A) :
  (forall a, Forall plain (f a)) -> Forall plain (flat_map f l).
Proof.
  intros H. induction l as [ | a l IH]; cbn; [constructor | ].
  apply Forall_app. auto.
Qed.

Lemma wireframeTriangle_plain (r : Renderer F) (t : Triangle F) :
  Forall plain (wireframeTriangle r t).
Proof.
  unfold wireframeTriangle. destruct (wireframeCull _); [constructor | ].
  apply Forall_app. split; [apply tracePath_plain | repeat constructor].
Qed.

Lemma flatFill_plain (r : Renderer F) (td : triangleWithDepth F) :
  Forall plain (flatFill r td).
Proof.
  unfold flatFill. apply Forall_app. split; [apply tracePath_plain | repeat constructor].
Qed.

Lemma colorFill_plain (r : Renderer F) (td : triangleWithDepth F) :
  Forall plain (colorFill r td).
Proof.
  unfold colorFill. apply Forall_app. split; [apply tracePath_plain | repeat constructor].
Qed.

(** X20.  DrawMesh, in each of its three modes, and DrawMeshWithGradient
    change nothing of the renderer but the cairo context, on which they
    issue nothing at all for a mesh without triangles and otherwise one
    Save, calls that leave the stack of saved states alone, and one
    Restore: the stack is as deep after the call as before. *)
Theorem draw_calls_bracketed (r : Renderer F) (mesh : Mesh F) (c c' : Color F) :
  (exists cmds, DrawMesh sort_Slice r mesh c = emit r cmds
                /\ bracketed cmds /\ (Triangles mesh = [] <-> cmds = []))
  /\ (exists cmds, DrawMeshWithGradient sort_Slice r mesh c c' = emit r cmds
                   /\ bracketed cmds /\ (Triangles mesh = [] <-> cmds = [])).
Proof.
  split.
  - unfold DrawMesh, drawWireframe, drawFlat, drawShaded.
    destruct (Triangles mesh) as [ | t ts] eqn:E.
    + exists []. rewrite emit_nil. split; [now destruct (Renderer_Mode r) | ].
      split; [now left | tauto].
    + destruct (Renderer_Mode r); eexists; (split; [reflexivity | ]);
        (split; [right | split; discriminate]).
      * exists ([SetSourceRGB (c0 c) (c1 c) (c2 c); SetLineWidth (#15 / #10);
                 SetLineJoinRound] ++ flat_map (wireframeTriangle r) (t :: ts)).
        split; [reflexivity | ].
        do 3 (constructor; [exact I | ]).
        apply (flat_map_plain (wireframeTriangle r)), wireframeTriangle_plain.
      * exists ([SetSourceRGB (c0 c) (c1 c) (c2 c)]
                ++ flat_map (flatFill r) (flatQueue sort_Slice r mesh c)).
        split; [reflexivity | ].
        constructor; [exact I | ].
        apply (flat_map_plain (flatFill r)), flatFill_plain.
      * exists (flat_map (colorFill r) (shadedQueue sort_Slice r mesh c)).
        split; [reflexivity | ].
        apply (flat_map_plain (colorFill r)), colorFill_plain.
  - unfold DrawMeshWithGradient.
    destruct (Triangles mesh) as [ | t ts] eqn:E.
    + exists []. rewrite emit_nil. split; [reflexivity | ].
      split; [now left | tauto].
    + eexists. split; [reflexivity | ].
      split; [right | split; discriminate].
      exists (flat_map (colorFill r) (gradientQueue sort_Slice r mesh c c')).
      split; [reflexivity | ].
      apply (flat_map_plain (colorFill r)), colorFill_plain.
Qed.

Hypothesis sort_Slice_sorts : sort_Slice_contract sort_Slice.

Lemma omap_length_le {A B : Type} (f : A -> option B) (l : list A) :
  (length (omap f l) <= length l)%nat.
Proof. induction l as [ | a l IH]; cbn; [lia | ]. destruct (f a); cbn; lia. Qed.

Lemma omap_length_mono {A B C : Type} (f : A -> option B) (g : A -> option C)
    (l : list A) :
  (forall a, is_Some (f a) -> is_Some (g a)) ->
  (length (omap f l) <= length (omap g l))%nat.
Proof.
  intros H. induction l as [ | a l IH]; cbn; [lia | ].
  specialize (H a). destruct (f a), (g a); cbn; try lia.
  destruct H as [? H]; [eauto | discriminate].
Qed.

Lemma sorted_queue_elem {A : Type} (entry : Triangle F -> option A)
    (less : A -> A -> bool) (ts : list (Triangle F)) (td : A) :
  td ∈ sort_Slice _ less (omap entry ts) ->
  exists t, t ∈ ts /\ entry t = Some td.
Proof.
  intros H. destruct (sort_Slice_sorts _ less (omap entry ts)) as [Hperm _].
  rewrite Hperm in H. now apply list_elem_of_omap in H.
Qed.

Lemma sorted_queue_length {A : Type} (l : list A) (less : A -> A -> bool) :
  length (sort_Slice _ less l) = length l.
Proof.
  destruct (sort_Slice_sorts _ less l) as [Hperm _]. now apply Permutation_length.
Qed.

Lemma flatEntry_tri r c t (td : triangleWithDepth F) :
  flatEntry r c t = Some td -> tri td = t.
Proof. unfold flatEntry. destruct (fillCull _); [discriminate | ]. now intros [= <-]. Qed.

Lemma shadedEntry_tri r c t (td : triangleWithDepth F) :
  shadedEntry r c t = Some td -> tri td = t.
Proof.
  unfold shadedEntry. destruct (fillCull _); [discriminate | ].
  destruct (_ <? _); [discriminate | ]. now intros [= <-].
Qed.

Lemma gradientEntry_tri r c c' t (td : triangleWithDepth F) :
  gradientEntry r c c' t = Some td -> tri td = t.
Proof.
  unfold gradientEntry. destruct (fillCull _); [discriminate | ]. now intros [= <-].
Qed.

End DrawFacts.

(** X21.  With a sort.Slice that honours its contract, every triangle the
    three fill loops draw is a triangle of the mesh that their first loop
    kept, with the depth and colour computed there; so the shaded mode
    fills at most as many triangles as the flat mode, the flat mode at most
    as many as the mesh has, and DrawMeshWithGradient as many as the flat
    mode.  This holds in any arithmetic. *)
Theorem fills_come_from_mesh
    (sort_Slice : forall A : Type, (A -> A -> bool) -> list A -> list A) :
  sort_Slice_contract sort_Slice ->
  forall (F : Type) (FO : Float64 F) (r : Renderer F) (mesh : Mesh F) (c c' : Color F),
    (forall td, td ∈ flatQueue sort_Slice r mesh c ->
                tri td ∈ Triangles mesh /\ flatEntry r c (tri td) = Some td)
    /\ (forall td, td ∈ shadedQueue sort_Slice r mesh c ->
                   tri td ∈ Triangles mesh /\ shadedEntry r c (tri td) = Some td)
    /\ (forall td, td ∈ gradientQueue sort_Slice r mesh c c' ->
                   tri td ∈ Triangles mesh /\ gradientEntry r c c' (tri td) = Some td)
    /\ (length (shadedQueue sort_Slice r mesh c)
        <= length (flatQueue sort_Slice r mesh c) <= length (Triangles mesh))%nat
    /\ length (gradientQueue sort_Slice r mesh c c')
       = length (flatQueue sort_Slice r mesh c).
Proof.
  intros Hsort F FO r mesh c c'.
  split; [ | split; [ | split; [ | split]]].
  - intros td H. apply (sorted_queue_elem sort_Slice Hsort) in H as (t & Ht & E).
    rewrite (flatEntry_tri _ _ _ _ E). auto.
  - intros td H. apply (sorted_queue_elem sort_Slice Hsort) in H as (t & Ht & E).
    rewrite (shadedEntry_tri _ _ _ _ E). auto.
  - intros td H. apply (sorted_queue_elem sort_Slice Hsort) in H as (t & Ht & E).
    rewrite (gradientEntry_tri _ _ _ _ _ E). auto.
  - unfold shadedQueue, flatQueue.
    rewrite !(sorted_queue_length sort_Slice Hsort). split.
    + apply omap_length_mono. intros t [td H].
      unfold shadedEntry in H. unfold flatEntry.
      destruct (fillCull _); [discriminate | eauto].
    + apply omap_length_le.
  - unfold gradientQueue, flatQueue. rewrite !(sorted_queue_length sort_Slice Hsort).
    apply Nat.le_antisymm; apply omap_length_mono; intros t [td H].
    + unfold gradientEntry in H. unfold flatEntry.
      destruct (fillCull _); [discriminate | eauto].
    + unfold flatEntry in H. unfold gradientEntry.
      destruct (fillCull _); [discriminate | eauto].
Qed.

Lemma fills_come_from_mesh_run :
  (length (shadedQueue (@insertion_sort) Examples.renderer Examples.twoLayers
                       Examples.white)
   <= length (flatQueue (@insertion_sort) Examples.renderer Examples.twoLayers
                        Examples.white)
   <= length (Triangles Examples.twoLayers))%nat.
Proof.
  exact (proj1 (proj2 (proj2 (proj2
    (fills_come_from_mesh (@insertion_sort) insertion_sort_contract float binary64
       Examples.renderer Examples.twoLayers Examples.white Examples.white))))).
Defined.

Section ExactDrawTheorems.
Local Open Scope R_scope.

(** X22.  In exact arithmetic drawShaded never draws a triangle whose
    Normal points away from the camera: when the camera is at least 1e-10
    away from the centre of the triangle and the normal has a negative dot
    product with the vector from that centre to the camera, the first loop
    skips the triangle. *)
Theorem shadedEntry_culls_back_faces (r : Renderer R) (c : Color R) (t : Triangle R) :
  let toCamera := Sub (Camera_Position (Renderer_Camera r)) (Center t) in
  epsilon <= Length toCamera -> Dot (Normal t) toCamera < 0 ->
  shadedEntry r c t = None.
Proof.
  intros toCamera HL Hd. unfold shadedEntry.
  destruct (fillCull _); [reflexivity | ].
  fold toCamera.
  replace (Dot (Normal t) (Normalize toCamera) <? #0)%go with true; [reflexivity | ].
  symmetry. apply ExactFacts.Rltb_true. now apply ExactAlgebra.Dot_Normalize_neg.
Qed.

(* The face of the cube that looks at the default camera is one of those:
   CreateCube winds it inward. *)
Lemma shadedEntry_culls_back_faces_run :
  shadedEntry MoreExamples.rendererR MoreExamples.whiteR MoreExamples.cubeFront = None.
Proof.
  apply shadedEntry_culls_back_faces.
  - pose proof (ExactAlgebra.Length_sq
                  (Sub (Camera_Position (Renderer_Camera MoreExamples.rendererR))
                       (Center MoreExamples.cubeFront))) as Hsq.
    pose proof (ExactAlgebra.Length_nonneg
                  (Sub (Camera_Position (Renderer_Camera MoreExamples.rendererR))
                       (Center MoreExamples.cubeFront))) as Hn.
    set (L := Length _) in *. clearbody L.
    unfold Dot, Sub, Center, Add, Scale in Hsq. cbn in Hsq.
    unfold epsilon. cbn. nra.
  - apply (ExactAlgebra.Normal_Dot_neg _ 4).
    + unfold epsilon. cbn. lra.
    + unfold Dot, Cross, Sub. cbn. ring.
    + unfold Dot, Cross, Sub, Center, Add, Scale. cbn. lra.
Defined.

Lemma diffuse_nonneg (position normal : Vector3 R) (lights : list (Light R))
    (d : Color R) :
  Forall ExactSpec.nonnegative_light lights -> 0 <= c0 d -> 0 <= c1 d -> 0 <= c2 d ->
  let d' :=
    foldl (fun (diffuse : Color R) (light : Light R) =>
             let lightDir := Normalize (Sub (Light_Position light) position) in
             let intensity :=
               (math_Max #0 (Dot normal lightDir) * Light_Intensity light)%go in
             (c0 diffuse + c0 (Light_Color light) * intensity,
              c1 diffuse + c1 (Light_Color light) * intensity,
              c2 diffuse + c2 (Light_Color light) * intensity)%go) d lights in
  0 <= c0 d' /\ 0 <= c1 d' /\ 0 <= c2 d'.
Proof.
  intros Hall. revert d. induction Hall as [ | l ls (Hi & H0 & H1 & H2) _ IH];
    intros d D0 D1 D2; [cbn; auto | ].
  cbn [foldl]. apply IH; cbn [c0 c1 c2 fst snd];
    apply Rplus_le_le_0_compat; try assumption;
    apply Rmult_le_pos; try assumption;
    apply Rmult_le_pos; try assumption; apply Rmax_l.
Qed.

(** X23.  In exact arithmetic, with lights of non-negative colour and
    intensity and a base colour of non-negative channels: without lights
    CalculateLighting returns the base colour; with lights every channel it
    returns is at most 1 and at least the ambient share, 0.2 times the base
    channel, capped at 1. *)
Theorem CalculateLighting_bounds (r : Renderer R) (position normal : Vector3 R)
    (baseColor : Color R) :
  Forall ExactSpec.nonnegative_light (Renderer_Lights r) ->
  0 <= c0 baseColor -> 0 <= c1 baseColor -> 0 <= c2 baseColor ->
  let lit := CalculateLighting r position normal baseColor in
  (Renderer_Lights r = [] -> lit = baseColor)
  /\ (Renderer_Lights r <> [] ->
      Rmin 1 (2 / 10 * c0 baseColor) <= c0 lit <= 1
      /\ Rmin 1 (2 / 10 * c1 baseColor) <= c1 lit <= 1
      /\ Rmin 1 (2 / 10 * c2 baseColor) <= c2 lit <= 1).
Proof.
  intros Hall B0 B1 B2 lit. subst lit. unfold CalculateLighting.
  destruct (Renderer_Lights r) as [ | l ls] eqn:E; [split; [reflexivity | congruence] | ].
  split; [discriminate | intros _].
  destruct (diffuse_nonneg position normal (l :: ls) (0, 0, 0) Hall)
    as (D0 & D1 & D2); cbn [c0 c1 c2 fst snd]; try lra.
  cbv zeta in D0, D1, D2.
  set (d := foldl _ _ _) in *. clearbody d.
  cbn [c0 c1 c2 fst snd math_Min exact fadd fmul fdiv float64_of_int].
  repeat split; try apply Rmin_l; apply Rle_min_compat_l; nra.
Qed.

Lemma CalculateLighting_bounds_run :
  Rmin 1 (2 / 10 * c0 MoreExamples.whiteR)
  <= c0 (CalculateLighting MoreExamples.litRenderer (MoreExamples.vecR 0 0 0)
           (MoreExamples.vecR 0 1 0) MoreExamples.whiteR)
  <= 1.
Proof.
  refine (proj1 (proj2 (CalculateLighting_bounds MoreExamples.litRenderer
                          (MoreExamples.vecR 0 0 0) (MoreExamples.vecR 0 1 0)
                          MoreExamples.whiteR _ _ _ _) _)).
  - repeat constructor; cbn; lra.
  - cbn. lra.
  - cbn. lra.
  - cbn. lra.
  - discriminate.
Defined.

End ExactDrawTheorems.

(** ** Camera motion *)

Module EasingFacts.
Import Exact ExactFacts ExactSpec PathFacts.
Local Open Scope R_scope.

Lemma Smoothstep_cases (t : R) :
  (t < 0 /\ Smoothstep t = 0) \/ (1 < t /\ Smoothstep t = 1)
  \/ (0 <= t <= 1 /\ Smoothstep t = t * t * (3 - 2 * t)).
Proof.
  unfold Smoothstep. cbn. unfold Rltb.
  destruct (Rlt_dec t 0); [left; split; [lra | reflexivity] | ].
  destruct (Rlt_dec 1 t); [right; left; split; [lra | reflexivity] | ].
  right; right. split; [lra | reflexivity].
Qed.

Lemma Smootherstep_cases (t : R) :
  (t < 0 /\ Smootherstep t = 0) \/ (1 < t /\ Smootherstep t = 1)
  \/ (0 <= t <= 1 /\ Smootherstep t = t * t * t * (t * (t * 6 - 15) + 10)).
Proof.
  unfold Smootherstep. cbn. unfold Rltb.
  destruct (Rlt_dec t 0); [left; split; [lra | reflexivity] | ].
  destruct (Rlt_dec 1 t); [right; left; split; [lra | reflexivity] | ].
  right; right. split; [lra | reflexivity].
Qed.

Lemma cubic_range (t : R) : 0 <= t <= 1 -> 0 <= t * t * (3 - 2 * t) <= 1.
Proof.
  intros H. split.
  - apply Rmult_le_pos; nra.
  - replace (t * t * (3 - 2 * t)) with (1 - (1 - t) * (1 - t) * (1 + 2 * t)) by ring.
    assert (0 <= (1 - t) * (1 - t) * (1 + 2 * t)) by (apply Rmult_le_pos; nra). lra.
Qed.

Lemma quintic_range (t : R) :
  0 <= t <= 1 -> 0 <= t * t * t * (t * (t * 6 - 15) + 10) <= 1.
Proof.
  intros H. split.
  - apply Rmult_le_pos; [ | nra]. apply Rmult_le_pos; nra.
  - replace (t * t * t * (t * (t * 6 - 15) + 10))
      with (1 - (1 - t) * (1 - t) * (1 - t) * (6 * t * t + 3 * t + 1)) by ring.
    assert (0 <= (1 - t) * (1 - t) * (1 - t) * (6 * t * t + 3 * t + 1)).
    { apply Rmult_le_pos; [ | nra]. apply Rmult_le_pos; nra. }
    lra.
Qed.

Lemma cubic_monotone (a b : R) :
  0 <= a -> a <= b -> b <= 1 -> a * a * (3 - 2 * a) <= b * b * (3 - 2 * b).
Proof.
  intros Ha Hab Hb.
  replace (b * b * (3 - 2 * b)) with
    (a * a * (3 - 2 * a) + (b - a) * (3 * (a + b) - 2 * (a * a + a * b + b * b)))
    by ring.
  assert (0 <= (b - a) * (3 * (a + b) - 2 * (a * a + a * b + b * b)))
    by (apply Rmult_le_pos; nra).
  lra.
Qed.

(* The increase over a step h is h times a square plus a term that is
   positive for h up to 1. *)
Lemma quintic_monotone (a b : R) :
  0 <= a -> a <= b -> b <= 1 ->
  a * a * a * (a * (a * 6 - 15) + 10) <= b * b * b * (b * (b * 6 - 15) + 10).
Proof.
  intros Ha Hab Hb.
  set (h := b - a).
  set (q := a * (a - 1) + (2 * a - 1) * h / 2 + h * h / 2).
  replace (b * b * b * (b * (b * 6 - 15) + 10)) with
    (a * a * a * (a * (a * 6 - 15) + 10)
     + h * (30 * (q * q) + h * h * (5 / 2 - 3 / 2 * (h * h)))).
  - assert (0 <= h <= 1) by (unfold h; lra).
    assert (0 <= h * (30 * (q * q) + h * h * (5 / 2 - 3 / 2 * (h * h)))).
    { apply Rmult_le_pos; [lra | ].
      apply Rplus_le_le_0_compat; [nra | ].
      apply Rmult_le_pos; nra. }
    lra.
  - unfold q, h. field.
Qed.

Lemma easing_range (t : R) : 0 <= Smoothstep t <= 1 /\ 0 <= Smootherstep t <= 1.
Proof.
  split.
  - destruct (Smoothstep_cases t) as [[_ ->] | [[_ ->] | [H ->]]]; try lra.
    now apply cubic_range.
  - destruct (Smootherstep_cases t) as [[_ ->] | [[_ ->] | [H ->]]]; try lra.
    now apply quintic_range.
Qed.

Lemma easing_keeps_unit_interval :
  keeps_unit_interval (Some (Smoothstep (F := R)))
  /\ keeps_unit_interval (Some (Smootherstep (F := R))).
Proof.
  split; intros x _ _; destruct (easing_range x) as [H1 H2];
    split; apply Rleb_true; cbn; lra.
Qed.

Lemma blend_between (v1 v2 s : R) :
  0 <= s <= 1 -> between (v1 * (1 - s) + v2 * s) v1 v2.
Proof.
  intros Hs. unfold between, Rmin, Rmax. destruct (Rle_dec v1 v2); nra.
Qed.

Lemma last_tail {A : Type} (x y : A) (l : list A) (d d' : A) :
  List.last (x :: y :: l) d = List.last (y :: l) d'.
Proof.
  revert y. induction l as [ | z l IH]; intros y; [reflexivity | ].
  change (List.last (x :: y :: z :: l) d) with (List.last (x :: z :: l) d).
  change (List.last (y :: z :: l) d') with (List.last (z :: l) d').
  destruct l as [ | w l]; [reflexivity | ].
  rewrite (IH z). reflexivity.
Qed.

(* Within the time range of the path the search loop stops at two
   neighbouring keyframes around t. *)
Lemma findBracket_brackets (first : CameraKeyframe R) rest (t : R) :
  increasing_times (first :: rest) -> rest <> [] ->
  Time first <= t <= Time (List.last (first :: rest) first) ->
  exists (i : nat) a b,
    (first :: rest) !! i = Some a /\ (first :: rest) !! S i = Some b
    /\ findBracket t (first :: rest) = (a, b)
    /\ Time a <= t <= Time b /\ Time a < Time b.
Proof.
  revert first. induction rest as [ | y rest IH]; intros x Hinc Hne Ht; [congruence | ].
  assert (Hxy : Time x < Time y)
    by (apply (increasing_times_head x (y :: rest)); [assumption | left]).
  cbn [findBracket]. cbn [fle exact]. unfold Rleb.
  destruct (Rle_dec (Time x) t) as [Hx | Hx]; [ | lra].
  destruct (Rle_dec t (Time y)) as [Hy | Hy].
  - exists 0%nat, x, y. cbn. repeat split; auto; lra.
  - cbn [andb].
    destruct rest as [ | z rest].
    { cbn in Ht. lra. }
    destruct (IH y) as (i & a & b & Ha & Hb & E & Hab & Hlt).
    + eapply increasing_times_tail, Hinc.
    + discriminate.
    + rewrite (last_tail x y (z :: rest) x y) in Ht. lra.
    + exists (S i), a, b. repeat split; auto; lra.
Qed.

Lemma localParameter_unit (cp : InterpolatedCameraPath R) (t : R) a b :
  keeps_unit_interval (SmoothFunction cp) ->
  Time a <= t <= Time b -> Time a < Time b ->
  0 <= localParameter cp t a b <= 1.
Proof.
  intros Hs Ht Hab. unfold localParameter. cbn [fsub fdiv exact].
  assert (H : 0 <= (t - Time a) / (Time b - Time a) <= 1).
  { split.
    - apply Rmult_le_pos; [lra | ]. apply Rlt_le, Rinv_0_lt_compat. lra.
    - apply (Rmult_le_reg_r (Time b - Time a)); [lra | ].
      unfold Rdiv. rewrite Rmult_assoc, Rinv_l by lra. lra. }
  unfold keeps_unit_interval in Hs.
  destruct (SmoothFunction cp) as [f | ]; [ | exact H].
  destruct (Hs ((t - Time a) / (Time b - Time a))) as [H0 H1].
  - apply Rleb_true. apply H.
  - apply Rleb_true. apply H.
  - apply Rleb_true in H0, H1. cbn in H0, H1. lra.
Qed.

Lemma interpolateFloat_between (cp : InterpolatedCameraPath R) getter first rest t a b :
  Keyframes cp = first :: rest -> rest <> [] ->
  keeps_unit_interval (SmoothFunction cp) ->
  Time first <= t <= Time (List.last (first :: rest) first) ->
  findBracket t (first :: rest) = (a, b) ->
  Time a <= t <= Time b -> Time a < Time b ->
  between (interpolateFloat cp t getter) (getter a) (getter b).
Proof.
  intros E Hne Hs Ht Hf Hab Hlt. unfold interpolateFloat. rewrite E.
  destruct rest as [ | second rest]; [congruence | ].
  rewrite Hf. cbn [flt exact]. unfold Rltb.
  destruct (Rlt_dec t (Time first)); [lra | ].
  destruct (Rlt_dec _ t); [lra | ].
  apply blend_between. now apply localParameter_unit.
Qed.

Lemma interpolateVector_between (cp : InterpolatedCameraPath R) getter first rest t a b :
  Keyframes cp = first :: rest -> rest <> [] ->
  keeps_unit_interval (SmoothFunction cp) ->
  Time first <= t <= Time (List.last (first :: rest) first) ->
  findBracket t (first :: rest) = (a, b) ->
  Time a <= t <= Time b -> Time a < Time b ->
  between_vec (interpolateVector cp t getter) (getter a) (getter b).
Proof.
  intros E Hne Hs Ht Hf Hab Hlt. unfold interpolateVector. rewrite E.
  destruct rest as [ | second rest]; [congruence | ].
  rewrite Hf. cbn [flt exact]. unfold Rltb.
  destruct (Rlt_dec t (Time first)); [lra | ].
  destruct (Rlt_dec _ t); [lra | ].
  pose proof (localParameter_unit cp t a b Hs Hab Hlt) as Hu.
  unfold between_vec, Add, Scale. cbn [vX vY vZ].
  split; [ | split]; apply blend_between; exact Hu.
Qed.

End EasingFacts.

Section ExactMotionTheorems.
Local Open Scope R_scope.

(** X24.  In exact arithmetic Smoothstep and Smootherstep take their
    values in [0,1], never decrease, and are symmetric about (1/2, 1/2):
    the value at 1 - t is 1 minus the value at t. *)
Theorem easing_within_unit_monotone :
  (forall t : R, 0 <= Smoothstep t <= 1 /\ 0 <= Smootherstep t <= 1)
  /\ (forall s t : R, s <= t ->
        Smoothstep s <= Smoothstep t /\ Smootherstep s <= Smootherstep t)
  /\ (forall t : R, Smoothstep (1 - t) = 1 - Smoothstep t
                    /\ Smootherstep (1 - t) = 1 - Smootherstep t).
Proof.
  split; [exact EasingFacts.easing_range | split].
  - intros s t Hst. split.
    + destruct (EasingFacts.Smoothstep_cases s) as [[Hs ->] | [[Hs ->] | [Hs ->]]];
        destruct (EasingFacts.Smoothstep_cases t) as [[Ht ->] | [[Ht ->] | [Ht ->]]];
        try lra; try (apply EasingFacts.cubic_range; lra).
      apply EasingFacts.cubic_monotone; lra.
    + destruct (EasingFacts.Smootherstep_cases s) as [[Hs ->] | [[Hs ->] | [Hs ->]]];
        destruct (EasingFacts.Smootherstep_cases t) as [[Ht ->] | [[Ht ->] | [Ht ->]]];
        try lra; try (apply EasingFacts.quintic_range; lra).
      apply EasingFacts.quintic_monotone; lra.
  - intros t. split.
    + destruct (EasingFacts.Smoothstep_cases t) as [[Ht ->] | [[Ht ->] | [Ht ->]]];
        destruct (EasingFacts.Smoothstep_cases (1 - t))
          as [[Hs ->] | [[Hs ->] | [Hs ->]]];
        try lra; ring.
    + destruct (EasingFacts.Smootherstep_cases t) as [[Ht ->] | [[Ht ->] | [Ht ->]]];
        destruct (EasingFacts.Smootherstep_cases (1 - t))
          as [[Hs ->] | [[Hs ->] | [Hs ->]]];
        try lra; ring.
Qed.

Lemma easing_within_unit_monotone_run :
  Smoothstep (1 / 4) <= Smoothstep (1 / 2)
  /\ Smootherstep (1 / 4) <= Smootherstep (1 / 2).
Proof. apply (proj1 (proj2 easing_within_unit_monotone)). lra. Defined.

(** X25.  In exact arithmetic, for a path of at least two keyframes
    listed by strictly increasing time, whose smoothing function (if any)
    keeps [0,1] within [0,1], and for a time t between the first and the
    last keyframe: t lies between two neighbouring keyframes, and every
    coordinate of GetPosition and GetTarget and the value of GetFOV at t lie
    between the values of these two keyframes.  The interpolation never
    overshoots. *)
Theorem keyframe_path_stays_between (cp : InterpolatedCameraPath R)
    (first : CameraKeyframe R) (rest : list (CameraKeyframe R)) (t : R) :
  Keyframes cp = first :: rest -> rest <> [] ->
  increasing_times (Keyframes cp) ->
  keeps_unit_interval (SmoothFunction cp) ->
  Keyframe_Time first <= t <= Keyframe_Time (List.last (first :: rest) first) ->
  exists (i : nat) (a b : CameraKeyframe R),
    Keyframes cp !! i = Some a /\ Keyframes cp !! S i = Some b
    /\ Keyframe_Time a <= t <= Keyframe_Time b
    /\ ExactSpec.between_vec (GetPosition cp t)
         (Keyframe_Position a) (Keyframe_Position b)
    /\ ExactSpec.between_vec (GetTarget cp t) (Keyframe_Target a) (Keyframe_Target b)
    /\ ExactSpec.between (GetFOV cp t) (Keyframe_FOV a) (Keyframe_FOV b).
Proof.
  intros E Hne Hinc Hs Ht. rewrite E in Hinc.
  destruct (EasingFacts.findBracket_brackets first rest t Hinc Hne Ht)
    as (i & a & b & Ha & Hb & Hf & Hab & Hlt).
  exists i, a, b. rewrite E.
  split; [exact Ha | split; [exact Hb | split; [exact Hab | ]]].
  unfold GetPosition, GetTarget, GetFOV.
  split; [ | split].
  - eapply EasingFacts.interpolateVector_between; eassumption.
  - eapply EasingFacts.interpolateVector_between; eassumption.
  - eapply EasingFacts.interpolateFloat_between; eassumption.
Qed.

Lemma keyframe_path_stays_between_run :
  exists (i : nat) (a b : CameraKeyframe R),
    Keyframes Examples.sortedPath !! i = Some a
    /\ Keyframes Examples.sortedPath !! S i = Some b
    /\ Keyframe_Time a <= 1 / 4 <= Keyframe_Time b
    /\ ExactSpec.between_vec (GetPosition Examples.sortedPath (1 / 4))
         (Keyframe_Position a) (Keyframe_Position b)
    /\ ExactSpec.between_vec (GetTarget Examples.sortedPath (1 / 4))
         (Keyframe_Target a) (Keyframe_Target b)
    /\ ExactSpec.between (GetFOV Examples.sortedPath (1 / 4))
         (Keyframe_FOV a) (Keyframe_FOV b).
Proof.
  refine (keyframe_path_stays_between Examples.sortedPath
            (Examples.keyframeR 0 0 1)
            [Examples.keyframeR (1 / 2) 5 9; Examples.keyframeR 1 2 3] (1 / 4)
            eq_refl _ _ _ _).
  - discriminate.
  - exact sortedPath_increasing.
  - exact (proj1 EasingFacts.easing_keeps_unit_interval).
  - cbn. lra.
Defined.

Lemma Orbit_offset (ocp : OrbitCameraPath R) (t : R) :
  let d := Sub (Orbit_GetPosition ocp t) (Orbit_Center ocp) in
  vX d * vX d + vZ d * vZ d = orbitRadius ocp t * orbitRadius ocp t
  /\ vY d = orbitHeight ocp t.
Proof.
  unfold Orbit_GetPosition, orbitRadius, orbitHeight, Sub. cbn.
  set (a := t * Orbit_Speed ocp * 2 * PI).
  pose proof (ExactAlgebra.cos2_sin2 a) as H.
  destruct (RadiusOffset ocp), (HeightOffset ocp); cbn; split; try ring;
    match goal with
    | |- _ = ?r * ?r =>
        replace (r * r) with (r * r * (cos a * cos a + sin a * sin a))
          by (rewrite H; ring)
    end; ring.
Qed.

Lemma Orbit_distance (ocp : OrbitCameraPath R) (t : R) :
  Length (Sub (Orbit_GetPosition ocp t) (Orbit_Center ocp))
  = R_sqrt.sqrt (orbitRadius ocp t * orbitRadius ocp t
                 + orbitHeight ocp t * orbitHeight ocp t).
Proof.
  destruct (Orbit_offset ocp t) as [H1 H2]. cbv zeta in H1, H2.
  unfold Length. cbn [math_Sqrt exact fadd fmul]. f_equal.
  rewrite H2. lra.
Qed.

(** X26.  In exact arithmetic the orbit camera stays, seen from above, on
    the circle around Center whose radius is Radius plus the radius offset
    at t, at height Height plus the height offset at t above Center; it
    always looks at Center, from the distance these two give. *)
Theorem orbit_keeps_distance (ocp : OrbitCameraPath R) (t : R) :
  let p := Orbit_GetPosition ocp t in
  let c := Orbit_Center ocp in
  (vX p - vX c) * (vX p - vX c) + (vZ p - vZ c) * (vZ p - vZ c)
  = orbitRadius ocp t * orbitRadius ocp t
  /\ vY p = vY c + orbitHeight ocp t
  /\ Orbit_GetTarget ocp t = c
  /\ Length (Sub p (Orbit_GetTarget ocp t))
     = R_sqrt.sqrt (orbitRadius ocp t * orbitRadius ocp t
                    + orbitHeight ocp t * orbitHeight ocp t).
Proof.
  intros p c. destruct (Orbit_offset ocp t) as [H1 H2].
  unfold Sub in H1, H2. cbn [vX vY vZ fsub exact] in H1, H2. fold p c in H1, H2.
  split; [exact H1 | split; [lra | split; [reflexivity | ]]].
  apply Orbit_distance.
Qed.

(** X27.  In exact arithmetic, once ApplyCameraPath has put the camera on
    an orbit path, ProjectToScreen puts the centre of the orbit in the
    middle of the viewport, at every time at which the camera is at least
    1e-10 away from the centre; ApplyCameraPath itself leaves the up
    vector, the clipping planes and everything but the camera as they
    were. *)
Theorem orbit_centre_at_centre (r : Renderer R) (ocp : OrbitCameraPath R) (t : R) :
  epsilon <= R_sqrt.sqrt (orbitRadius ocp t * orbitRadius ocp t
                          + orbitHeight ocp t * orbitHeight ocp t) ->
  Renderer_Height r <> 0%Z ->
  Rtrigo1.tan (Orbit_FOV ocp / 2) <> 0 ->
  let r' := ApplyCameraPath r (orbitPath ocp) t in
  (ProjectToScreen r' (Orbit_Center ocp)).1
  = (IZR (Renderer_Width r) / 2, IZR (Renderer_Height r) / 2)
  /\ Camera_Up (Renderer_Camera r') = Camera_Up (Renderer_Camera r)
  /\ Camera_Near (Renderer_Camera r') = Camera_Near (Renderer_Camera r)
  /\ Camera_Far (Renderer_Camera r') = Camera_Far (Renderer_Camera r)
  /\ r' = setCamera r (Renderer_Camera r').
Proof.
  intros HL _ _ r'.
  split; [ | repeat split].
  assert (HL' : epsilon <= Length (Sub (Camera_Target (Renderer_Camera r'))
                                       (Camera_Position (Renderer_Camera r')))).
  { change (epsilon <= Length (Sub (Orbit_Center ocp) (Orbit_GetPosition ocp t))).
    rewrite <- Orbit_distance in HL.
    erewrite ExactAlgebra.Length_eq; [exact HL | ].
    unfold Dot, Sub. cbn [vX vY vZ fsub fadd fmul exact]. ring. }
  destruct (ExactAlgebra.target_on_axis r' HL') as [Hx Hy].
  unfold ProjectToScreen. cbv zeta.
  change (Orbit_Center ocp) with (Camera_Target (Renderer_Camera r')).
  cbn [float64_of_int fdiv exact] in *.
  rewrite Hx, Hy. cbn. f_equal; field.
Qed.

Lemma orbit_centre_at_centre_run :
  (ProjectToScreen (ApplyCameraPath MoreExamples.rendererR
                      (orbitPath MoreExamples.orbit) (1 / 3))
                   (Orbit_Center MoreExamples.orbit)).1
  = (IZR (Renderer_Width MoreExamples.rendererR) / 2,
     IZR (Renderer_Height MoreExamples.rendererR) / 2).
Proof.
  refine (proj1 (orbit_centre_at_centre MoreExamples.rendererR MoreExamples.orbit
                   (1 / 3) _ _ _)).
  - change (1 / 10000000000 <= R_sqrt.sqrt (3 * 3 + 4 * 4)).
    replace (3 * 3 + 4 * 4) with (5 * 5) by ring.
    rewrite sqrt_square; lra.
  - change (600%Z <> 0%Z). lia.
  - change (Rtrigo1.tan (1 / 2) <> 0).
    apply Rgt_not_eq. apply tan_gt_0; [lra | ]. pose proof PI2_1. lra.
Defined.

End ExactMotionTheorems.

(** ** The stages of Generate, the pool at every moment, scenes *)

Section StageTheorems.
Context {F : Type} {FO : Float64 F} {os : OS F}.
Local Open Scope Z_scope.

(** X28.  Generate stops at the first stage that fails.  When frame
    generation does not return nil, Generate ends as frame generation
    ended, having asked the system for the directory only: the encoder is
    not run.  When the encoder fails, Generate returns its error and the
    temporary directory is not removed, whatever CleanupTemp says.  When
    both succeed Generate returns nil, also when removing the directory
    fails. *)
Theorem Generate_stops_at_first_failure (sched : list Move)
    (ag : AnimationGenerator F) (w : World F) :
  let frames := GenerateFrames sched ag w in
  let video := ComposeVideo ag frames.1 in
  let mkdir := SysMkdirAll (Config_TempDir (Config ag)) in
  let ffmpeg := SysFfmpeg (ffmpegArgs (Config ag)) in
  let remove := SysRemoveAll (Config_TempDir (Config ag)) in
  (frames.2 <> Returned None ->
   Generate sched ag w = frames /\ syslog (Generate sched ag w).1 = syslog w ++ [mkdir])
  /\ (frames.2 = Returned None ->
      (forall err, video.2 = Some err ->
         Generate sched ag w = (video.1, Returned (Some err))
         /\ syslog (Generate sched ag w).1 = syslog w ++ [mkdir; ffmpeg])
      /\ (video.2 = None ->
          (Generate sched ag w).2 = Returned None
          /\ syslog (Generate sched ag w).1
             = syslog w ++ [mkdir; ffmpeg]
               ++ (if Config_CleanupTemp (Config ag) then [remove] else []))).
Proof.
  intros frames video mkdir ffmpeg remove.
  pose proof (GenerateFrames_syslog sched ag w) as H1. fold frames in H1.
  pose proof (ComposeVideo_syslog ag frames.1) as H2. fold video in H2.
  unfold Generate. fold frames.
  destruct frames as [w1 [[err | ] | ]] eqn:E; cbn [fst snd] in *.
  - split; [auto | intros [=]].
  - split; [congruence | intros _]. subst video.
    destruct (ComposeVideo ag w1) as [w2 [err | ]]; cbn [fst snd] in *.
    + split; [ | discriminate]. intros err' [= <-].
      split; [reflexivity | ]. cbn [fst]. rewrite H2, H1, <- app_assoc. reflexivity.
    + split; [discriminate | intros _].
      destruct (Config_CleanupTemp (Config ag)).
      * destruct (os_RemoveAll _ _) as [fs e]. cbn.
        split; [reflexivity | ]. rewrite H2, H1, <- !app_assoc. reflexivity.
      * split; [reflexivity | ]. cbn [fst]. rewrite H2, H1, <- !app_assoc. reflexivity.
  - split; [auto | intros [=]].
Qed.

(** X29.  At every moment of every schedule of the worker pool, for a
    frame count that is not negative: the callback has run once for each
    frame of a list without repetition, no frame of that list is still in a
    worker's hands or in the channel, every such frame was dispatched
    before, and the errors channel is empty.  No frame is rendered twice,
    whatever the interleaving and however far it got. *)
Theorem pool_renders_no_frame_twice (ag : AnimationGenerator F)
    (totalFrames : Z) (workers : nat) (w0 : World F) (sched : list Move) :
  0 <= totalFrames ->
  let s := run ag totalFrames sched (startPool (Z.of_nat workers) w0) in
  exists done : list Z,
    callbacks (pool_world s)
    = callbacks w0 ++ map (fun i => (i, frameTime totalFrames i)) done
    /\ NoDup (done ++ holding (workersPC s) ++ jobs s)
    /\ (forall i, i ∈ done ++ holding (workersPC s) ++ jobs s -> 1 <= i < nextFrame s)
    /\ nextFrame s <= totalFrames + 1
    /\ errorsChan s = [].
Proof.
  intros HN s.
  pose proof (run_inv ag totalFrames workers w0 sched _
                (startPool_inv ag totalFrames workers w0 HN)) as Hinv.
  fold s in Hinv.
  destruct Hinv as [(done & Hw & Hperm) Hnext Herr _ _ _].
  exists done. rewrite Hw, writeFrames_callbacks.
  split; [reflexivity | ].
  assert (Hnd : NoDup (done ++ holding (workersPC s) ++ jobs s
                       ++ seqZ (nextFrame s) (totalFrames + 1 - nextFrame s))).
  { rewrite Hperm. apply NoDup_seqZ. }
  rewrite !app_assoc in Hnd. apply NoDup_app in Hnd as (Hnd & Hdisj & _).
  rewrite <- !app_assoc in Hnd, Hdisj.
  split; [exact Hnd | ].
  split; [ | split; [lia | exact Herr]].
  intros i Hi.
  assert (Hin : i ∈ seqZ 1 totalFrames).
  { rewrite <- Hperm. rewrite !app_assoc. apply elem_of_app. left.
    now rewrite <- !app_assoc. }
  apply elem_of_seqZ in Hin.
  specialize (Hdisj i Hi). rewrite elem_of_seqZ in Hdisj. lia.
Qed.

End StageTheorems.

Lemma Generate_stops_at_first_failure_run :
  (Generate (os := Examples.plainOS) [] Examples.tenFrames Examples.emptyWorld).2
  = Returned None
  /\ syslog (Generate (os := Examples.plainOS) [] Examples.tenFrames
               Examples.emptyWorld).1
     = [SysMkdirAll "temp_frames";
        SysFfmpeg (ffmpegArgs (os := Examples.plainOS) (Config Examples.tenFrames));
        SysRemoveAll "temp_frames"].
Proof.
  refine (proj2 (proj2 (Generate_stops_at_first_failure (os := Examples.plainOS) []
                          Examples.tenFrames Examples.emptyWorld) _) _).
  - vm_compute. reflexivity.
  - vm_compute. reflexivity.
Defined.

Lemma pool_renders_no_frame_twice_run :
  exists done : list Z,
    callbacks (pool_world (run (os := Examples.plainOS) Examples.tenFrames 3
                             Examples.someSchedule (startPool 3 Examples.emptyWorld)))
    = callbacks Examples.emptyWorld
      ++ map (fun i => (i, frameTime (FO := binary64) 3 i)) done
    /\ NoDup (done
              ++ holding (workersPC (run (os := Examples.plainOS) Examples.tenFrames 3
                                       Examples.someSchedule
                                       (startPool 3 Examples.emptyWorld)))
              ++ jobs (run (os := Examples.plainOS) Examples.tenFrames 3
                         Examples.someSchedule (startPool 3 Examples.emptyWorld))).
Proof.
  destruct (pool_renders_no_frame_twice (os := Examples.plainOS) Examples.tenFrames
              3 3 Examples.emptyWorld Examples.someSchedule)
    as (done & H1 & H2 & _); [lia | ].
  exists done. split; [exact H1 | exact H2].
Defined.

Section SceneTheorems.
Context {F : Type} {FO : Float64 F}.

(** X30.  Scene.Render draws on a renderer whose lights are the lights of
    the scene: lights added to the renderer itself before the call are
    dropped.  It renders the background first and then the objects in the
    order in which they were added, so that a scene built by AddLight and
    AddObject calls renders as the fold of its objects over the renderer
    relit by its lights. *)
Theorem Scene_Render_order (r : Renderer F) (t : F)
    (lights : list (Light F)) (objects : list (SceneObject F)) :
  let s := foldl AddObject (foldl Scene_AddLight NewScene lights) objects in
  Scene_Render s r t
  = foldl (fun renderer obj => obj renderer t) (setLights r lights) objects
  /\ (forall light, Scene_Render s (AddLight r light) t = Scene_Render s r t)
  /\ (forall obj, Scene_Render (AddObject s obj) r t = obj (Scene_Render s r t) t)
  /\ (forall bg, Scene_Render (SetBackground s bg) r t
                 = foldl (fun renderer obj => obj renderer t)
                         (bg (setLights r lights) t) objects).
Proof.
  intros s.
  assert (Hl : forall (s0 : Scene F) l,
             Scene_Lights (foldl Scene_AddLight s0 l) = Scene_Lights s0 ++ l
             /\ Scene_Objects (foldl Scene_AddLight s0 l) = Scene_Objects s0
             /\ Scene_Background (foldl Scene_AddLight s0 l) = Scene_Background s0).
  { intros s0 l. revert s0. induction l as [ | x l IH]; intros s0; cbn.
    - now rewrite app_nil_r.
    - destruct (IH (Scene_AddLight s0 x)) as (-> & -> & ->). cbn.
      now rewrite <- app_assoc. }
  assert (Ho : forall (s0 : Scene F) l,
             Scene_Objects (foldl AddObject s0 l) = Scene_Objects s0 ++ l
             /\ Scene_Lights (foldl AddObject s0 l) = Scene_Lights s0
             /\ Scene_Background (foldl AddObject s0 l) = Scene_Background s0).
  { intros s0 l. revert s0. induction l as [ | x l IH]; intros s0; cbn.
    - now rewrite app_nil_r.
    - destruct (IH (AddObject s0 x)) as (-> & -> & ->). cbn.
      now rewrite <- app_assoc. }
  destruct (Ho (foldl Scene_AddLight NewScene lights) objects) as (Ho1 & Ho2 & Ho3).
  destruct (Hl NewScene lights) as (Hl1 & Hl2 & Hl3).
  fold s in Ho1, Ho2, Ho3. rewrite Hl1 in Ho2. rewrite Hl2 in Ho1. rewrite Hl3 in Ho3.
  cbn in Ho1, Ho2, Ho3.
  split; [ | split; [ | split]].
  - unfold Scene_Render. now rewrite Ho1, Ho2, Ho3.
  - intros light. reflexivity.
  - intros obj. unfold Scene_Render, AddObject. cbn. now rewrite foldl_app.
  - intros bg. unfold Scene_Render, SetBackground. cbn. now rewrite Ho1, Ho2.
Qed.

End SceneTheorems.
